(** * Markov models over an open-addressing hash table

    A shallow embedding of [hash_table.py] (class [Hashtable]) and of
    [markov.py] (class [Markov], function [identify_speaker]), with the
    properties of the two that the specification states.

    Conventions of the embedding.
    - A table cell is either the default value ([Empty]) or a tuple
      [(key, value, flag)] ([Occupied]); the flag is [False] for a deleted
      entry.
    - Python exceptions are values of [exn]; a method that mutates the table
      returns the table it leaves behind together with [Ok] or [Raise].
    - The [while] loops of the source are recursive functions on a [fuel]
      argument; [None] means that the fuel ran out before the loop ended.
    - The load factor is the number that the caller passes, and the load
      test of [__setitem__] is made in the arithmetic of that number: exact
      for an [int] or a [fractions.Fraction], rounded to 53 significant bits
      for a [float]. *)

From Stdlib Require Import QArith Qround Qpower Ascii String OrdersEx Sorted.
From stdpp Require Import base list strings gmap.

Local Open Scope nat_scope.

(** ** Exceptions and results *)

(** [RunTimeError] is the name [__setitem__] raises after a full circuit of
    the table.  The module does not bind that name, so the interpreter
    reports the failed name lookup; either way an exception reaches the
    caller of [__setitem__]. *)
Inductive exn : Type :=
  | KeyError
  | IndexError
  | ZeroDivisionError
  | RunTimeError
  | Exception.

Inductive result (A : Type) : Type :=
  | Ok (a : A)
  | Raise (e : exn).
Arguments Ok {A} a.
Arguments Raise {A} e.

(** ** The hash table *)

Module Hashtable.

(** *** The arithmetic of the load factor

    [__setitem__] evaluates [self.__len__() >= self.loadfactor*self.capacity]
    with the [*] and the [>=] of the load factor that the table was given. *)
Class LoadFactor (L : Type) : Type := {
  (** [loadfactor * capacity] *)
  times : L -> nat -> L;
  (** [size >= product] *)
  at_least : nat -> L -> bool;
  (** [size < product] *)
  below : nat -> L -> bool
}.

(** An [int] or a [fractions.Fraction]: the product and the comparisons are
    exact. *)
#[global] Instance exact_arithmetic : LoadFactor Q := {|
  times lf n := (lf * inject_Z (Z.of_nat n))%Q;
  at_least n x := Qle_bool x (inject_Z (Z.of_nat n));
  below n x := negb (Qle_bool x (inject_Z (Z.of_nat n)))
|}.

(** [floor(log2 x)] for a positive rational [x]. *)
Definition ilog2 (x : Q) : Z :=
  let a := (Z.log2 (Qnum x) - Z.log2 (Zpos (Qden x)))%Z in
  if Qle_bool (2 ^ a) x then a else (a - 1)%Z.

(** The nearest integer, and the even one of two that are equally near. *)
Definition round_half_even (x : Q) : Z :=
  let f := Qfloor x in
  match Qcompare (x - inject_Z f) (1 # 2) with
  | Lt => f
  | Gt => (f + 1)%Z
  | Eq => if Z.even f then f else (f + 1)%Z
  end.

(** The nearest number with 53 significant bits: [x] is scaled so that its
    integer part has 53 bits, rounded to an integer, and scaled back. *)
Definition round53_pos (x : Q) : Q :=
  let e := (ilog2 x - 52)%Z in
  (inject_Z (round_half_even (x / 2 ^ e)) * 2 ^ e)%Q.

(** Rounding to the nearest [float], ties to even.  The range of the
    exponent is not modelled: the numbers rounded here are an integer (a
    capacity) and its product with the load factor, which are multiples of
    the smallest positive [float] and far below the largest one for every
    table that a list can hold. *)
Definition round53 (x : Q) : Q :=
  match Qnum x with
  | Z0 => 0%Q
  | Zpos _ => round53_pos x
  | Zneg _ => (- round53_pos (- x))%Q
  end.

(** A finite [float], written as a literal: [Float (1 # 10)] is the [float]
    that [0.1] denotes, the one nearest to 1/10. *)
Record float : Type := Float { float_literal : Q }.

(** The value of a [float], a rational with at most 53 significant bits. *)
Definition float_value (x : float) : Q := round53 (float_literal x).

(** A [float]: the capacity is converted to a [float], the product is
    rounded, and the size is compared with the value of the product. *)
#[global] Instance float_arithmetic : LoadFactor float := {|
  times lf n := Float (float_value lf * round53 (inject_Z (Z.of_nat n)));
  at_least n x := Qle_bool (float_value x) (inject_Z (Z.of_nat n));
  below n x := negb (Qle_bool (float_value x) (inject_Z (Z.of_nat n)))
|}.

(** The literal [0.5]. *)
Definition half : float := Float (1 # 2).

(** The integers that a [float] holds exactly: at most 53 significant
    bits. *)
Definition exact_in_float (n : nat) : Prop :=
  ∃ (m : Z) (k : nat),
    Z.of_nat n = (m * 2 ^ Z.of_nat k)%Z ∧ (0 < m < 2 ^ 53)%Z.

Section Table.

Context {L V : Type} {LF : LoadFactor L}.

(** A cell of [self.table]. *)
Inductive Slot : Type :=
  | Empty
  | Occupied (key : string) (value : V) (live : bool).

Record t : Type := mk {
  capacity : nat;
  defVal : V;
  loadfactor : L;
  growthFactor : nat;
  table : list Slot;
  rehashing : bool
}.

Definition _prime_multiplier : nat := 37.

(** [__init__]: [self.table = [defVal]*self.capacity]. *)
Definition __init__ (cap : nat) (dv : V) (lf : L) (gf : nat) : t :=
  mk cap dv lf gf (replicate cap Empty) false.

Definition set_table (s : t) (tbl : list Slot) : t :=
  mk (capacity s) (defVal s) (loadfactor s) (growthFactor s) tbl (rehashing s).

Definition set_rehashing (s : t) (b : bool) : t :=
  mk (capacity s) (defVal s) (loadfactor s) (growthFactor s) (table s) b.

(** One step of Horner's method:
    [(hash_code*self._prime_multiplier + ord(c)) % self.capacity]. *)
Definition hash_step (cap : nat) (hash_code : nat) (c : ascii) : nat :=
  (hash_code * _prime_multiplier + nat_of_ascii c) mod cap.

Definition hash_of (cap : nat) (key : string) : nat :=
  fold_left (hash_step cap) (list_ascii_of_string key) 0.

(** [_hash]: the reduction starts from [0]; with capacity [0] the first
    character of the key divides by zero. *)
Definition _hash (s : t) (key : string) : result nat :=
  match capacity s, key with
  | 0, String _ _ => Raise ZeroDivisionError
  | cap, _ => Ok (hash_of cap key)
  end.

(** [val != self.defVal and val[2]] *)
Definition is_live (x : Slot) : bool :=
  match x with
  | Occupied _ _ true => true
  | _ => false
  end.

Definition slot_key (x : Slot) : option string :=
  match x with
  | Occupied k _ _ => Some k
  | Empty => None
  end.

Definition slot_value (x : Slot) : option V :=
  match x with
  | Occupied _ v _ => Some v
  | Empty => None
  end.

Definition keys (s : t) : list string :=
  omap slot_key (filter (fun x => is_live x = true) (table s)).

Definition values (s : t) : list V :=
  omap slot_value (filter (fun x => is_live x = true) (table s)).

Definition __len__ (s : t) : nat :=
  length (filter (fun x => is_live x = true) (table s)).

Definition __bool__ (s : t) : bool := negb (__len__ s =? 0).

(** [key in self.keys()] *)
Definition __contains__ (s : t) (key : string) : bool :=
  existsb (String.eqb key) (keys s).

(** [__iter__]: the pairs the generator yields, in table order. *)
Definition __iter__ (s : t) : list (string * V) :=
  omap (fun x => match x with
                 | Occupied k v true => Some (k, v)
                 | _ => None
                 end) (table s).

(** [if hash_val >= self.capacity: hash_val = 0] *)
Definition wrap (cap hash_val : nat) : nat :=
  if cap <=? hash_val then 0 else hash_val.

(** *** [__getitem__] *)

(** The [while not key_found] loop of [__getitem__]; [hash_val] is the value
    of the variable on entry to an iteration.  [break] leaves the loop for
    [return self.defVal]. *)
Fixpoint getitem_loop (fuel : nat) (s : t) (key : string) (hash_val : nat)
  : option (result V) :=
  match fuel with
  | 0 => None
  | S fuel' =>
      let hv := wrap (capacity s) hash_val in
      match table s !! hv with
      | None => Some (Raise IndexError)
      | Some Empty => Some (Ok (defVal s))
      | Some (Occupied k v live) =>
          if String.eqb k key && live then Some (Ok v)
          else getitem_loop fuel' s key (hv + 1)
      end
  end.

Definition __getitem__ (fuel : nat) (s : t) (key : string) : option (result V) :=
  match _hash s key with
  | Raise e => Some (Raise e)
  | Ok hash_val =>
      match table s !! hash_val with
      | None => Some (Raise IndexError)
      | Some (Occupied k v true) =>
          if String.eqb k key then Some (Ok v)
          else getitem_loop fuel s key hash_val
      | Some _ => getitem_loop fuel s key hash_val
      end
  end.

(** *** [__setitem__] *)

(** The [while not acceptable_loc_found] loop.  Within one iteration the
    source reads [self.table[hash_val]] again after each write; written out
    by cases on the cell found on entry:
    - the default value: the tuple is written, the flag set, and the
      two following tests see the new tuple and write it again;
    - a deleted tuple: the same;
    - a live tuple with the same key: the tuple is written, the flag is
      NOT set, and the scan goes on;
    - a live tuple with another key: nothing. *)
Fixpoint setitem_loop (fuel : nat) (cap : nat) (tbl : list Slot)
    (key : string) (value : V) (hash_val iter_count : nat)
  : option (list Slot * result unit) :=
  match fuel with
  | 0 => None
  | S fuel' =>
      if cap <=? iter_count then Some (tbl, Raise RunTimeError)
      else
        let hv := wrap cap hash_val in
        match tbl !! hv with
        | None => Some (tbl, Raise IndexError)
        | Some Empty =>
            Some (<[hv := Occupied key value true]> tbl, Ok tt)
        | Some (Occupied _ _ false) =>
            Some (<[hv := Occupied key value true]> tbl, Ok tt)
        | Some (Occupied k _ true) =>
            let tbl' := if String.eqb k key
                        then <[hv := Occupied key value true]> tbl
                        else tbl in
            setitem_loop fuel' cap tbl' key value (hv + 1) (iter_count + 1)
        end
  end.

(** Lines 139-162 of [__setitem__]: everything after the load test. *)
Definition setitem_place (fuel : nat) (s : t) (key : string) (value : V)
  : option (t * result unit) :=
  match _hash s key with
  | Raise e => Some (s, Raise e)
  | Ok hash_val =>
      match table s !! hash_val with
      | None => Some (s, Raise IndexError)
      | Some x =>
          let primary :=
            match x with
            | Empty => true
            | Occupied k _ live => negb live || String.eqb k key
            end in
          if primary
          then Some (set_table s (<[hash_val := Occupied key value true]> (table s)), Ok tt)
          else
            match setitem_loop fuel (capacity s) (table s) key value hash_val 0 with
            | None => None
            | Some (tbl, r) => Some (set_table s tbl, r)
            end
      end
  end.

(** The [for key_val in filtered_table] loop of [_rehash].  The calls go to
    [__setitem__] with [self.rehashing] set, whose load test is then skipped,
    so each call is [setitem_place].  An exception leaves the loop at once. *)
Fixpoint reinsert (fuel : nat) (s : t) (filtered_table : list Slot)
  : option (t * result unit) :=
  match filtered_table with
  | [] => Some (s, Ok tt)
  | Empty :: rest => reinsert fuel s rest
  | Occupied k v _ :: rest =>
      match setitem_place fuel s k v with
      | None => None
      | Some (s', Ok _) => reinsert fuel s' rest
      | Some (s', Raise e) => Some (s', Raise e)
      end
  end.

Definition _rehash (fuel : nat) (s : t) : option (t * result unit) :=
  let capacity' := capacity s * growthFactor s in
  let filtered_table := filter (fun x => is_live x = true) (table s) in
  let s1 := mk capacity' (defVal s) (loadfactor s) (growthFactor s)
               (replicate capacity' Empty) true in
  match reinsert fuel s1 filtered_table with
  | None => None
  | Some (s2, Ok _) => Some (set_rehashing s2 false, Ok tt)
  | Some (s2, Raise e) => Some (s2, Raise e)
  end.

(** [self.__len__() >= self.loadfactor*self.capacity] *)
Definition overloaded (s : t) : bool :=
  at_least (__len__ s) (times (loadfactor s) (capacity s)).

Definition __setitem__ (fuel : nat) (s : t) (key : string) (value : V)
  : option (t * result unit) :=
  if negb (rehashing s) && overloaded s then
    match _rehash fuel s with
    | None => None
    | Some (s', Ok _) => setitem_place fuel s' key value
    | Some (s', Raise e) => Some (s', Raise e)
    end
  else setitem_place fuel s key value.

(** *** [__delitem__] *)

Definition tombstone (x : Slot) : Slot :=
  match x with
  | Occupied k v _ => Occupied k v false
  | Empty => Empty
  end.

(** The [while not key_found] loop of [__delitem__]. *)
Fixpoint delitem_loop (fuel : nat) (s : t) (key : string) (hash_val : nat)
  : option (t * result unit) :=
  match fuel with
  | 0 => None
  | S fuel' =>
      let hv := wrap (capacity s) hash_val in
      match table s !! hv with
      | None => Some (s, Raise IndexError)
      | Some Empty => Some (s, Raise KeyError)
      | Some (Occupied k v live) =>
          if String.eqb k key && live
          then Some (set_table s (<[hv := Occupied k v false]> (table s)), Ok tt)
          else delitem_loop fuel' s key (hv + 1)
      end
  end.

Definition __delitem__ (fuel : nat) (s : t) (key : string)
  : option (t * result unit) :=
  match _hash s key with
  | Raise e => Some (s, Raise e)
  | Ok hash_val =>
      match table s !! hash_val with
      | None => Some (s, Raise IndexError)
      | Some (Occupied k v true) =>
          if String.eqb k key
          then Some (set_table s (<[hash_val := Occupied k v false]> (table s)), Ok tt)
          else delitem_loop fuel s key hash_val
      | Some _ => delitem_loop fuel s key hash_val
      end
  end.

(** *** Well-formed tables and load *)

(** The cell visited after [d] steps of linear probing from [h]. *)
Definition probe (cap h d : nat) : nat := (h + d) mod cap.

(** [self.table] has [self.capacity] cells, and there is at least one. *)
Definition wf (s : t) : Prop :=
  length (table s) = capacity s ∧ 0 < capacity s.

(** [size() < loadFactorThreshold * capacity] *)
Definition load_ok (s : t) : Prop :=
  below (__len__ s) (times (loadfactor s) (capacity s)) = true.

(** *** Tables without deletions

    The predicates below describe the tables that assignments of distinct
    keys build: the frequency table of a Markov model is filled that way. *)

(** Some cell holds the live entry [(key, value)]. *)
Definition holds (tbl : list Slot) (key : string) (value : V) : Prop :=
  ∃ j, tbl !! j = Some (Occupied key value true).

(** No cell holds an entry for [key], live or deleted. *)
Definition absent (tbl : list Slot) (key : string) : Prop :=
  ∀ j v l, tbl !! j ≠ Some (Occupied key v l).

(** No cell holds a deleted entry. *)
Definition no_tombstone (tbl : list Slot) : Prop :=
  ∀ j k v l, tbl !! j = Some (Occupied k v l) → l = true.

(** No key occupies two cells. *)
Definition unique_keys (tbl : list Slot) : Prop :=
  ∀ i j k v v' l l',
    tbl !! i = Some (Occupied k v l) →
    tbl !! j = Some (Occupied k v' l') → i = j.

(** Every entry is reached from the hash value of its key within one circuit,
    through cells that are not empty. *)
Definition reachable (cap : nat) (tbl : list Slot) : Prop :=
  ∀ j k v l, tbl !! j = Some (Occupied k v l) →
    ∃ d, d < cap ∧ probe cap (hash_of cap k) d = j
      ∧ ∀ d', d' < d → tbl !! probe cap (hash_of cap k) d' ≠ Some Empty.

(** The first empty cell on the way from [h] is the one after [d] steps. *)
Definition first_empty (cap : nat) (tbl : list Slot) (h d : nat) : Prop :=
  d < cap ∧ tbl !! probe cap h d = Some Empty
  ∧ ∀ d', d' < d → tbl !! probe cap h d' ≠ Some Empty.

Record clean (s : t) : Prop := {
  clean_wf : wf s;
  clean_live : no_tombstone (table s);
  clean_unique : unique_keys (table s);
  clean_reach : reachable (capacity s) (table s)
}.

(** *** Tables with deletions

    Deleted entries stay in their cells.  The predicates below describe the
    tables on which the cell of a key is found by the scans: they ask
    nothing of the deleted entries. *)

(** No key has two live entries. *)
Definition unique_live (tbl : list Slot) : Prop :=
  ∀ i j k v v',
    tbl !! i = Some (Occupied k v true) →
    tbl !! j = Some (Occupied k v' true) → i = j.

(** Every live entry is reached from the hash value of its key within one
    circuit, through cells that are not empty. *)
Definition reachable_live (cap : nat) (tbl : list Slot) : Prop :=
  ∀ j k v, tbl !! j = Some (Occupied k v true) →
    ∃ d, d < cap ∧ probe cap (hash_of cap k) d = j
      ∧ ∀ d', d' < d → tbl !! probe cap (hash_of cap k) d' ≠ Some Empty.

Record sound (s : t) : Prop := {
  sound_wf : wf s;
  sound_unique : unique_live (table s);
  sound_reach : reachable_live (capacity s) (table s)
}.

(** The first cell on the way from [h] that holds no live entry is the one
    after [d] steps. *)
Definition first_free (cap : nat) (tbl : list Slot) (h d : nat) : Prop :=
  d < cap
  ∧ (∃ x, tbl !! probe cap h d = Some x ∧ is_live x = false)
  ∧ ∀ d', d' < d →
      ∃ k v, tbl !! probe cap h d' = Some (Occupied k v true).

(** *** Sequences of calls *)

(** A caller's [table[key] = value] and [del table[key]] statements. *)
Inductive op : Type :=
  | SetItem (key : string) (value : V)
  | DelItem (key : string).

Definition call (fuel : nat) (s : t) (o : op) : option (t * result unit) :=
  match o with
  | SetItem key value => __setitem__ fuel s key value
  | DelItem key => __delitem__ fuel s key
  end.

(** The statements one after the other; the first exception ends the run. *)
Fixpoint run (fuel : nat) (s : t) (ops : list op) : option (t * result unit) :=
  match ops with
  | [] => Some (s, Ok tt)
  | o :: rest =>
      match call fuel s o with
      | None => None
      | Some (s', Ok _) => run fuel s' rest
      | Some (s', Raise e) => Some (s', Raise e)
      end
  end.

(** What a dictionary holds for [key] after the statements [ops], starting
    from [acc]: the last value assigned to [key], unless [key] was deleted
    since. *)
Fixpoint expected (ops : list op) (key : string) (acc : option V) : option V :=
  match ops with
  | [] => acc
  | SetItem k v :: rest =>
      expected rest key (if String.eqb k key then Some v else acc)
  | DelItem k :: rest =>
      expected rest key (if String.eqb k key then None else acc)
  end.

(** The dictionary that the statements [ops] build from [d] when every
    assignment is to a key that the dictionary does not hold at that moment
    and every deletion is of a key that it holds; [None] for the other
    sequences of statements. *)
Fixpoint create_delete (ops : list op) (d : gmap string V) : option (gmap string V) :=
  match ops with
  | [] => Some d
  | SetItem k v :: rest =>
      match d !! k with
      | None => create_delete rest (<[k := v]> d)
      | Some _ => None
      end
  | DelItem k :: rest =>
      match d !! k with
      | Some _ => create_delete rest (delete k d)
      | None => None
      end
  end.

End Table.

Arguments Slot V : clear implicits.
Arguments t L V : clear implicits.
Arguments op V : clear implicits.

(** A clean table with the parameters [Markov] gives it, between two
    assignments: the load factor is the [float] 0.5, at most half of the
    cells (rounded up) are taken, and the capacity, the initial one doubled
    a number of times, is an integer that a [float] holds exactly. *)
Record steady {V : Type} (s : t float V) : Prop := {
  steady_clean : clean s;
  steady_flag : rehashing s = false;
  steady_load : loadfactor s = half;
  steady_growth : growthFactor s = 2;
  steady_half : 2 * __len__ s ≤ capacity s + 1;
  steady_cap : 2 ≤ capacity s;
  steady_exact : exact_in_float (capacity s)
}.

(** The table [s], whose load factor is exact, holds the dictionary [d] and
    grows before it is full. *)
Definition agrees {V : Type} (s : t Q V) (d : gmap string V) : Prop :=
  sound s ∧ rehashing s = false
  ∧ (loadfactor s <= 1)%Q ∧ 2 ≤ growthFactor s
  ∧ (∀ k v, holds (table s) k v ↔ d !! k = Some v)
  ∧ __len__ s = size d.

(** A table of two cells, both holding a deleted entry. *)
Definition two_tombstones : t Q Z :=
  mk 2 0%Z (1 # 2)%Q 2 [Occupied "b" 1%Z false; Occupied "a" 1%Z false] false.

End Hashtable.

(** ** The Markov model *)

Module Markov.

Definition HASH_CELLS : nat := 57.

(** *** Python strings and slices

    A text is a [string]; slices are taken on its list of characters. *)

(** The bound of a slice: a negative index counts from the end, and both
    ends are clipped to the text. *)
Definition clip (n : nat) (i : Z) : nat :=
  if (i <? 0)%Z then Z.to_nat (i + Z.of_nat n) else Nat.min (Z.to_nat i) n.

(** [text[start:stop]] *)
Definition slice (text : list ascii) (start stop : Z) : list ascii :=
  let a := clip (length text) start in
  let b := clip (length text) stop in
  take (b - a) (drop a text).

(** [text[start:]] *)
Definition slice_from (text : list ascii) (start : Z) : list ascii :=
  drop (clip (length text) start) text.

(** [text[:stop]] *)
Definition slice_to (text : list ascii) (stop : Z) : list ascii :=
  take (clip (length text) stop) text.

(** [range(n)] *)
Definition range (n : nat) : list Z := Z.of_nat <$> seq 0 n.

Definition str (l : list ascii) : string := string_of_list_ascii l.

(** The list [k_k1_len_substrings] that [_gen_table] and [log_probability]
    both build, as pairs of character lists.  [text[0]] fails on the empty
    text, after the first comprehension (which is then empty). *)
Definition k_k1_len_substrings (k : Z) (text : list ascii)
  : result (list (list ascii * list ascii)) :=
  let text_len := length text in
  let unwrapped :=
    tail (flat_map
            (fun i : Z =>
               if (i + k - 1 <? Z.of_nat text_len)%Z
               then [(slice text (i - 1) (i + k - 1), slice text (i - 1) (i + k))]
               else [])
            (range text_len)) in
  match text with
  | [] => Raise IndexError
  | text_0 :: _ =>
      let edge := (slice_from text (- k), slice_from text (- k) ++ [text_0]) in
      let wrapped :=
        if (1 <? k)%Z
        then (fun char_index : Z =>
                (slice_from text (- k + 1 + char_index) ++ slice_to text (char_index + 1),
                 slice_from text (- k + 1 + char_index) ++ slice_to text (char_index + 2)))
             <$> range (length (slice_from text (- k + 1)))
        else [] in
      Ok (unwrapped ++ [edge] ++ wrapped)
  end.

(** [[substr for tup in k_k1_len_substrings for substr in tup]] *)
Definition flatten_pairs (l : list (list ascii * list ascii)) : list string :=
  flat_map (fun tup => [str (fst tup); str (snd tup)]) l.

(** The sorting and counting of [np.unique(..., return_counts=True)]: the
    distinct strings in increasing order, each with the number of times it
    occurs. *)
Fixpoint unique_insert (x : string) (l : list (string * Z)) : list (string * Z) :=
  match l with
  | [] => [(x, 1%Z)]
  | (y, c) :: rest =>
      match String_as_OT.compare x y with
      | Eq => (y, (c + 1)%Z) :: rest
      | Lt => (x, 1%Z) :: l
      | Gt => (y, c) :: unique_insert x rest
      end
  end.

Definition unique_counts (l : list string) : list (string * Z) :=
  foldr unique_insert [] l.

(** An element read back from a NumPy array of strings.  The array stores
    its strings at a fixed width, padded with NUL characters, and an element
    is read without its trailing NULs. *)
Fixpoint np_str (s : string) : string :=
  match s with
  | EmptyString => EmptyString
  | String c rest =>
      match np_str rest with
      | EmptyString => if Ascii.eqb c Ascii.zero then EmptyString else String c EmptyString
      | rest' => String c rest'
      end
  end.

(** [np.unique(l, return_counts=True)] for a list of strings: the list is
    first made an array. *)
Definition np_unique (l : list string) : list (string * Z) :=
  unique_counts (np_str <$> l).

(** The number of times [x] occurs in [l]. *)
Definition count_of (x : string) (l : list string) : nat :=
  length (filter (fun y => y = x) l).

(** *** The text read as a circle

    What the frequency table is meant to hold, stated without slices: the
    substring of [len] characters that starts at position [start] of [text]
    and goes on at the beginning of the text when it reaches its end, and the
    number of starting positions at which a string occurs in this way. *)
Fixpoint circular_substring (text : list ascii) (start len : nat) : list ascii :=
  match len with
  | 0 => []
  | S len' =>
      option_list (text !! (start mod length text))
      ++ circular_substring text (S start) len'
  end.

Definition occurrences (text : list ascii) (len : nat) (s : list ascii) : nat :=
  length (filter (fun start => circular_substring text start len = s)
                 (seq 0 (length text))).

(** *** The model *)

(** [self.table] is a [Hashtable] ([state == 0]) or a [dict] ([state == 1]). *)
Inductive Table : Type :=
  | OfHashtable (h : Hashtable.t Hashtable.float Z)
  | OfDict (d : gmap string Z).

Record t : Type := mk {
  table : Table;
  k : Z;
  alphabet_len : nat
}.

(** [self.table.keys()] *)
Definition table_keys (tb : Table) : list string :=
  match tb with
  | OfHashtable h => Hashtable.keys h
  | OfDict d => (map_to_list d).*1
  end.

(** [self.table[substring] = count] *)
Definition table_set (fuel : nat) (tb : Table) (key : string) (count : Z)
  : option (Table * result unit) :=
  match tb with
  | OfHashtable h =>
      match Hashtable.__setitem__ fuel h key count with
      | None => None
      | Some (h', r) => Some (OfHashtable h', r)
      end
  | OfDict d => Some (OfDict (<[key := count]> d), Ok tt)
  end.

(** The [for substring, count in zip(...)] loop of [_gen_table]. *)
Fixpoint fill (fuel : nat) (tb : Table) (l : list (string * Z))
  : option (Table * result unit) :=
  match l with
  | [] => Some (tb, Ok tt)
  | (substring, count) :: rest =>
      match table_set fuel tb substring count with
      | None => None
      | Some (tb', Ok _) => fill fuel tb' rest
      | Some (tb', Raise e) => Some (tb', Raise e)
      end
  end.

Definition _gen_table (fuel : nat) (tb : Table) (k : Z) (text : string)
  : option (Table * result unit) :=
  match k_k1_len_substrings k (list_ascii_of_string text) with
  | Raise e => Some (tb, Raise e)
  | Ok pairs => fill fuel tb (np_unique (flatten_pairs pairs))
  end.

(** [Markov(k, speech, state)] *)
Definition __init__ (fuel : nat) (k : Z) (speech : string) (state : Z)
  : option (result t) :=
  let new_table :=
    if (state =? 0)%Z then Ok (OfHashtable (Hashtable.__init__ HASH_CELLS 0%Z Hashtable.half 2))
    else if (state =? 1)%Z then Ok (OfDict ∅)
    else Raise Exception in
  match new_table with
  | Raise e => Some (Raise e)
  | Ok tb =>
      let alphabet_len := length (remove_dups (list_ascii_of_string speech)) in
      match _gen_table fuel tb k speech with
      | None => None
      | Some (tb', Ok _) => Some (Ok (mk tb' k alphabet_len))
      | Some (_, Raise e) => Some (Raise e)
      end
  end.

(** The closure [_access_values]: a [KeyError] of the [dict] is a [0]; the
    [Hashtable] answers a missing key with its default value. *)
Definition _access_values (fuel : nat) (m : t) (key : string) : option (result Z) :=
  match table m with
  | OfHashtable h => Hashtable.__getitem__ fuel h key
  | OfDict d =>
      match d !! key with
      | Some count => Some (Ok count)
      | None => Some (Ok 0%Z)
      end
  end.

(** *** Floating-point arithmetic

    [log_probability] works on machine floats.  They are kept abstract: the
    properties below hold for every type of floats with these operations,
    of which only the irreflexivity of [>] is used. *)
Class FloatOps (F : Type) : Type := {
  (** [a / b] for two integers *)
  int_div : Z -> Z -> F;
  (** [math.log] *)
  log : F -> F;
  (** [+] and the [0] that [sum] starts from *)
  fadd : F -> F -> F;
  fzero : F;
  (** [x / n] for a float and an integer *)
  fdiv : F -> Z -> F;
  (** [x > y] *)
  fgt : F -> F -> bool;
  fgt_irrefl : forall x, fgt x x = false
}.

Section Scoring.

Context {F : Type} `{FloatOps F}.

(** The sum [log_probability] computes from a table that answers
    [count key] for [key]: one term
    [log((count(k+1 string) + 1) / (count(k string) + alphabet_len))] for
    each pair of substrings, added from left to right. *)
Definition log_likelihood (count : string -> Z) (alphabet_len : nat)
    (pairs : list (list ascii * list ascii)) : F :=
  fold_left fadd
    (map (fun tup =>
            log (int_div (count (str (snd tup)) + 1)
                         (count (str (fst tup)) + Z.of_nat alphabet_len)))
         pairs)
    fzero.

(** One element of the list that [sum] adds up; the numerator is evaluated
    first. *)
Definition term (fuel : nat) (m : t) (str_tuple : list ascii * list ascii)
  : option (result F) :=
  match _access_values fuel m (str (snd str_tuple)) with
  | None => None
  | Some (Raise e) => Some (Raise e)
  | Some (Ok count_k1) =>
      match _access_values fuel m (str (fst str_tuple)) with
      | None => None
      | Some (Raise e) => Some (Raise e)
      | Some (Ok count_k) =>
          Some (Ok (log (int_div (count_k1 + 1) (count_k + Z.of_nat (alphabet_len m)))))
      end
  end.

(** The list comprehension of [log_probability], left to right. *)
Fixpoint terms (fuel : nat) (m : t) (l : list (list ascii * list ascii))
  : option (result (list F)) :=
  match l with
  | [] => Some (Ok [])
  | str_tuple :: rest =>
      match term fuel m str_tuple with
      | None => None
      | Some (Raise e) => Some (Raise e)
      | Some (Ok x) =>
          match terms fuel m rest with
          | None => None
          | Some (Raise e) => Some (Raise e)
          | Some (Ok xs) => Some (Ok (x :: xs))
          end
      end
  end.

Definition log_probability (fuel : nat) (m : t) (text : string)
  : option (result F) :=
  match k_k1_len_substrings (k m) (list_ascii_of_string text) with
  | Raise e => Some (Raise e)
  | Ok pairs =>
      match terms fuel m pairs with
      | None => None
      | Some (Raise e) => Some (Raise e)
      | Some (Ok xs) => Some (Ok (fold_left fadd xs fzero))
      end
  end.

(** [log_probability(unknown_speech) / len(unknown_speech)] *)
Definition norm_log_likelihood (fuel : nat) (m : t) (unknown_speech : string)
  : option (result F) :=
  match log_probability fuel m unknown_speech with
  | None => None
  | Some (Raise e) => Some (Raise e)
  | Some (Ok total) =>
      if String.length unknown_speech =? 0 then Some (Raise ZeroDivisionError)
      else Some (Ok (fdiv total (Z.of_nat (String.length unknown_speech))))
  end.

Definition identify_speaker (fuel : nat) (speaker_a speaker_b unknown_speech : string)
    (order state : Z) : option (result (F * F * string)) :=
  match __init__ fuel order speaker_a state with
  | None => None
  | Some (Raise e) => Some (Raise e)
  | Some (Ok speaker_a_model) =>
      match __init__ fuel order speaker_b state with
      | None => None
      | Some (Raise e) => Some (Raise e)
      | Some (Ok speaker_b_model) =>
          match norm_log_likelihood fuel speaker_a_model unknown_speech with
          | None => None
          | Some (Raise e) => Some (Raise e)
          | Some (Ok a) =>
              match norm_log_likelihood fuel speaker_b_model unknown_speech with
              | None => None
              | Some (Raise e) => Some (Raise e)
              | Some (Ok b) =>
                  if fgt a b then Some (Ok (a, b, "A"%string))
                  else Some (Ok (a, b, "B"%string))
              end
          end
      end
  end.

End Scoring.

(** Exact rational arithmetic in place of floats, with [x - 1] in place of the
    logarithm: an instance on which examples can be evaluated. *)
#[export] Program Instance rational_floats : FloatOps Q := {|
  int_div a b := (inject_Z a / inject_Z b)%Q;
  log x := (x - 1)%Q;
  fadd x y := (x + y)%Q;
  fzero := 0%Q;
  fdiv x n := (x / inject_Z n)%Q;
  fgt x y := negb (Qle_bool x y)
|}.
Next Obligation.
  intros x. apply negb_false_iff, Qle_bool_iff, Qle_refl.
Qed.

End Markov.

(** * Properties of the hash table *)

Module HashtableFacts.
Import Hashtable.

Section Facts.

Context {L V : Type} {LF : LoadFactor L}.
Implicit Types (s : t L V) (tbl : list (Slot V)) (key : string) (value : V).

(** ** Hashing and wrap-around *)

Lemma hash_fold_lt cap (l : list ascii) h :
  h < cap → fold_left (hash_step cap) l h < cap.
Proof.
  revert h; induction l as [|c l IH]; intros h Hh; simpl; [done|].
  apply IH. unfold hash_step. apply Nat.mod_upper_bound. lia.
Qed.

Lemma hash_of_lt cap key : 0 < cap → hash_of cap key < cap.
Proof. intros. by apply hash_fold_lt. Qed.

Lemma _hash_ok s key :
  0 < capacity s → _hash s key = Ok (hash_of (capacity s) key).
Proof.
  unfold _hash. destruct (capacity s); [lia|]. by destruct key.
Qed.

Lemma wrap_lt cap x : 0 < cap → wrap cap x < cap.
Proof. unfold wrap. intros. destruct (Nat.leb_spec cap x); lia. Qed.

Lemma wrap_small cap x : x < cap → wrap cap x = x.
Proof. unfold wrap. intros. destruct (Nat.leb_spec cap x); lia. Qed.

Lemma probe_lt cap h d : 0 < cap → probe cap h d < cap.
Proof. intros. apply Nat.mod_upper_bound. lia. Qed.

Lemma probe_0 cap h : h < cap → probe cap h 0 = h.
Proof. intros. unfold probe. rewrite Nat.add_0_r. by apply Nat.mod_small. Qed.

Lemma wrap_probe_succ cap h d :
  0 < cap → wrap cap (probe cap h d + 1) = probe cap h (S d).
Proof.
  intros Hcap. unfold probe.
  replace (h + S d) with ((h + d) + 1) by lia.
  rewrite <- (Nat.Div0.add_mod_idemp_l (h + d) 1 cap).
  pose proof (Nat.mod_upper_bound (h + d) cap ltac:(lia)) as Hlt.
  set (a := (h + d) mod cap) in *.
  destruct (decide (a + 1 = cap)) as [Heq|Hne].
  - rewrite Heq. rewrite Nat.Div0.mod_same. unfold wrap.
    destruct (Nat.leb_spec cap cap); lia.
  - rewrite Nat.mod_small by lia. apply wrap_small. lia.
Qed.

Lemma wrap_wrap cap x : 0 < cap → wrap cap (wrap cap x) = wrap cap x.
Proof. intros. apply wrap_small. by apply wrap_lt. Qed.

(** Two probes of one circuit that meet are the same probe. *)
Lemma probe_inj cap h d d' :
  d < cap → d' < cap → probe cap h d = probe cap h d' → d = d'.
Proof.
  unfold probe. intros Hd Hd' Heq.
  assert (Hcap : cap ≠ 0) by lia.
  pose proof (Nat.div_mod (h + d) cap Hcap) as E1.
  pose proof (Nat.div_mod (h + d') cap Hcap) as E2.
  rewrite Heq in E1.
  pose proof (Nat.mod_upper_bound (h + d') cap Hcap) as Hr.
  set (q1 := (h + d) / cap) in *. set (q2 := (h + d') / cap) in *.
  set (r := (h + d') mod cap) in *.
  assert (q1 = q2) by nia. subst. lia.
Qed.

(** Every cell is reached from [h] within one circuit. *)
Lemma probe_reaches cap h j :
  h < cap → j < cap → ∃ d, d < cap ∧ probe cap h d = j.
Proof.
  intros Hh Hj. unfold probe.
  destruct (decide (h ≤ j)).
  - exists (j - h). split; [lia|].
    replace (h + (j - h)) with j by lia. by apply Nat.mod_small.
  - exists (cap - h + j). split; [lia|].
    replace (h + (cap - h + j)) with (j + 1 * cap) by lia.
    rewrite Nat.Div0.mod_add. by apply Nat.mod_small.
Qed.

(** ** The insertion scan ends within one circuit *)

Lemma setitem_loop_total fuel cap tbl key value h hv iter :
  length tbl = cap → 0 < cap → iter ≤ cap → cap < fuel + iter →
  wrap cap hv = probe cap h iter →
  ∃ tbl' r, setitem_loop fuel cap tbl key value hv iter = Some (tbl', r)
    ∧ length tbl' = cap
    ∧ ((r = Ok tt ∧ ∃ i, iter ≤ i < cap
          ∧ tbl' !! probe cap h i = Some (Occupied key value true))
       ∨ r = Raise RunTimeError).
Proof.
  revert tbl hv iter.
  induction fuel as [|fuel IH]; intros tbl hv iter Hlen Hcap Hiter Hfuel Hhv;
    [lia|].
  simpl. destruct (Nat.leb_spec cap iter) as [Hge|Hlt].
  { eexists _, _. split; [done|]. split; [done|]. by right. }
  rewrite Hhv.
  assert (Hp : probe cap h iter < cap) by by apply probe_lt.
  destruct (lookup_lt_is_Some_2 tbl (probe cap h iter)) as [x Hx]; [lia|].
  rewrite Hx.
  assert (Hplace : ∃ tbl' r,
    Some (<[probe cap h iter := Occupied key value true]> tbl, Ok tt)
      = Some (tbl', r)
    ∧ length tbl' = cap
    ∧ ((r = Ok tt ∧ ∃ i, iter ≤ i < cap
          ∧ tbl' !! probe cap h i = Some (Occupied key value true))
       ∨ r = Raise RunTimeError)).
  { eexists _, _. split; [done|]. split; [by rewrite length_insert|].
    left. split; [done|]. exists iter. split; [lia|].
    apply list_lookup_insert_eq. lia. }
  destruct x as [|k v [|]]; [done| |done].
  set (tbl1 := if String.eqb k key then _ else tbl).
  assert (Hlen1 : length tbl1 = cap).
  { subst tbl1. destruct (String.eqb k key); [by rewrite length_insert|done]. }
  destruct (IH tbl1 (probe cap h iter + 1) (iter + 1)) as (tbl' & r & E & Hl & Hr);
    [done|done|lia|lia| |].
  { rewrite wrap_probe_succ by done. f_equal. lia. }
  exists tbl', r. split; [done|]. split; [done|].
  destruct Hr as [(-> & i & Hi & Hget) | ->]; [left|by right].
  split; [done|]. exists i. split; [lia|done].
Qed.

Lemma setitem_place_total fuel s key value :
  wf s → capacity s < fuel →
  ∃ tbl' r, setitem_place fuel s key value = Some (set_table s tbl', r)
    ∧ length tbl' = capacity s
    ∧ ((r = Ok tt ∧ ∃ i, i < capacity s
          ∧ tbl' !! probe (capacity s) (hash_of (capacity s) key) i
             = Some (Occupied key value true))
       ∨ r = Raise RunTimeError).
Proof.
  intros [Hlen Hcap] Hfuel. unfold setitem_place.
  rewrite _hash_ok by done.
  pose proof (hash_of_lt (capacity s) key Hcap) as Hh.
  set (h := hash_of (capacity s) key) in *.
  destruct (lookup_lt_is_Some_2 (table s) h) as [x Hx]; [lia|].
  rewrite Hx.
  match goal with |- context [if ?b then _ else _] => destruct b end.
  - eexists _, _. split; [done|]. split; [by rewrite length_insert|].
    left. split; [done|]. exists 0. split; [done|].
    rewrite probe_0 by done. apply list_lookup_insert_eq. lia.
  - destruct (setitem_loop_total fuel (capacity s) (table s) key value h h 0)
      as (tbl' & r & E & Hl & Hr); [done|done|lia|lia| |].
    { rewrite probe_0 by done. by apply wrap_small. }
    rewrite E. exists tbl', r. split; [done|]. split; [done|].
    destruct Hr as [(-> & i & Hi & Hget) | ->]; [left|by right].
    split; [done|]. exists i. split; [lia|done].
Qed.

Lemma reinsert_total fuel s (l : list (Slot V)) :
  wf s → capacity s < fuel →
  ∃ tbl' r, reinsert fuel s l = Some (set_table s tbl', r)
    ∧ length tbl' = capacity s
    ∧ (r = Ok tt ∨ r = Raise RunTimeError).
Proof.
  revert s. induction l as [|x l IH]; intros s Hwf Hfuel; simpl.
  - exists (table s), (Ok tt). destruct s, Hwf. by repeat split; eauto.
  - destruct x as [|k v live]; [by apply IH|].
    destruct (setitem_place_total fuel s k v Hwf Hfuel) as (tbl1 & r & E & Hl & Hr).
    rewrite E. destruct Hr as [[-> _]| ->].
    + destruct (IH (set_table s tbl1)) as (tbl' & r & E' & Hl' & Hr').
      { destruct Hwf. by split. }
      { done. }
      rewrite E'. exists tbl', r. by repeat split.
    + exists tbl1, (Raise RunTimeError). repeat split; eauto.
Qed.

Lemma _rehash_total fuel s :
  0 < capacity s * growthFactor s → capacity s * growthFactor s < fuel →
  ∃ s' r, _rehash fuel s = Some (s', r)
    ∧ wf s' ∧ capacity s' = capacity s * growthFactor s
    ∧ growthFactor s' = growthFactor s
    ∧ (r = Ok tt ∨ r = Raise RunTimeError).
Proof.
  intros Hpos Hfuel. unfold _rehash.
  set (s1 := mk _ _ _ _ _ _).
  destruct (reinsert_total fuel s1 (filter (λ x, is_live x = true) (table s)))
    as (tbl' & r & E & Hl & Hr).
  { split; simpl; [by rewrite length_replicate|done]. }
  { done. }
  rewrite E. destruct Hr as [-> | ->].
  - eexists _, _. split; [done|]. repeat split; simpl; eauto.
  - eexists _, _. split; [done|]. repeat split; simpl; eauto.
Qed.

(** ** Counting live entries *)

Lemma live_count_insert tbl i x y :
  tbl !! i = Some x →
  length (filter (λ x, is_live x = true) (<[i:=y]> tbl))
    + (if is_live x then 1 else 0)
  = length (filter (λ x, is_live x = true) tbl)
    + (if is_live y then 1 else 0).
Proof.
  revert i. induction tbl as [|z tbl IH]; intros [|i] Hi; simplify_eq/=.
  - rewrite !filter_cons.
    destruct (decide (is_live y = true)) as [->|Hy%not_true_is_false],
             (decide (is_live x = true)) as [->|Hx%not_true_is_false];
      simpl; try rewrite Hx; try rewrite Hy; lia.
  - specialize (IH i Hi). rewrite !filter_cons.
    destruct (decide (is_live z = true)); simpl; lia.
Qed.

Lemma live_count_replicate n :
  length (filter (λ x : Slot V, is_live x = true) (replicate n Empty)) = 0.
Proof. induction n as [|n IH]; [done|]. simpl. by rewrite filter_cons_False. Qed.

Lemma setitem_loop_len fuel cap tbl key value hv iter tbl' r :
  setitem_loop fuel cap tbl key value hv iter = Some (tbl', r) →
  length (filter (λ x, is_live x = true) tbl')
    ≤ length (filter (λ x, is_live x = true) tbl) + 1.
Proof.
  revert tbl hv iter.
  induction fuel as [|fuel IH]; intros tbl hv iter E; [done|].
  simpl in E. destruct (cap <=? iter); [simplify_eq; lia|].
  destruct (tbl !! wrap cap hv) as [x|] eqn:Hx; [|simplify_eq; lia].
  destruct x as [|k v [|]].
  - simplify_eq.
    pose proof (live_count_insert tbl _ _ (Occupied key value true) Hx).
    simpl in *. lia.
  - apply IH in E. destruct (String.eqb k key); [|done].
    pose proof (live_count_insert tbl _ _ (Occupied key value true) Hx).
    simpl in *. lia.
  - simplify_eq.
    pose proof (live_count_insert tbl _ _ (Occupied key value true) Hx).
    simpl in *. lia.
Qed.

Lemma setitem_place_frame fuel s key value s' r :
  setitem_place fuel s key value = Some (s', r) →
  ∃ tbl', s' = set_table s tbl'
    ∧ length (filter (λ x, is_live x = true) tbl') ≤ __len__ s + 1.
Proof.
  unfold setitem_place, __len__. intros E.
  destruct (_hash s key) as [h|e].
  2:{ injection E as <- <-. exists (table s). split; [by destruct s|lia]. }
  destruct (table s !! h) as [x|] eqn:Hx.
  2:{ injection E as <- <-. exists (table s). split; [by destruct s|lia]. }
  match type of E with context [if ?b then _ else _] => destruct b end.
  - simplify_eq. eexists. split; [done|].
    pose proof (live_count_insert (table s) _ _ (Occupied key value true) Hx).
    simpl in *. lia.
  - destruct (setitem_loop _ _ _ _ _ _ _) as [[tbl' r']|] eqn:El; [|done].
    simplify_eq. eexists. split; [done|]. by eapply setitem_loop_len.
Qed.

Lemma reinsert_frame fuel s (l : list (Slot V)) s' r :
  reinsert fuel s l = Some (s', r) →
  ∃ tbl', s' = set_table s tbl'
    ∧ length (filter (λ x, is_live x = true) tbl') ≤ __len__ s + length l.
Proof.
  revert s. induction l as [|x l IH]; intros s E; simpl in E.
  - injection E as <- <-. exists (table s).
    split; [by destruct s|unfold __len__; lia].
  - destruct x as [|k v live].
    { apply IH in E as (tbl' & -> & Hle). exists tbl'. split; [done|simpl; lia]. }
    destruct (setitem_place fuel s k v) as [[s1 [[]|e]]|] eqn:E1; [| |done].
    + apply setitem_place_frame in E1 as (tbl1 & -> & Hle1).
      apply IH in E as (tbl' & -> & Hle). exists tbl'. split; [done|].
      unfold __len__ in *. simpl in *. lia.
    + simplify_eq. apply setitem_place_frame in E1 as (tbl1 & -> & Hle1).
      exists tbl1. split; [done|]. simpl. lia.
Qed.

Lemma _rehash_frame fuel s s' :
  _rehash fuel s = Some (s', Ok tt) →
  __len__ s' ≤ __len__ s
  ∧ capacity s' = capacity s * growthFactor s
  ∧ loadfactor s' = loadfactor s
  ∧ rehashing s' = false.
Proof.
  unfold _rehash. intros E.
  destruct (reinsert _ _ _) as [[s2 [[]|e]]|] eqn:E1; simplify_eq.
  apply reinsert_frame in E1 as (tbl' & -> & Hle).
  unfold __len__ in *. simpl in *. rewrite live_count_replicate in Hle.
  repeat split. lia.
Qed.

(** ** Looking a key up in a table without deletions *)

Lemma exists_empty tbl :
  no_tombstone tbl →
  length (filter (λ x, is_live x = true) tbl) < length tbl →
  ∃ e, tbl !! e = Some Empty.
Proof.
  induction tbl as [|x tbl IH]; intros Hnt Hlt; simpl in *; [lia|].
  destruct x as [|k v l]; [by exists 0|].
  assert (l = true) as -> by (by eapply (Hnt 0)).
  rewrite filter_cons_True in Hlt by done. simpl in Hlt.
  destruct IH as [e He]; [|lia|by exists (S e)].
  intros j k' v' l' Hj. by eapply (Hnt (S j)).
Qed.

Lemma first_empty_scan cap tbl h n :
  n ≤ cap →
  (∀ d', d' < n → tbl !! probe cap h d' ≠ Some Empty)
  ∨ (∃ d0, d0 < n ∧ first_empty cap tbl h d0).
Proof.
  induction n as [|n IH]; intros Hn; [left; intros; lia|].
  destruct IH as [Hnone|(d0 & Hd0 & Hfe)]; [lia| |right; exists d0; split; [lia|done]].
  destruct (tbl !! probe cap h n) as [[|k v l]|] eqn:Hx.
  - right. exists n. split; [lia|]. split; [lia|]. split; done.
  - left. intros d' Hd'. destruct (decide (d' = n)) as [->|]; [|apply Hnone; lia].
    by rewrite Hx.
  - left. intros d' Hd'. destruct (decide (d' = n)) as [->|]; [|apply Hnone; lia].
    by rewrite Hx.
Qed.

Lemma first_empty_exists cap tbl h :
  h < cap → length tbl = cap → no_tombstone tbl →
  length (filter (λ x, is_live x = true) tbl) < cap →
  ∃ d0, first_empty cap tbl h d0.
Proof.
  intros Hh Hlen Hnt Hroom.
  destruct (exists_empty tbl Hnt) as [e He]; [lia|].
  assert (He' : e < cap) by (rewrite <- Hlen; by eapply lookup_lt_Some).
  destruct (probe_reaches cap h e Hh He') as (d & Hd & Hp).
  destruct (first_empty_scan cap tbl h (S d)) as [Hnone|(d0 & _ & Hfe)]; [lia| |by exists d0].
  exfalso. apply (Hnone d); [lia|]. by rewrite Hp.
Qed.

(** The scan of [__getitem__] passes over entries that are not a live entry
    of the key. *)
Lemma getitem_loop_skip s key h n :
  wf s →
  ∀ d0 a fuel,
    wrap (capacity s) a = probe (capacity s) h d0 →
    (∀ d', d0 ≤ d' < d0 + n →
       ∃ k v l, table s !! probe (capacity s) h d' = Some (Occupied k v l)
                ∧ String.eqb k key && l = false) →
    ∃ a', wrap (capacity s) a' = probe (capacity s) h (d0 + n)
      ∧ getitem_loop (n + fuel) s key a = getitem_loop fuel s key a'.
Proof.
  intros [Hlen Hcap]. induction n as [|n IH]; intros d0 a fuel Ha Hskip.
  - exists a. split; [by rewrite Nat.add_0_r|done].
  - destruct (Hskip d0) as (k & v & l & Hx & Hne); [lia|].
    simpl. rewrite Ha, Hx, Hne.
    destruct (IH (S d0) (probe (capacity s) h d0 + 1) fuel) as (a' & Ha' & E).
    { by apply wrap_probe_succ. }
    { intros d' Hd'. apply Hskip. lia. }
    exists a'. split; [|done]. rewrite Ha'. f_equal. lia.
Qed.

Lemma getitem_found fuel s key v j :
  clean s → table s !! j = Some (Occupied key v true) → capacity s < fuel →
  __getitem__ fuel s key = Some (Ok v).
Proof.
  intros [[Hlen Hcap] Hnt Huniq Hreach] Hj Hfuel.
  destruct (Hreach _ _ _ _ Hj) as (d & Hd & Hp & Hfull).
  set (h := hash_of (capacity s) key) in *.
  assert (Hh : h < capacity s) by by apply hash_of_lt.
  assert (Hloop : getitem_loop fuel s key h = Some (Ok v)).
  { destruct (getitem_loop_skip s key h d (conj Hlen Hcap) 0 h (fuel - d))
      as (a' & Ha' & E).
    { rewrite probe_0 by done. by apply wrap_small. }
    { intros d' Hd'.
      assert (Hlt : probe (capacity s) h d' < length (table s))
        by (rewrite Hlen; by apply probe_lt).
      destruct (lookup_lt_is_Some_2 _ _ Hlt) as [x Hx].
      destruct x as [|k' v' l']; [by destruct (Hfull d'); [lia|]|].
      exists k', v', l'. split; [done|].
      destruct (String.eqb_spec k' key) as [->|]; [|done].
      assert (probe (capacity s) h d' = j) as Heq by (by eapply Huniq).
      rewrite <- Hp in Heq. apply probe_inj in Heq; lia. }
    replace (d + (fuel - d)) with fuel in E by lia. rewrite E.
    destruct (fuel - d) as [|f] eqn:Ef; [lia|].
    simpl. rewrite Ha'. simpl. rewrite Hp, Hj.
    by rewrite String.eqb_refl. }
  unfold __getitem__. rewrite _hash_ok by done. fold h.
  destruct (table s !! h) as [[|k v0 [|]]|] eqn:Hx; try done.
  - destruct (String.eqb_spec k key) as [->|]; [|done].
    assert (h = j) as -> by (by eapply Huniq). congruence.
  - apply lookup_ge_None in Hx. lia.
Qed.

Lemma getitem_absent fuel s key :
  clean s → __len__ s < capacity s → absent (table s) key → capacity s < fuel →
  __getitem__ fuel s key = Some (Ok (defVal s)).
Proof.
  intros [[Hlen Hcap] Hnt Huniq Hreach] Hroom Habs Hfuel.
  set (h := hash_of (capacity s) key) in *.
  assert (Hh : h < capacity s) by by apply hash_of_lt.
  destruct (first_empty_exists (capacity s) (table s) h) as (d & Hd & He & Hfull);
    [done..|].
  assert (Hloop : getitem_loop fuel s key h = Some (Ok (defVal s))).
  { destruct (getitem_loop_skip s key h d (conj Hlen Hcap) 0 h (fuel - d))
      as (a' & Ha' & E).
    { rewrite probe_0 by done. by apply wrap_small. }
    { intros d' Hd'.
      assert (Hlt : probe (capacity s) h d' < length (table s))
        by (rewrite Hlen; by apply probe_lt).
      destruct (lookup_lt_is_Some_2 _ _ Hlt) as [x Hx].
      destruct x as [|k' v' l']; [by destruct (Hfull d'); [lia|]|].
      exists k', v', l'. split; [done|].
      destruct (String.eqb_spec k' key) as [->|]; [|done].
      by destruct (Habs _ _ _ Hx). }
    replace (d + (fuel - d)) with fuel in E by lia. rewrite E.
    destruct (fuel - d) as [|f] eqn:Ef; [lia|].
    simpl. rewrite Ha'. simpl. by rewrite He. }
  unfold __getitem__. rewrite _hash_ok by done. fold h.
  destruct (table s !! h) as [[|k v0 [|]]|] eqn:Hx; try done.
  - destruct (String.eqb_spec k key) as [->|]; [|done].
    by destruct (Habs _ _ _ Hx).
  - apply lookup_ge_None in Hx. lia.
Qed.


(** ** Assigning a key that the table does not hold *)

Lemma setitem_loop_skip cap tbl key value h n :
  0 < cap →
  ∀ d0 a iter fuel,
    wrap cap a = probe cap h d0 → iter + n ≤ cap →
    (∀ d', d0 ≤ d' < d0 + n →
       ∃ k v, tbl !! probe cap h d' = Some (Occupied k v true)
              ∧ String.eqb k key = false) →
    ∃ a', wrap cap a' = probe cap h (d0 + n)
      ∧ setitem_loop (n + fuel) cap tbl key value a iter
        = setitem_loop fuel cap tbl key value a' (iter + n).
Proof.
  intros Hcap. induction n as [|n IH]; intros d0 a iter fuel Ha Hiter Hskip.
  - exists a. split; [by rewrite Nat.add_0_r|]. by rewrite Nat.add_0_r.
  - destruct (Hskip d0) as (k & v & Hx & Hne); [lia|].
    simpl. destruct (Nat.leb_spec cap iter); [lia|].
    rewrite Ha, Hx, Hne.
    destruct (IH (S d0) (probe cap h d0 + 1) (iter + 1) fuel) as (a' & Ha' & E).
    { by apply wrap_probe_succ. }
    { lia. }
    { intros d' Hd'. apply Hskip. lia. }
    exists a'. split; [rewrite Ha'; f_equal; lia|].
    rewrite E. f_equal. lia.
Qed.

Lemma setitem_place_fresh fuel s key value d :
  wf s → no_tombstone (table s) → absent (table s) key →
  first_empty (capacity s) (table s) (hash_of (capacity s) key) d →
  capacity s < fuel →
  setitem_place fuel s key value
  = Some (set_table s
            (<[probe (capacity s) (hash_of (capacity s) key) d
                 := Occupied key value true]> (table s)), Ok tt).
Proof.
  intros [Hlen Hcap] Hnt Habs (Hd & He & Hfull) Hfuel.
  set (h := hash_of (capacity s) key) in *.
  assert (Hh : h < capacity s) by by apply hash_of_lt.
  unfold setitem_place. rewrite _hash_ok by done. fold h.
  destruct (table s !! h) as [x|] eqn:Hx;
    [|apply lookup_ge_None in Hx; lia].
  destruct x as [|k v l].
  - assert (d = 0) as ->.
    { destruct d as [|d]; [done|]. destruct (Hfull 0); [lia|].
      by rewrite probe_0. }
    by rewrite probe_0.
  - assert (l = true) as -> by by eapply Hnt.
    assert (String.eqb k key = false) as ->.
    { destruct (String.eqb_spec k key) as [->|]; [|done].
      by destruct (Habs _ _ _ Hx). }
    simpl.
    destruct (setitem_loop_skip (capacity s) (table s) key value h d Hcap
                0 h 0 (fuel - d)) as (a' & Ha' & E).
    { rewrite probe_0 by done. by apply wrap_small. }
    { lia. }
    { intros d' Hd'.
      assert (Hlt : probe (capacity s) h d' < length (table s))
        by (rewrite Hlen; by apply probe_lt).
      destruct (lookup_lt_is_Some_2 _ _ Hlt) as [y Hy].
      destruct y as [|k' v' l']; [by destruct (Hfull d'); [lia|]|].
      assert (l' = true) as -> by by eapply Hnt.
      exists k', v'. split; [done|].
      destruct (String.eqb_spec k' key) as [->|]; [|done].
      by destruct (Habs _ _ _ Hy). }
    replace (d + (fuel - d)) with fuel in E by lia. rewrite E.
    destruct (fuel - d) as [|f] eqn:Ef; [lia|].
    simpl. destruct (Nat.leb_spec (capacity s) d); [lia|].
    rewrite Ha'. simpl. by rewrite He.
Qed.

Section InsertFresh.

(** The table after the entry [(key, value)] took the first empty cell on
    the way from the hash value of [key]. *)
Context (cap : nat) (tbl : list (Slot V)) (key : string) (value : V) (d : nat).
Context (Hlen : length tbl = cap) (Hcap : 0 < cap).
Context (Habs : absent tbl key).
Context (Hfe : first_empty cap tbl (hash_of cap key) d).

Local Abbreviation p := (probe cap (hash_of cap key) d).
Local Abbreviation tbl' := (<[p := Occupied key value true]> tbl).

Lemma fresh_lookup j x :
  tbl' !! j = Some x ↔
  (j = p ∧ x = Occupied key value true) ∨ (j ≠ p ∧ tbl !! j = Some x).
Proof.
  rewrite list_lookup_insert_Some. split.
  - intros [(<- & <- & _)|[? ?]]; [left|right]; done.
  - intros [[-> ->]|[? ?]]; [left|right; done].
    repeat split; try done. rewrite Hlen. by apply probe_lt.
Qed.

Lemma fresh_not_empty j : tbl !! j ≠ Some Empty → tbl' !! j ≠ Some Empty.
Proof.
  intros Hj Hj'. apply fresh_lookup in Hj' as [[_ ?]|[_ ?]]; done.
Qed.

Lemma fresh_no_tombstone : no_tombstone tbl → no_tombstone tbl'.
Proof.
  intros Hnt j k v l Hj. apply fresh_lookup in Hj as [[_ ?]|[_ ?]].
  - congruence.
  - by eapply Hnt.
Qed.

Lemma fresh_unique_keys : unique_keys tbl → unique_keys tbl'.
Proof.
  intros Hu i j k v v' l l' Hi Hj.
  apply fresh_lookup in Hi as [[-> Hi]|[? Hi]];
    apply fresh_lookup in Hj as [[-> Hj]|[? Hj]]; try done.
  - injection Hi as -> -> ->. by destruct (Habs _ _ _ Hj).
  - injection Hj as -> -> ->. by destruct (Habs _ _ _ Hi).
  - by eapply Hu.
Qed.

Lemma fresh_reachable : reachable cap tbl → reachable cap tbl'.
Proof.
  pose proof Hfe as (Hd & He & Hfull).
  intros Hr j k v l Hj. apply fresh_lookup in Hj as [[-> Hj]|[? Hj]].
  - injection Hj as -> -> ->. exists d. split; [done|]. split; [done|].
    intros d' Hd'. apply fresh_not_empty. by apply Hfull.
  - destruct (Hr _ _ _ _ Hj) as (dj & Hdj & Hpj & Hfj).
    exists dj. split; [done|]. split; [done|].
    intros d' Hd'. apply fresh_not_empty. by apply Hfj.
Qed.

Lemma fresh_holds k v :
  holds tbl' k v ↔ (k = key ∧ v = value) ∨ holds tbl k v.
Proof.
  pose proof Hfe as (Hd & He & Hfull). unfold holds. split.
  - intros [j Hj]. apply fresh_lookup in Hj as [[_ ?]|[_ ?]].
    + left. injection H as -> ->. done.
    + right. by exists j.
  - intros [[-> ->]|[j Hj]].
    + exists p. apply fresh_lookup. by left.
    + exists j. apply fresh_lookup. right. split; [|done].
      intros ->. congruence.
Qed.

Lemma fresh_absent k : k ≠ key → absent tbl k → absent tbl' k.
Proof.
  intros Hne Ha j v l Hj. apply fresh_lookup in Hj as [[_ ?]|[_ ?]].
  - injection H as -> -> ->. done.
  - by destruct (Ha _ _ _ H).
Qed.

Lemma fresh_len :
  length (filter (λ x, is_live x = true) tbl')
  = length (filter (λ x, is_live x = true) tbl) + 1.
Proof.
  pose proof Hfe as (Hd & He & Hfull).
  pose proof (live_count_insert tbl p Empty (Occupied key value true) He).
  simpl in *. lia.
Qed.

End InsertFresh.


Lemma setitem_place_clean fuel s key value :
  clean s → __len__ s < capacity s → absent (table s) key →
  capacity s < fuel →
  ∃ tbl', setitem_place fuel s key value = Some (set_table s tbl', Ok tt)
    ∧ clean (set_table s tbl')
    ∧ __len__ (set_table s tbl') = __len__ s + 1
    ∧ (∀ k v, holds tbl' k v ↔ (k = key ∧ v = value) ∨ holds (table s) k v)
    ∧ (∀ k, k ≠ key → absent (table s) k → absent tbl' k).
Proof.
  intros [[Hlen Hcap] Hnt Huniq Hreach] Hroom Habs Hfuel.
  destruct (first_empty_exists (capacity s) (table s)
              (hash_of (capacity s) key)) as [d Hfe];
    [by apply hash_of_lt|done..|].
  eexists. split; [by apply (setitem_place_fresh fuel s key value d)|].
  split; [split; simpl|split; [|split]].
  - split; simpl; [by rewrite length_insert|done].
  - by apply fresh_no_tombstone.
  - by apply fresh_unique_keys.
  - by apply fresh_reachable.
  - unfold __len__. simpl. by eapply fresh_len.
  - intros k v. by eapply fresh_holds.
  - intros k. by eapply fresh_absent.
Qed.

Lemma reinsert_clean fuel (l : list (Slot V)) :
  ∀ s,
    clean s → Forall (λ x, is_live x = true) l → NoDup (omap slot_key l) →
    (∀ k, k ∈ omap slot_key l → absent (table s) k) →
    __len__ s + length l ≤ capacity s → capacity s < fuel →
    ∃ tbl', reinsert fuel s l = Some (set_table s tbl', Ok tt)
      ∧ clean (set_table s tbl')
      ∧ __len__ (set_table s tbl') = __len__ s + length l
      ∧ (∀ k v, holds tbl' k v
                ↔ holds (table s) k v ∨ Occupied k v true ∈ l).
Proof.
  induction l as [|x l IH]; intros s Hc Hlive Hnd Habs Hroom Hfuel; simpl.
  - exists (table s). split; [by destruct s|]. split; [by destruct s|].
    split; [unfold __len__; simpl; lia|].
    intros k v. split; [by left|]. intros [?|Hin]; [done|].
    by apply elem_of_nil in Hin.
  - apply Forall_cons in Hlive as [Hx Hlive].
    destruct x as [|k0 v0 [|]]; simpl in Hx; try done.
    simpl in Hnd, Habs, Hroom. apply NoDup_cons in Hnd as [Hk0 Hnd].
    destruct (setitem_place_clean fuel s k0 v0)
      as (tbl1 & E1 & Hc1 & Hlen1 & Hholds1 & Habs1);
      [done|lia|apply Habs; by left|done|].
    rewrite E1.
    destruct (IH (set_table s tbl1)) as (tbl' & E & Hc' & Hlen' & Hholds');
      [done|done|done| |simpl; lia|done|].
    { intros k Hk. simpl. apply Habs1; [by intros ->|].
      apply Habs. by right. }
    exists tbl'. split; [done|]. split; [done|].
    split; [unfold __len__ in *; simpl in *; lia|].
    intros k v. rewrite Hholds'. simpl. rewrite Hholds1.
    rewrite elem_of_cons. split.
    + intros [[[-> ->]|?]|?]; eauto.
    + intros [?|[Heq|?]]; eauto. injection Heq as -> ->. eauto.
Qed.

Lemma unique_keys_tail x tbl : unique_keys (x :: tbl) → unique_keys tbl.
Proof.
  intros Hu i j k v v' l l' Hi Hj.
  assert (S i = S j) by (by eapply (Hu (S i) (S j))). lia.
Qed.

Lemma unique_keys_NoDup tbl :
  unique_keys tbl →
  NoDup (omap slot_key (filter (λ x, is_live x = true) tbl)).
Proof.
  induction tbl as [|x tbl IH]; intros Hu; [constructor|].
  pose proof (IH (unique_keys_tail _ _ Hu)) as IH'.
  rewrite filter_cons. destruct (decide (is_live x = true)) as [Hx|]; [|done].
  destruct x as [|k v [|]]; try done. simpl. constructor; [|done].
  intros Hin. apply list_elem_of_omap in Hin as (y & Hy & Hk).
  apply list_elem_of_filter in Hy as [_ Hy].
  apply list_elem_of_lookup in Hy as [j Hj].
  destruct y as [|k' v' l']; simplify_eq/=.
  assert (0 = S j) by (by eapply (Hu 0 (S j))). lia.
Qed.

Lemma holds_filter tbl k v :
  holds tbl k v ↔ Occupied k v true ∈ filter (λ x, is_live x = true) tbl.
Proof.
  unfold holds. rewrite list_elem_of_filter, list_elem_of_lookup. split.
  - intros [j Hj]. split; [done|by exists j].
  - intros [_ [j Hj]]. by exists j.
Qed.

Lemma absent_holds tbl k :
  no_tombstone tbl → (absent tbl k ↔ ∀ v, ¬ holds tbl k v).
Proof.
  intros Hnt. split.
  - intros Ha v [j Hj]. by destruct (Ha _ _ _ Hj).
  - intros Hh j v l Hj. assert (l = true) as -> by by eapply Hnt.
    apply (Hh v). by exists j.
Qed.

Lemma clean_empty cap (dv : V) (lf : L) gf b :
  0 < cap → clean (mk cap dv lf gf (replicate cap Empty) b).
Proof.
  intros Hcap. split; simpl.
  - split; simpl; [by rewrite length_replicate|done].
  - intros j k v l Hj. apply lookup_replicate in Hj as [? _]. done.
  - intros i j k v v' l l' Hi. apply lookup_replicate in Hi as [? _]. done.
  - intros j k v l Hj. apply lookup_replicate in Hj as [? _]. done.
Qed.

Lemma _rehash_clean fuel s :
  clean s → 0 < growthFactor s → capacity s * growthFactor s < fuel →
  ∃ s', _rehash fuel s = Some (s', Ok tt)
    ∧ clean s'
    ∧ capacity s' = capacity s * growthFactor s
    ∧ __len__ s' = __len__ s
    ∧ rehashing s' = false
    ∧ loadfactor s' = loadfactor s
    ∧ growthFactor s' = growthFactor s
    ∧ defVal s' = defVal s
    ∧ (∀ k v, holds (table s') k v ↔ holds (table s) k v).
Proof.
  intros Hc Hgf Hfuel. pose proof Hc as [[Hlen Hcap] Hnt Huniq Hreach].
  unfold _rehash.
  set (s1 := mk _ _ _ _ _ _).
  set (l := filter (λ x, is_live x = true) (table s)).
  assert (Hl : length l ≤ capacity s).
  { rewrite <- Hlen. apply length_filter. }
  destruct (reinsert_clean fuel l s1) as (tbl' & E & Hc' & Hlen' & Hholds').
  { apply clean_empty. nia. }
  { apply Forall_forall. intros x Hx.
    by apply list_elem_of_filter in Hx as [? _]. }
  { by apply unique_keys_NoDup. }
  { intros k _ j v b Hj. apply lookup_replicate in Hj as [? _]. done. }
  { unfold __len__. simpl. rewrite live_count_replicate. nia. }
  { done. }
  rewrite E. eexists. split; [done|].
  unfold __len__ in *. simpl in *. rewrite live_count_replicate in Hlen'.
  split; [by destruct Hc' as [[? ?] ? ? ?]|].
  repeat split; try done.
  - intros Hh. apply Hholds' in Hh as [[j Hj]|Hin].
    + apply lookup_replicate in Hj as [? _]. done.
    + by apply holds_filter.
  - intros Hh. apply Hholds'. right. by apply holds_filter.
Qed.

(** ** The scan gives up only on a full table *)







(** ** A new table *)

Lemma init_capacity cap (dv : V) (lf : L) gf :
  capacity (__init__ cap dv lf gf) = cap.
Proof. done. Qed.

Lemma init_len cap (dv : V) (lf : L) gf : __len__ (__init__ cap dv lf gf) = 0.
Proof. apply live_count_replicate. Qed.

Lemma init_absent cap (dv : V) (lf : L) gf key :
  absent (table (__init__ cap dv lf gf)) key.
Proof. intros j v l Hj. apply lookup_replicate in Hj as [? _]. done. Qed.

Lemma init_holds cap (dv : V) (lf : L) gf k v :
  ¬ holds (table (__init__ cap dv lf gf)) k v.
Proof. intros [j Hj]. apply lookup_replicate in Hj as [? _]. done. Qed.


End Facts.

(** ** Rounding to a [float] *)

Section Rounding.

Local Open Scope Q_scope.

Lemma two_neq_0 : ¬ 2 == 0.
Proof. discriminate. Qed.

Lemma one_lt_two : 1 < 2.
Proof. reflexivity. Qed.

Lemma pow2_pos a : 0 < 2 ^ a.
Proof. by apply Qpower_0_lt. Qed.

Lemma pow2_Z (n : Z) : (0 <= n)%Z → inject_Z (2 ^ n) == 2 ^ n.
Proof. intros. by rewrite Zpower_Qpower. Qed.

Lemma ilog2_spec x : 0 < x → 2 ^ ilog2 x <= x ∧ x < 2 ^ (ilog2 x + 1).
Proof.
  intros Hx. destruct x as [n d]. unfold ilog2. simpl Qnum. simpl Qden.
  assert (0 < n)%Z as Hn by (unfold Qlt in Hx; simpl in Hx; lia).
  set (ln := Z.log2 n). set (ld := Z.log2 (Z.pos d)). set (a := (ln - ld)%Z).
  destruct (Z.log2_spec n Hn) as [Hn1 Hn2]. fold ln in Hn1, Hn2.
  destruct (Z.log2_spec (Z.pos d)) as [Hd1 Hd2]; [lia|]. fold ld in Hd1, Hd2.
  assert (0 <= ln)%Z as Hln by apply Z.log2_nonneg.
  assert (0 <= ld)%Z as Hld by apply Z.log2_nonneg.
  assert (Hdpos : 0 < inject_Z (Z.pos d)) by (unfold Qlt; simpl; lia).
  assert (Hlow : 2 ^ (a - 1) <= n # d).
  { rewrite (Qmake_Qdiv n d). apply Qle_shift_div_l; [done|].
    apply Qle_trans with (2 ^ (a - 1) * 2 ^ (ld + 1)).
    - apply Qmult_le_l; [apply pow2_pos|].
      rewrite <-pow2_Z by lia. rewrite <-Zle_Qle. lia.
    - rewrite <-Qpower_plus by apply two_neq_0.
      replace (a - 1 + (ld + 1))%Z with ln by lia.
      rewrite <-pow2_Z by lia. by rewrite <-Zle_Qle. }
  assert (Hhigh : n # d < 2 ^ (a + 1)).
  { rewrite (Qmake_Qdiv n d). apply Qlt_shift_div_r; [done|].
    apply Qlt_le_trans with (2 ^ (a + 1) * 2 ^ ld).
    - rewrite <-Qpower_plus by apply two_neq_0.
      replace (a + 1 + ld)%Z with (Z.succ ln) by lia.
      rewrite <-pow2_Z by lia. by rewrite <-Zlt_Qlt.
    - apply Qmult_le_l; [apply pow2_pos|].
      rewrite <-pow2_Z by lia. by rewrite <-Zle_Qle. }
  destruct (Qle_bool (2 ^ a) (n # d)) eqn:Hb.
  - apply Qle_bool_iff in Hb. done.
  - split; [done|]. replace (a - 1 + 1)%Z with a by lia.
    apply Qnot_le_lt. intros Hle. apply Qle_bool_iff in Hle. congruence.
Qed.

Lemma log2_bracket_unique x a b :
  2 ^ a <= x → x < 2 ^ (a + 1) → 2 ^ b <= x → x < 2 ^ (b + 1) → a = b.
Proof.
  intros Ha1 Ha2 Hb1 Hb2.
  assert (a < b + 1)%Z.
  { apply (Qpower_lt_compat_l_inv 2); [|apply one_lt_two].
    by apply Qle_lt_trans with x. }
  assert (b < a + 1)%Z.
  { apply (Qpower_lt_compat_l_inv 2); [|apply one_lt_two].
    by apply Qle_lt_trans with x. }
  lia.
Qed.

Lemma round_half_even_Z t (z : Z) : t == inject_Z z → round_half_even t = z.
Proof.
  intros Ht. unfold round_half_even. cbv zeta.
  assert (Qfloor t = z) as -> by (rewrite Ht; apply Qfloor_Z).
  assert (Qcompare (t - inject_Z z) (1 # 2) = Lt) as ->; [|done].
  apply Qlt_alt. rewrite Ht.
  assert (inject_Z z - inject_Z z == 0) as E by ring.
  rewrite E. reflexivity.
Qed.

(** A number with at most 53 significant bits is not rounded. *)
Lemma round53_exact (m j : Z) x :
  (0 < m < 2 ^ 53)%Z → x == inject_Z m * 2 ^ j → round53 x == x.
Proof.
  intros [Hm1 Hm2] Hx.
  assert (0 < inject_Z m) as Hmpos by (rewrite <-(Zlt_Qlt 0); done).
  assert (0 < x) as Hxpos.
  { rewrite Hx. apply Qmult_lt_0_compat; [done|apply pow2_pos]. }
  unfold round53. destruct (Qnum x) as [|p|p] eqn:Hnum;
    [unfold Qlt in Hxpos; simpl in Hxpos; lia| |unfold Qlt in Hxpos; simpl in Hxpos; lia].
  unfold round53_pos.
  set (lm := Z.log2 m).
  destruct (Z.log2_spec m Hm1) as [Hl1 Hl2]. fold lm in Hl1, Hl2.
  assert (0 <= lm)%Z as Hlm by apply Z.log2_nonneg.
  assert (lm < 53)%Z as Hlm53.
  { apply Z.log2_lt_pow2; done. }
  assert (ilog2 x = (lm + j)%Z) as ->.
  { destruct (ilog2_spec x Hxpos) as [H1 H2].
    apply (log2_bracket_unique x); [done|done| |].
    - rewrite Hx, Qpower_plus by apply two_neq_0.
      apply Qmult_le_r; [apply pow2_pos|].
      rewrite <-pow2_Z by lia. by rewrite <-Zle_Qle.
    - rewrite Hx. replace (lm + j + 1)%Z with (Z.succ lm + j)%Z by lia.
      rewrite Qpower_plus by apply two_neq_0.
      apply Qmult_lt_r; [apply pow2_pos|].
      rewrite <-pow2_Z by lia. by rewrite <-Zlt_Qlt. }
  set (e := (lm + j - 52)%Z).
  assert (x / 2 ^ e == inject_Z (m * 2 ^ (52 - lm))) as Ht.
  { rewrite inject_Z_mult, pow2_Z by lia. rewrite Hx.
    unfold Qdiv. rewrite <-Qpower_opp, <-Qmult_assoc.
    rewrite <-Qpower_plus by apply two_neq_0.
    by replace (j + - e)%Z with (52 - lm)%Z by lia. }
  rewrite (round_half_even_Z _ _ Ht).
  rewrite inject_Z_mult, pow2_Z by lia. rewrite Hx.
  rewrite <-Qmult_assoc, <-Qpower_plus by apply two_neq_0.
  by replace (52 - lm + e)%Z with j by lia.
Qed.

End Rounding.

(** ** The table of a Markov model *)

Section MarkovTable.

Context {V : Type}.
Implicit Types (s : t float V) (key : string) (value : V).

Lemma exact_in_float_double n : exact_in_float n → exact_in_float (n * 2).
Proof.
  intros (m & k & Hn & Hm). exists m, (S k). split; [|done].
  rewrite Nat2Z.inj_mul, Hn, (Nat2Z.inj_succ k), Z.pow_succ_r by lia. lia.
Qed.

(** With the load factor 0.5 and a capacity that a [float] holds exactly,
    neither the conversion of the capacity nor the product is rounded. *)
Lemma times_half n :
  exact_in_float n →
  (float_value (times half n) == (1 # 2) * inject_Z (Z.of_nat n))%Q.
Proof.
  intros (m & k & Hn & Hm).
  assert (Hcap : (inject_Z (Z.of_nat n) == inject_Z m * 2 ^ Z.of_nat k)%Q).
  { rewrite Hn, inject_Z_mult, pow2_Z by lia. reflexivity. }
  assert (Hin : (round53 (inject_Z (Z.of_nat n)) == inject_Z (Z.of_nat n))%Q)
    by (by apply (round53_exact m (Z.of_nat k))).
  assert (Hhalf : (float_value half == 1 # 2)%Q).
  { apply (round53_exact 1 (-1)); [lia|reflexivity]. }
  unfold float_value at 1. cbn [times float_arithmetic float_literal].
  rewrite (round53_exact m (Z.of_nat k - 1)); [by rewrite Hhalf, Hin|done|].
  rewrite Hhalf, Hin, Hcap.
  replace (Z.of_nat k - 1)%Z with (Z.of_nat k + -1)%Z by lia.
  rewrite Qpower_plus by apply two_neq_0.
  change (2 ^ (-1))%Q with (1 # 2)%Q. ring.
Qed.

Lemma overloaded_half s :
  loadfactor s = half → exact_in_float (capacity s) →
  overloaded s = (capacity s <=? 2 * __len__ s).
Proof.
  intros Hlf Hex. unfold overloaded. rewrite Hlf.
  pose proof (times_half (capacity s) Hex) as Hv.
  cbn [at_least float_arithmetic].
  destruct (Nat.leb_spec (capacity s) (2 * __len__ s)) as [Hle|Hgt].
  - apply Qle_bool_iff. rewrite Hv. unfold Qle. simpl. lia.
  - apply not_true_is_false. intros Hq. apply Qle_bool_iff in Hq.
    rewrite Hv in Hq. unfold Qle in Hq. simpl in Hq. lia.
Qed.

(** On such a capacity the load factor 0.5 and the exact load factor 1/2
    give the same load test. *)
Lemma overloaded_half_exact cap (dv : V) gf tbl b :
  exact_in_float cap →
  overloaded (mk cap dv half gf tbl b)
  = overloaded (mk cap dv (1 # 2)%Q gf tbl b).
Proof.
  intros Hex. rewrite overloaded_half by done.
  unfold overloaded. cbn [at_least times exact_arithmetic loadfactor capacity].
  symmetry.
  destruct (Nat.leb_spec cap (2 * __len__ (mk cap dv half gf tbl b))) as [Hle|Hgt].
  - apply Qle_bool_iff. unfold Qle. simpl. unfold __len__ in *. simpl in *. lia.
  - apply not_true_is_false. intros Hq. apply Qle_bool_iff in Hq.
    unfold Qle in Hq. simpl in Hq. unfold __len__ in *. simpl in *. lia.
Qed.

(** An assignment of a new key to a table of a Markov model. *)
Lemma setitem_steady fuel s key value :
  steady s → absent (table s) key → 2 * capacity s < fuel →
  ∃ s', __setitem__ fuel s key value = Some (s', Ok tt)
    ∧ steady s'
    ∧ defVal s' = defVal s
    ∧ __len__ s' = __len__ s + 1
    ∧ capacity s' ≤ Nat.max (capacity s) (4 * __len__ s)
    ∧ (∀ k v, holds (table s') k v
              ↔ (k = key ∧ v = value) ∨ holds (table s) k v)
    ∧ (∀ k, k ≠ key → absent (table s) k → absent (table s') k).
Proof.
  intros [Hc Hflag Hlf Hgf Hhalf Hcap2 Hex] Habs Hfuel.
  unfold __setitem__. rewrite Hflag, (overloaded_half s Hlf Hex).
  cbn [negb andb].
  destruct (Nat.leb_spec (capacity s) (2 * __len__ s)) as [Hle|Hgt].
  - destruct (_rehash_clean fuel s)
      as (s1 & E1 & Hc1 & Hcap1 & Hlen1 & Hflag1 & Hlf1 & Hgf1 & Hdv1 & Hh1);
      [done|lia|lia|].
    rewrite E1. rewrite Hgf in Hcap1.
    assert (Habs1 : absent (table s1) key).
    { apply absent_holds; [by destruct Hc1|]. intros v Hv.
      apply Hh1 in Hv. revert v Hv. apply absent_holds; [by destruct Hc|done]. }
    destruct (setitem_place_clean fuel s1 key value)
      as (tbl' & E & Hc' & Hlen' & Hholds' & Habs'); [done|lia|done|lia|].
    rewrite E. eexists. split; [reflexivity|].
    split.
    { split; [done|simpl; congruence..| | |].
      - rewrite Hlen'. simpl. lia.
      - simpl. lia.
      - simpl. rewrite Hcap1. by apply exact_in_float_double. }
    split; [simpl; congruence|]. split; [lia|]. split; [simpl; lia|].
    split.
    + intros k v. simpl. rewrite Hholds', Hh1. done.
    + intros k Hne Hk. simpl. apply Habs'; [done|].
      apply absent_holds; [by destruct Hc1|]. intros v Hv.
      apply Hh1 in Hv. revert v Hv. apply absent_holds; [by destruct Hc|done].
  - destruct (setitem_place_clean fuel s key value)
      as (tbl' & E & Hc' & Hlen' & Hholds' & Habs'); [done|lia|done|lia|].
    rewrite E. eexists. split; [reflexivity|].
    split.
    { split; [done|simpl; congruence..| | |].
      - rewrite Hlen'. simpl. lia.
      - simpl. lia.
      - done. }
    split; [simpl; congruence|]. split; [lia|]. split; [simpl; lia|].
    split; [done|]. intros k Hne Hk. simpl. by apply Habs'.
Qed.

End MarkovTable.

End HashtableFacts.


(** * Properties of the Markov model *)

Module MarkovFacts.
Import Markov.

(** ** [np.unique] *)

Lemma unique_insert_keys x acc k :
  k ∈ (unique_insert x acc).*1 ↔ k = x ∨ k ∈ acc.*1.
Proof.
  induction acc as [|[y c] acc IH]; simpl.
  - rewrite list_elem_of_singleton, elem_of_nil. tauto.
  - destruct (String_as_OT.compare_spec x y) as [Heq|Hlt|Hgt]; simpl;
      [change (x = y) in Heq; subst x| |].
    + rewrite !elem_of_cons. tauto.
    + rewrite !elem_of_cons. tauto.
    + rewrite !elem_of_cons, IH. tauto.
Qed.

Lemma lt_irrefl x : ¬ String_as_OT.lt x x.
Proof. apply (irreflexivity String_as_OT.lt). Qed.

Lemma sorted_head_notin x (l : list string) :
  Forall (String_as_OT.lt x) l → x ∉ l.
Proof.
  intros Hall Hin. rewrite Forall_forall in Hall.
  by apply (lt_irrefl x), Hall.
Qed.

Lemma sorted_NoDup (l : list string) :
  StronglySorted String_as_OT.lt l → NoDup l.
Proof.
  induction 1 as [|x l Hs IH Hall]; constructor; [|done].
  by apply sorted_head_notin.
Qed.

Lemma unique_insert_sorted x acc :
  StronglySorted String_as_OT.lt acc.*1 →
  StronglySorted String_as_OT.lt (unique_insert x acc).*1.
Proof.
  induction acc as [|[y c] acc IH]; simpl; intros Hs.
  - repeat constructor.
  - apply StronglySorted_inv in Hs as [Hs Hall].
    destruct (String_as_OT.compare_spec x y) as [Heq|Hlt|Hgt]; simpl;
      [change (x = y) in Heq; subst x| |].
    + by constructor.
    + constructor; [by constructor|]. constructor; [done|].
      eapply Forall_impl; [exact Hall|]. intros z Hz. simpl in Hz.
      by etransitivity.
    + constructor; [by apply IH|].
      apply Forall_forall. intros z Hz.
      apply unique_insert_keys in Hz as [->|Hz]; [done|].
      rewrite Forall_forall in Hall. by apply Hall.
Qed.

Lemma unique_insert_elem x acc k c :
  StronglySorted String_as_OT.lt acc.*1 →
  (k, c) ∈ unique_insert x acc ↔
    (k ≠ x ∧ (k, c) ∈ acc)
    ∨ (k = x ∧ c = 1%Z ∧ x ∉ acc.*1)
    ∨ (k = x ∧ ∃ c0, (x, c0) ∈ acc ∧ c = (c0 + 1)%Z).
Proof.
  induction acc as [|[y c'] acc IH]; simpl; intros Hs.
  - rewrite list_elem_of_singleton. split.
    + intros [= -> ->]. right. left. repeat split. apply not_elem_of_nil.
    + intros [[_ H]|[(-> & -> & _)|(_ & c0 & H & _)]];
        [by apply elem_of_nil in H|done|by apply elem_of_nil in H].
  - apply StronglySorted_inv in Hs as [Hs Hall].
    pose proof (sorted_head_notin _ _ Hall) as Hy.
    assert (Hy' : ∀ c1, (y, c1) ∉ acc).
    { intros c1 Hin. apply Hy. apply list_elem_of_fmap. by exists (y, c1). }
    destruct (String_as_OT.compare_spec x y) as [Heq|Hlt|Hgt]; simpl;
      [change (x = y) in Heq; subst x| |].
    + rewrite !elem_of_cons. split.
      * intros [[= -> ->]|Hin].
        -- right. right. split; [done|]. exists c'. split; [by left|done].
        -- left. split; [|by right]. intros ->. by apply (Hy' c).
      * intros [[Hne [[= -> ->]|Hin]]|[(-> & -> & Hnin)|(-> & c0 & Hin & ->)]].
        -- done.
        -- by right.
        -- destruct Hnin. by left.
        -- apply elem_of_cons in Hin as [[= ->]|Hin]; [by left|].
           by destruct (Hy' c0).
    + assert (Hx : x ∉ ((y, c') :: acc).*1).
      { simpl. apply sorted_head_notin. constructor; [done|].
        eapply Forall_impl; [exact Hall|]. intros z Hz. simpl in Hz.
        by etransitivity. }
      rewrite elem_of_cons. split.
      * intros [[= -> ->]|Hin].
        -- right. left. done.
        -- left. split; [|done]. intros ->. apply Hx.
           apply list_elem_of_fmap. by exists (x, c).
      * intros [[Hne Hin]|[(-> & -> & _)|(-> & c0 & Hin & ->)]].
        -- by right.
        -- by left.
        -- destruct Hx. apply list_elem_of_fmap. by exists (x, c0).
    + assert (Hne : x ≠ y) by (intros ->; by apply (lt_irrefl y)).
      rewrite elem_of_cons, (IH Hs), !elem_of_cons. split.
      * intros [[= -> ->]|[[? ?]|[(-> & -> & Hnin)|(-> & c0 & Hin & ->)]]].
        -- left. split; [done|by left].
        -- left. split; [done|by right].
        -- right. left. repeat split.
           intros [?|?]; done.
        -- right. right. split; [done|]. exists c0. split; [by right|done].
      * intros [[? [[= -> ->]|Hin]]|[(-> & -> & Hnin)|(-> & c0 & Hin & ->)]].
        -- by left.
        -- right. left. done.
        -- right. right. left. repeat split.
           intros ?. apply Hnin. by right.
        -- apply elem_of_cons in Hin as [[= ? ?]|Hin]; [done|].
           right. right. right. split; [done|]. by exists c0.
Qed.

Lemma count_of_cons_eq x l : count_of x (x :: l) = S (count_of x l).
Proof. unfold count_of. by rewrite filter_cons_True. Qed.

Lemma count_of_cons_ne x y l : y ≠ x → count_of x (y :: l) = count_of x l.
Proof. intros. unfold count_of. by rewrite filter_cons_False. Qed.

Lemma count_of_notin x l : x ∉ l → count_of x l = 0.
Proof.
  induction l as [|y l IH]; [done|]. intros Hn.
  apply not_elem_of_cons in Hn as [? ?].
  rewrite count_of_cons_ne by done. by apply IH.
Qed.

Lemma count_of_in x l : x ∈ l → 0 < count_of x l.
Proof.
  induction l as [|y l IH]; intros Hin; [by apply elem_of_nil in Hin|].
  destruct (decide (y = x)) as [->|Hne].
  - rewrite count_of_cons_eq. lia.
  - rewrite count_of_cons_ne by done. apply IH.
    apply elem_of_cons in Hin as [?|?]; [congruence|done].
Qed.

Lemma unique_counts_spec l :
  StronglySorted String_as_OT.lt (unique_counts l).*1
  ∧ ∀ k c, (k, c) ∈ unique_counts l ↔ k ∈ l ∧ c = Z.of_nat (count_of k l).
Proof.
  induction l as [|x l [Hs IH]]; simpl.
  - split; [constructor|]. intros k c. rewrite !elem_of_nil. tauto.
  - split; [by apply unique_insert_sorted|]. intros k c.
    rewrite (unique_insert_elem _ _ _ _ Hs).
    assert (Hkeys : x ∈ (unique_counts l).*1 ↔ x ∈ l).
    { rewrite list_elem_of_fmap. split.
      - intros ([k' c'] & -> & Hin). by apply IH in Hin as [? _].
      - intros Hin. exists (x, Z.of_nat (count_of x l)). split; [done|].
        by apply IH. }
    rewrite elem_of_cons. split.
    + intros [[Hne Hin]|[(-> & -> & Hnin)|(-> & c0 & Hin & ->)]].
      * apply IH in Hin as [Hin ->].
        rewrite count_of_cons_ne by done. split; [by right|done].
      * rewrite Hkeys in Hnin. rewrite count_of_cons_eq, count_of_notin by done.
        split; [by left|done].
      * apply IH in Hin as [Hin ->]. rewrite count_of_cons_eq.
        split; [by left|lia].
    + intros [Hin ->]. destruct (decide (k = x)) as [->|Hne].
      * rewrite count_of_cons_eq. destruct (decide (x ∈ l)) as [Hx|Hx].
        -- right. right. split; [done|]. exists (Z.of_nat (count_of x l)).
           split; [by apply IH|lia].
        -- right. left. rewrite count_of_notin by done.
           repeat split. by rewrite Hkeys.
      * left. split; [done|]. rewrite count_of_cons_ne by done.
        apply IH. split; [|done]. by destruct Hin.
Qed.

Lemma unique_counts_NoDup l : NoDup (unique_counts l).*1.
Proof. apply sorted_NoDup, unique_counts_spec. Qed.

Lemma np_unique_spec l :
  ∀ k c, (k, c) ∈ np_unique l
         ↔ k ∈ np_str <$> l ∧ c = Z.of_nat (count_of k (np_str <$> l)).
Proof. apply unique_counts_spec. Qed.

Lemma np_unique_NoDup l : NoDup (np_unique l).*1.
Proof. apply unique_counts_NoDup. Qed.

Lemma np_unique_length l : length (np_unique l) ≤ length l.
Proof.
  pose proof (np_unique_NoDup l) as Hnd.
  rewrite <-(length_fmap fst), <-(length_fmap np_str l).
  apply submseteq_length, NoDup_submseteq; [done|].
  intros k Hk. apply list_elem_of_fmap in Hk as ([k' c] & -> & Hin).
  by apply np_unique_spec in Hin as [? _].
Qed.

Lemma np_str_id (s : string) :
  Ascii.zero ∉ list_ascii_of_string s → np_str s = s.
Proof.
  induction s as [|c s IH]; [done|]. simpl. intros Hn.
  apply not_elem_of_cons in Hn as [Hc Hs]. rewrite (IH Hs).
  destruct s; [|done].
  destruct (Ascii.eqb_spec c Ascii.zero); congruence.
Qed.

(** ** Filling the frequency table *)

Lemma fill_dict fuel l :
  ∀ d : gmap string Z,
    ∃ d', fill fuel (OfDict d) l = Some (OfDict d', Ok tt)
      ∧ (NoDup l.*1 → (∀ k, k ∈ l.*1 → d !! k = None) →
         ∀ k c, d' !! k = Some c ↔ d !! k = Some c ∨ (k, c) ∈ l).
Proof.
  induction l as [|[k0 c0] l IH]; intros d; simpl.
  - exists d. split; [done|]. intros _ _ k c. rewrite elem_of_nil. tauto.
  - destruct (IH (<[k0:=c0]> d)) as (d' & E & Hd'). exists d'.
    split; [done|]. intros Hnd Hfresh k c.
    apply NoDup_cons in Hnd as [Hk0 Hnd].
    rewrite Hd', lookup_insert_Some, elem_of_cons; [|done|].
    + split.
      * intros [[[-> ->]|[? ?]]|?]; eauto.
      * intros [Hk|[[= -> ->]|?]]; eauto.
        left. right. split; [|done]. intros ->.
        rewrite Hfresh in Hk; [done|]. by left.
    + intros k' Hk'. rewrite lookup_insert_ne; [|by intros ->].
      apply Hfresh. by right.
Qed.

Lemma fill_hashtable fuel l :
  ∀ h : Hashtable.t Hashtable.float Z,
    Hashtable.steady h → NoDup l.*1 →
    (∀ k, k ∈ l.*1 → Hashtable.absent (Hashtable.table h) k) →
    2 * Nat.max (Hashtable.capacity h)
          (4 * (Hashtable.__len__ h + length l)) < fuel →
    ∃ h', fill fuel (OfHashtable h) l = Some (OfHashtable h', Ok tt)
      ∧ Hashtable.steady h'
      ∧ Hashtable.defVal h' = Hashtable.defVal h
      ∧ Hashtable.capacity h'
          ≤ Nat.max (Hashtable.capacity h)
              (4 * (Hashtable.__len__ h + length l))
      ∧ ∀ k c, Hashtable.holds (Hashtable.table h') k c
               ↔ Hashtable.holds (Hashtable.table h) k c ∨ (k, c) ∈ l.
Proof.
  induction l as [|[k0 c0] l IH]; intros h Hst Hnd Hfresh Hfuel; simpl.
  - exists h. split; [done|]. split; [done|]. split; [done|].
    split; [lia|]. intros k c. rewrite elem_of_nil. tauto.
  - simpl in Hfuel. apply NoDup_cons in Hnd as [Hk0 Hnd].
    destruct (HashtableFacts.setitem_steady fuel h k0 c0)
      as (h1 & E1 & Hst1 & Hdv1 & Hlen1 & Hcap1 & Hholds1 & Habs1);
      [done|apply Hfresh; by left|lia|].
    rewrite E1.
    destruct (IH h1) as (h' & E & Hst' & Hdv' & Hcap' & Hholds');
      [done|done| |lia|].
    { intros k Hk. apply Habs1; [by intros ->|]. apply Hfresh. by right. }
    exists h'. split; [done|]. split; [done|]. split; [congruence|].
    split; [lia|]. intros k c.
    rewrite Hholds', Hholds1, elem_of_cons. split.
    + intros [[[-> ->]|?]|?]; eauto.
    + intros [?|[[= -> ->]|?]]; eauto.
Qed.

Lemma keys_holds (h : Hashtable.t Hashtable.float Z) key :
  key ∈ Hashtable.keys h ↔ ∃ v, Hashtable.holds (Hashtable.table h) key v.
Proof.
  unfold Hashtable.keys. rewrite list_elem_of_omap. split.
  - intros (x & Hx & Hk). pose proof Hx as Hx'.
    apply list_elem_of_filter in Hx' as [Hlive _].
    destruct x as [|k v [|]]; simplify_eq/=.
    exists v. by apply HashtableFacts.holds_filter.
  - intros [v Hv]. apply HashtableFacts.holds_filter in Hv.
    by exists (Hashtable.Occupied key v true).
Qed.

Lemma steady_init :
  Hashtable.steady (Hashtable.__init__ HASH_CELLS 0%Z Hashtable.half 2).
Proof.
  split; try done.
  - apply HashtableFacts.clean_empty. unfold HASH_CELLS. lia.
  - rewrite HashtableFacts.init_len, HashtableFacts.init_capacity. lia.
  - rewrite HashtableFacts.init_capacity. unfold HASH_CELLS. lia.
  - rewrite HashtableFacts.init_capacity.
    exists 57%Z, 0. split; [reflexivity|lia].
Qed.

Lemma substrings_nil k : k_k1_len_substrings k [] = Raise IndexError.
Proof. done. Qed.

Lemma substrings_cons k c text :
  ∃ pairs, k_k1_len_substrings k (c :: text) = Ok pairs.
Proof. unfold k_k1_len_substrings. eauto. Qed.

(** What a model answers for a key once [__init__] has returned: the number
    of times the key occurs among the substrings of the training text. *)
Lemma init_spec fuel k speech state pairs :
  k_k1_len_substrings k (list_ascii_of_string speech) = Ok pairs →
  state = 0%Z ∨ state = 1%Z →
  2 * Nat.max HASH_CELLS (4 * length (np_unique (flatten_pairs pairs))) < fuel →
  ∃ m, __init__ fuel k speech state = Some (Ok m)
    ∧ Markov.k m = k
    ∧ alphabet_len m = length (remove_dups (list_ascii_of_string speech))
    ∧ (∀ key, _access_values fuel m key
              = Some (Ok (Z.of_nat (count_of key (np_str <$> flatten_pairs pairs)))))
    ∧ (∀ key, key ∈ table_keys (table m) ↔ key ∈ np_str <$> flatten_pairs pairs).
Proof.
  intros Hpairs Hstate Hfuel.
  pose proof (np_unique_NoDup (flatten_pairs pairs)) as Hnd.
  pose proof (np_unique_spec (flatten_pairs pairs)) as Hspec.
  unfold __init__, _gen_table. rewrite Hpairs.
  destruct Hstate as [-> | ->]; cbn [Z.eqb Pos.eqb].
  - destruct (fill_hashtable fuel (np_unique (flatten_pairs pairs))
                (Hashtable.__init__ HASH_CELLS 0%Z Hashtable.half 2))
      as (h' & E & Hst' & Hdv' & Hcap' & Hholds').
    { apply steady_init. }
    { done. }
    { intros key _. apply HashtableFacts.init_absent. }
    { rewrite HashtableFacts.init_len, HashtableFacts.init_capacity.
      simpl. lia. }
    rewrite E. eexists. split; [reflexivity|]. cbn [Markov.k Markov.alphabet_len Markov.table].
    assert (Hh : ∀ key c, Hashtable.holds (Hashtable.table h') key c
                          ↔ (key, c) ∈ np_unique (flatten_pairs pairs)).
    { intros key c. rewrite Hholds'. split; [|by right].
      intros [Hj|?]; [|done]. by apply HashtableFacts.init_holds in Hj. }
    rewrite HashtableFacts.init_len, HashtableFacts.init_capacity in Hcap'.
    simpl in Hcap'.
    destruct Hst' as [Hc' ? ? ? Hhalf' Hcap2'].
    repeat split; try done.
    + intros key. unfold _access_values. simpl.
      destruct (decide (key ∈ np_str <$> flatten_pairs pairs)) as [Hin|Hnin].
      * assert (Hk : Hashtable.holds (Hashtable.table h') key
                       (Z.of_nat (count_of key (np_str <$> flatten_pairs pairs))))
          by (apply Hh, Hspec; done).
        destruct Hk as [j Hj].
        eapply HashtableFacts.getitem_found; [done|exact Hj|lia].
      * rewrite count_of_notin by done.
        replace (Z.of_nat 0) with (Hashtable.defVal h') by (by rewrite Hdv').
        apply HashtableFacts.getitem_absent; [done|lia| |lia].
        apply HashtableFacts.absent_holds; [by destruct Hc'|].
        intros v Hv. apply Hh, Hspec in Hv as [? _]. done.
    + intros Hk. apply keys_holds in Hk as [v Hv].
      by apply Hh, Hspec in Hv as [? _].
    + intros Hin. apply keys_holds.
      exists (Z.of_nat (count_of key (np_str <$> flatten_pairs pairs))).
      by apply Hh, Hspec.
  - destruct (fill_dict fuel (np_unique (flatten_pairs pairs)) ∅)
      as (d' & E & Hd').
    rewrite E. eexists. split; [reflexivity|]. cbn [Markov.k Markov.alphabet_len Markov.table].
    assert (Hh : ∀ key c, d' !! key = Some c
                          ↔ (key, c) ∈ np_unique (flatten_pairs pairs)).
    { intros key c. rewrite Hd'; [|done|by intros; apply lookup_empty].
      rewrite lookup_empty. split; [by intros [?|?]|by right]. }
    repeat split; try done.
    + intros key. unfold _access_values. simpl.
      destruct (d' !! key) as [c|] eqn:Hk.
      * apply Hh, Hspec in Hk as [_ ->]. done.
      * destruct (decide (key ∈ np_str <$> flatten_pairs pairs)) as [Hin|Hnin].
        -- assert (d' !! key
                   = Some (Z.of_nat (count_of key (np_str <$> flatten_pairs pairs))))
             by (apply Hh, Hspec; done).
           congruence.
        -- by rewrite count_of_notin.
    + intros Hk. apply list_elem_of_fmap in Hk as ([k' c] & -> & Hin).
      apply elem_of_map_to_list in Hin. by apply Hh, Hspec in Hin as [? _].
    + intros Hin. apply list_elem_of_fmap.
      exists (key, Z.of_nat (count_of key (np_str <$> flatten_pairs pairs))).
      split; [done|]. apply elem_of_map_to_list. by apply Hh, Hspec.
Qed.


(** ** Construction always completes on a non-empty text *)

Lemma length_list_ascii (s : string) :
  length (list_ascii_of_string s) = String.length s.
Proof. induction s as [|c s IH]; simpl; [done|by rewrite IH]. Qed.

Lemma flatten_pairs_length pairs :
  length (flatten_pairs pairs) = 2 * length pairs.
Proof. induction pairs as [|p pairs IH]; simpl; lia. Qed.

Lemma flat_map_length_le {A B} (f : A → list B) (l : list A) :
  (∀ x, length (f x) ≤ 1) → length (flat_map f l) ≤ length l.
Proof.
  intros Hf. induction l as [|x l IH]; simpl; [done|].
  rewrite length_app. specialize (Hf x). lia.
Qed.

Lemma range_length n : length (range n) = n.
Proof. unfold range. by rewrite length_fmap, length_seq. Qed.

Lemma tail_length {A} (l : list A) : length (tail l) = length l - 1.
Proof. destruct l; simpl; lia. Qed.

Lemma substrings_length k text pairs :
  k_k1_len_substrings k text = Ok pairs → length pairs ≤ 2 * length text.
Proof.
  unfold k_k1_len_substrings.
  match goal with |- context [tail ?l] =>
    assert (length l ≤ length text) as Hfm; [|generalize dependent l] end.
  { etransitivity; [apply flat_map_length_le|by rewrite range_length].
    intros i. cbv zeta. destruct (_ <? _)%Z; simpl; lia. }
  intros unwrapped Hfm.
  destruct text as [|c text]; [done|].
  match goal with |- context [[_] ++ ?w] =>
    assert (length w ≤ length (c :: text)) as Hw; [|generalize dependent w] end.
  { destruct (1 <? k)%Z; [|simpl; lia].
    rewrite length_fmap, range_length. unfold slice_from.
    rewrite length_drop. lia. }
  intros wrapped Hw [= <-]. rewrite !length_app, tail_length.
  simpl in *. lia.
Qed.

Lemma string_nonempty (s : string) :
  s ≠ ""%string → ∃ c l, list_ascii_of_string s = c :: l.
Proof. destruct s as [|c s]; [done|]. intros _. simpl. eauto. Qed.

(** On a non-empty text and with one of the two tables, [__init__] returns a
    model; the model answers every key with the number of times it occurs
    among the substrings that [np.unique] was given. *)
Lemma init_total fuel k speech state :
  speech ≠ ""%string →
  state = 0%Z ∨ state = 1%Z →
  2 * Nat.max HASH_CELLS (16 * String.length speech) < fuel →
  ∃ pairs m,
    k_k1_len_substrings k (list_ascii_of_string speech) = Ok pairs
    ∧ __init__ fuel k speech state = Some (Ok m)
    ∧ Markov.k m = k
    ∧ alphabet_len m = length (remove_dups (list_ascii_of_string speech))
    ∧ (∀ key, _access_values fuel m key
              = Some (Ok (Z.of_nat (count_of key (np_str <$> flatten_pairs pairs)))))
    ∧ (∀ key, key ∈ table_keys (table m) ↔ key ∈ np_str <$> flatten_pairs pairs).
Proof.
  intros Hne Hstate Hfuel.
  destruct (string_nonempty speech Hne) as (c & l & Hcl).
  destruct (substrings_cons k c l) as [pairs Hpairs]. rewrite <-Hcl in Hpairs.
  pose proof (substrings_length _ _ _ Hpairs) as Hlen.
  rewrite length_list_ascii in Hlen.
  pose proof (np_unique_length (flatten_pairs pairs)) as Hu.
  rewrite flatten_pairs_length in Hu.
  destruct (init_spec fuel k speech state pairs) as (m & Hm); [done|done|lia|].
  exists pairs, m. by split.
Qed.

(** ** The substrings of a text read as a circle *)

Lemma circular_substring_length text start len :
  0 < length text → length (circular_substring text start len) = len.
Proof.
  intros Hn. revert start. induction len as [|len IH]; intros start; [done|].
  simpl. rewrite length_app, IH.
  destruct (lookup_lt_is_Some_2 text (start mod length text)) as [c ->];
    [apply Nat.mod_upper_bound; lia|done].
Qed.

Lemma circular_substring_nil start len : circular_substring [] start len = [].
Proof. revert start. induction len as [|len IH]; intros start; [done|]. simpl. by rewrite IH. Qed.

Lemma circular_substring_lookup text start len d :
  d < len →
  circular_substring text start len !! d = text !! ((start + d) mod length text).
Proof.
  revert start d. induction len as [|len IH]; intros start d Hd; [lia|].
  destruct (decide (length text = 0)) as [Hz|Hz].
  { destruct text; [|done].
    by rewrite (circular_substring_nil start (S len)), !lookup_nil. }
  simpl.
  destruct (lookup_lt_is_Some_2 text (start mod length text)) as [c Hc];
    [apply Nat.mod_upper_bound; lia|].
  rewrite Hc. simpl. destruct d as [|d]; simpl.
  - by rewrite Nat.add_0_r.
  - rewrite IH by lia. do 2 f_equal. lia.
Qed.

Lemma circular_substring_elem text start len c :
  c ∈ circular_substring text start len → c ∈ text.
Proof.
  revert start. induction len as [|len IH]; intros start; simpl.
  - by rewrite elem_of_nil.
  - rewrite elem_of_app. intros [Hc|Hc]; [|by eapply IH].
    destruct (text !! (start mod length text)) as [c'|] eqn:E; simpl in Hc.
    + apply list_elem_of_singleton in Hc as ->. by eapply list_elem_of_lookup_2.
    + by apply elem_of_nil in Hc.
Qed.

(** Within one turn of the circle, the substring is a slice of the text
    followed by the text. *)
Lemma circular_substring_unroll text start len :
  start ≤ length text →
  start + len ≤ 2 * length text →
  circular_substring text start len = take len (drop start text ++ text).
Proof.
  intros Hs Hl. destruct (decide (length text = 0)) as [Hz|Hz].
  { destruct text; [|done]. assert (len = 0) as -> by (simpl in *; lia). done. }
  apply list_eq. intros d.
  destruct (decide (d < len)) as [Hd|Hd].
  - rewrite circular_substring_lookup, lookup_take_lt by done.
    destruct (decide (start + d < length text)) as [Hlt|Hge].
    + rewrite lookup_app_l by (rewrite length_drop; lia).
      rewrite lookup_drop, Nat.mod_small by done. done.
    + rewrite lookup_app_r by (rewrite length_drop; lia).
      rewrite length_drop. f_equal.
      replace (start + d) with ((d - (length text - start)) + 1 * length text) by lia.
      rewrite Nat.Div0.mod_add. apply Nat.mod_small. lia.
  - rewrite lookup_take_ge by lia.
    apply lookup_ge_None_2. rewrite circular_substring_length; lia.
Qed.

Lemma circular_substring_inside text start len :
  start + len ≤ length text →
  circular_substring text start len = take len (drop start text).
Proof.
  intros Hl. rewrite circular_substring_unroll by lia.
  rewrite take_app_le by (rewrite length_drop; lia). done.
Qed.

Lemma circular_substring_wrap text start len :
  start ≤ length text →
  length text ≤ start + len →
  start + len ≤ 2 * length text →
  circular_substring text start len
  = drop start text ++ take (start + len - length text) text.
Proof.
  intros Hs Hge Hl. rewrite circular_substring_unroll by lia.
  rewrite take_app, length_drop.
  rewrite take_ge by (rewrite length_drop; lia).
  do 2 f_equal. lia.
Qed.

(** ** The slices of [k_k1_len_substrings] *)

Lemma slice_inside text (a b : Z) (start len : nat) :
  a = Z.of_nat start → b = Z.of_nat (start + len) →
  start + len ≤ length text →
  slice text a b = take len (drop start text).
Proof.
  intros -> -> Hl. unfold slice, clip.
  destruct (Z.ltb_spec (Z.of_nat start) 0); [lia|].
  destruct (Z.ltb_spec (Z.of_nat (start + len)) 0); [lia|].
  rewrite !Nat2Z.id. f_equal; [lia|]. f_equal. lia.
Qed.

Lemma slice_from_end text (a : Z) (start : nat) :
  (a < 0)%Z → (a + Z.of_nat (length text))%Z = Z.of_nat start →
  slice_from text a = drop start text.
Proof.
  intros Ha Hs. unfold slice_from, clip.
  destruct (Z.ltb_spec a 0); [|lia]. rewrite Hs, Nat2Z.id. done.
Qed.

Lemma slice_to_inside text (b : Z) (len : nat) :
  b = Z.of_nat len → len ≤ length text → slice_to text b = take len text.
Proof.
  intros -> Hl. unfold slice_to, clip.
  destruct (Z.ltb_spec (Z.of_nat len) 0); [lia|].
  rewrite Nat2Z.id. f_equal. lia.
Qed.

Lemma flat_map_select {A B} (g : A → list B) (h : A → B) (l1 l2 : list A) :
  (∀ x, x ∈ l1 → g x = [h x]) → (∀ x, x ∈ l2 → g x = []) →
  flat_map g (l1 ++ l2) = h <$> l1.
Proof.
  intros H1 H2. rewrite flat_map_app.
  assert (flat_map g l2 = []) as ->.
  { induction l2 as [|x l2 IH]; [done|]. simpl.
    rewrite H2 by (by left). apply IH. intros y Hy. apply H2. by right. }
  rewrite app_nil_r.
  induction l1 as [|x l1 IH]; [done|]. simpl.
  rewrite H1 by (by left). simpl. f_equal. apply IH.
  intros y Hy. apply H1. by right.
Qed.

(** For an order between 1 and the length of the text, the list that
    [_gen_table] and [log_probability] build holds, for each position of the
    text in turn, the circular substrings of [k] and of [k + 1] characters
    that start there. *)
Lemma substrings_circular (k : nat) text :
  1 ≤ k ≤ length text →
  k_k1_len_substrings (Z.of_nat k) text
  = Ok ((λ j, (circular_substring text j k, circular_substring text j (S k)))
        <$> seq 0 (length text)).
Proof.
  intros Hk. unfold k_k1_len_substrings.
  destruct text as [|c0 text0] eqn:Htext; [simpl in Hk; lia|].
  rewrite <-Htext in *.
  assert (take 1 text = [c0]) as Htake1 by (by rewrite Htext).
  clear Htext. set (n := length text) in *.
  f_equal.
  replace (seq 0 n) with (seq 0 (n - k) ++ [n - k] ++ seq (S (n - k)) (k - 1)).
  2:{ replace n with ((n - k) + (1 + (k - 1))) at 4 by lia.
      rewrite !seq_app. simpl. by rewrite Nat.add_1_r. }
  rewrite !fmap_app. f_equal; [|f_equal].
  - (* the substrings that need no wrapping *)
    unfold range.
    replace (seq 0 n) with (seq 0 (S (n - k)) ++ seq (S (n - k)) (k - 1))
      by (rewrite <-seq_app; f_equal; lia).
    rewrite fmap_app.
    rewrite (flat_map_select _
               (λ i : Z, (slice text (i - 1) (i + Z.of_nat k - 1),
                          slice text (i - 1) (i + Z.of_nat k)))).
    + cbn -[circular_substring slice]. rewrite <-fmap_S_seq, <-!list_fmap_compose.
      apply Forall_fmap_ext, Forall_forall. intros j Hj.
      apply elem_of_seq in Hj. cbn -[circular_substring slice]. f_equal.
      * rewrite circular_substring_inside by lia.
        apply slice_inside; lia.
      * rewrite circular_substring_inside by lia.
        apply slice_inside; lia.
    + intros i Hi. apply list_elem_of_fmap in Hi as (j & -> & Hj).
      apply elem_of_seq in Hj.
      destruct (Z.ltb_spec (Z.of_nat j + Z.of_nat k - 1) (Z.of_nat n)); [done|lia].
    + intros i Hi. apply list_elem_of_fmap in Hi as (j & -> & Hj).
      apply elem_of_seq in Hj.
      destruct (Z.ltb_spec (Z.of_nat j + Z.of_nat k - 1) (Z.of_nat n)); [lia|done].
  - (* the edge: the last [k] characters, then the first one *)
    cbn -[circular_substring slice_from]. f_equal. f_equal.
    + rewrite circular_substring_wrap by lia.
      replace (n - k + k - length text) with 0 by (fold n; lia).
      rewrite take_0, app_nil_r. apply slice_from_end; fold n; lia.
    + rewrite circular_substring_wrap by lia.
      replace (n - k + S k - length text) with 1 by (fold n; lia).
      rewrite Htake1. f_equal. apply slice_from_end; fold n; lia.
  - (* the substrings that wrap *)
    destruct (Z.ltb_spec 1 (Z.of_nat k)) as [Hk1|Hk1].
    + rewrite (slice_from_end text _ (S (n - k))) by (fold n; lia).
      rewrite length_drop. fold n. unfold range.
      replace (n - S (n - k)) with (k - 1) by lia.
      replace (seq (S (n - k)) (k - 1))
        with ((λ c, S (n - k) + c) <$> seq 0 (k - 1)).
      2:{ rewrite fmap_add_seq. f_equal. lia. }
      rewrite <-!list_fmap_compose.
      apply Forall_fmap_ext, Forall_forall. intros c Hc.
      apply elem_of_seq in Hc. cbn -[circular_substring slice_from slice_to]. f_equal.
      * rewrite circular_substring_wrap by lia.
        f_equal; [apply slice_from_end; fold n; lia|].
        apply slice_to_inside; fold n; lia.
      * rewrite circular_substring_wrap by lia.
        f_equal; [apply slice_from_end; fold n; lia|].
        apply slice_to_inside; fold n; lia.
    + replace (k - 1) with 0 by lia. done.
Qed.

(** ** The counts of the frequency table *)

Lemma str_inj l1 l2 : str l1 = str l2 → l1 = l2.
Proof.
  unfold str. intros E.
  rewrite <-(list_ascii_of_string_of_list_ascii l1),
          <-(list_ascii_of_string_of_list_ascii l2).
  by rewrite E.
Qed.

Lemma flatten_pairs_cons p l :
  flatten_pairs (p :: l) = str (fst p) :: str (snd p) :: flatten_pairs l.
Proof. done. Qed.

Lemma count_of_flatten (f g : nat → list ascii) (s : list ascii) (l : list nat) :
  count_of (str s) (flatten_pairs ((λ j, (f j, g j)) <$> l))
  = length (filter (λ j, f j = s) l) + length (filter (λ j, g j = s) l).
Proof.
  induction l as [|x l IH]; [done|].
  rewrite fmap_cons, flatten_pairs_cons, !filter_cons. cbn [fst snd].
  destruct (decide (f x = s)) as [Hf|Hf], (decide (g x = s)) as [Hg|Hg].
  - rewrite Hf, Hg, !count_of_cons_eq, IH. simpl. lia.
  - rewrite Hf, count_of_cons_eq, count_of_cons_ne, IH;
      [simpl; lia|by intros ?%str_inj].
  - rewrite Hg, count_of_cons_ne, count_of_cons_eq, IH;
      [simpl; lia|by intros ?%str_inj].
  - rewrite !count_of_cons_ne, IH; [done|by intros ?%str_inj..].
Qed.

Lemma filter_none {A} (P : A → Prop) `{∀ x, Decision (P x)} (l : list A) :
  (∀ x, x ∈ l → ¬ P x) → filter P l = [].
Proof.
  induction l as [|x l IH]; [done|]. intros Hn.
  rewrite filter_cons_False by (apply Hn; by left).
  apply IH. intros y Hy. apply Hn. by right.
Qed.

Lemma flatten_pairs_elem key (f g : nat → list ascii) (l : list nat) :
  key ∈ flatten_pairs ((λ j, (f j, g j)) <$> l)
  ↔ ∃ j, j ∈ l ∧ (key = str (f j) ∨ key = str (g j)).
Proof.
  unfold flatten_pairs. rewrite list_elem_of_In, in_flat_map. split.
  - intros (p & Hp & Hkey). apply list_elem_of_In, list_elem_of_fmap in Hp as (j & -> & Hj).
    exists j. split; [done|]. simpl in Hkey. destruct Hkey as [<-|[<-|[]]]; eauto.
  - intros (j & Hj & Hkey). exists (f j, g j). split.
    + apply list_elem_of_In, list_elem_of_fmap. eauto.
    + simpl. destruct Hkey as [->| ->]; eauto.
Qed.

Lemma np_str_flatten text (k : nat) (l : list nat) :
  Ascii.zero ∉ text →
  np_str <$> flatten_pairs
               ((λ j, (circular_substring text j k, circular_substring text j (S k)))
                <$> l)
  = flatten_pairs
      ((λ j, (circular_substring text j k, circular_substring text j (S k))) <$> l).
Proof.
  intros Hz. rewrite <-(list_fmap_id (flatten_pairs _)) at 2.
  apply Forall_fmap_ext, Forall_forall. intros key Hkey.
  apply flatten_pairs_elem in Hkey as (j & _ & [-> | ->]); unfold id;
    apply np_str_id; unfold str;
    rewrite list_ascii_of_string_of_list_ascii;
    intros Hin%circular_substring_elem; done.
Qed.

(** ** Scoring *)

Section ScoringFacts.

Context {F : Type} `{FloatOps F}.

Lemma terms_spec fuel m (count : string → Z) pairs :
  (∀ key, _access_values fuel m key = Some (Ok (count key))) →
  terms fuel m pairs
  = Some (Ok (map (λ tup,
                     log (int_div (count (str (snd tup)) + 1)
                            (count (str (fst tup))
                             + Z.of_nat (alphabet_len m))))
                  pairs)).
Proof.
  intros Hacc. induction pairs as [|tup pairs IH]; [done|].
  simpl. unfold term. by rewrite !Hacc, IH.
Qed.

Lemma log_probability_spec fuel m (count : string → Z) text :
  (∀ key, _access_values fuel m key = Some (Ok (count key))) →
  log_probability fuel m text
  = match k_k1_len_substrings (k m) (list_ascii_of_string text) with
    | Raise e => Some (Raise e)
    | Ok pairs => Some (Ok (log_likelihood count (alphabet_len m) pairs))
    end.
Proof.
  intros Hacc. unfold log_probability.
  destruct (k_k1_len_substrings _ _) as [pairs|e]; [|done].
  by rewrite (terms_spec fuel m count).
Qed.

End ScoringFacts.


End MarkovFacts.

(** * The model's contract *)

Section Model.

Import Markov MarkovFacts.

(** C9, as the code has it.  [Markov(k, speech, state)] always returns or
    raises, and it raises exactly when the table selector is neither 0 nor 1
    or the training text is empty; the order [k] is not examined, so
    construction completes for every order, positive or not. *)
Theorem construction_raises_iff fuel k speech state :
  2 * Nat.max HASH_CELLS (16 * String.length speech) < fuel →
  (∃ r, __init__ fuel k speech state = Some r)
  ∧ ((∃ e, __init__ fuel k speech state = Some (Raise e))
     ↔ (state ≠ 0%Z ∧ state ≠ 1%Z) ∨ speech = ""%string).
Proof.
  intros Hfuel.
  destruct (decide (state = 0%Z ∨ state = 1%Z)) as [Hstate|Hstate].
  - destruct (decide (speech = ""%string)) as [->|Hne].
    + assert (__init__ fuel k "" state = Some (Raise IndexError)) as E
        by (by destruct Hstate as [-> | ->]).
      rewrite E. split; [eauto|]. split; [by right|eauto].
    + destruct (init_total fuel k speech state) as (pairs & m & _ & E & _);
        [done..|].
      rewrite E. split; [eauto|]. split.
      * by intros [e [=]].
      * intros [[? ?]|?]; [lia|done].
  - assert (__init__ fuel k speech state = Some (Raise Exception)) as E.
    { unfold __init__.
      destruct (Z.eqb_spec state 0); [tauto|].
      destruct (Z.eqb_spec state 1); [tauto|done]. }
    rewrite E. split; [eauto|]. split; [|eauto].
    intros _. left. lia.
Qed.

Section Floats.

Context {F : Type} `{FloatOps F}.

(** C6.  For every order and non-empty training text, the model built on the
    [Hashtable] and the model built on the [dict] both construct, and
    [log_probability] gives the same outcome on both for every evaluation
    text: the same float when the evaluation text is non-empty, the same
    error otherwise. *)
Theorem backend_equivalence fuel k speech text :
  speech ≠ ""%string →
  2 * Nat.max HASH_CELLS (16 * String.length speech) < fuel →
  ∃ m0 m1 r,
    __init__ fuel k speech 0 = Some (Ok m0)
    ∧ __init__ fuel k speech 1 = Some (Ok m1)
    ∧ log_probability fuel m0 text = Some r
    ∧ log_probability fuel m1 text = Some r
    ∧ (text ≠ ""%string → ∃ x : F, r = Ok x).
Proof.
  intros Hne Hfuel.
  destruct (init_total fuel k speech 0) as (pairs & m0 & Hp & E0 & Hk0 & Ha0 & Hc0 & _);
    [done|by left|done|].
  destruct (init_total fuel k speech 1) as (pairs' & m1 & Hp' & E1 & Hk1 & Ha1 & Hc1 & _);
    [done|by right|done|].
  assert (pairs' = pairs) as -> by congruence.
  exists m0, m1. rewrite E0, E1.
  rewrite (log_probability_spec fuel m0 _ text Hc0).
  rewrite (log_probability_spec fuel m1 _ text Hc1).
  rewrite Hk0, Hk1, Ha0, Ha1.
  destruct (k_k1_len_substrings k (list_ascii_of_string text)) as [ps|e] eqn:Hps.
  - eexists. do 4 (split; [reflexivity|]). eauto.
  - exists (Raise e). do 4 (split; [reflexivity|]).
    intros Ht. destruct (string_nonempty text Ht) as (c & l & Hcl).
    destruct (substrings_cons k c l) as [ps' Hps']. congruence.
Qed.

(** C10, for texts that can be scored.  When both corpora are the same
    non-empty string and the unknown text is non-empty, [identify_speaker]
    returns twice the same score and the verdict ["B"], with either table and
    for every order. *)
Theorem identical_corpora_tie fuel k state corpus unknown :
  state = 0%Z ∨ state = 1%Z →
  corpus ≠ ""%string →
  unknown ≠ ""%string →
  2 * Nat.max HASH_CELLS (16 * String.length corpus) < fuel →
  ∃ score : F,
    identify_speaker fuel corpus corpus unknown k state
    = Some (Ok (score, score, "B"%string)).
Proof.
  intros Hstate Hc Hu Hfuel.
  destruct (init_total fuel k corpus state) as (pairs & m & _ & E & Hk & _ & Hcount & _);
    [done..|].
  destruct (string_nonempty unknown Hu) as (c & l & Hcl).
  destruct (substrings_cons k c l) as [ps Hps].
  unfold identify_speaker, norm_log_likelihood. rewrite E.
  rewrite (log_probability_spec fuel m _ unknown Hcount), Hk, Hcl, Hps.
  destruct unknown as [|c' u]; [done|]. cbn [String.length Nat.eqb].
  rewrite fgt_irrefl. eauto.
Qed.

End Floats.

End Model.

(** * The container's contract *)

Section Container.

Import Hashtable HashtableFacts.

Context {L V : Type} {LF : LoadFactor L}.
Implicit Types (s : t L V) (key : string) (value : V).


(** C4, as the code has it.  The load test of [__setitem__] is made on
    entry, on the size before the insertion, in the arithmetic of the load
    factor.  When a call made outside a growth pass completes, the size has
    grown by at most one; the capacity has been multiplied by the growth
    factor if the test [size >= loadfactor * capacity] held on entry and is
    unchanged otherwise, in which case the size is at most one more than a
    size for which the test fails. *)
Theorem load_control_on_entry fuel s key value s' :
  rehashing s = false →
  __setitem__ fuel s key value = Some (s', Ok tt) →
  __len__ s' ≤ __len__ s + 1
  ∧ loadfactor s' = loadfactor s
  ∧ (if overloaded s
     then capacity s' = capacity s * growthFactor s
     else capacity s' = capacity s
          ∧ ∃ n, __len__ s' ≤ n + 1
                 ∧ at_least n (times (loadfactor s') (capacity s')) = false).
Proof.
  intros Hre E. unfold __setitem__ in E. rewrite Hre in E. simpl in E.
  destruct (overloaded s) eqn:Hov.
  - destruct (_rehash fuel s) as [[s1 [[]|e]]|] eqn:E1; simplify_eq.
    apply _rehash_frame in E1 as (Hle1 & Hc1 & Hlf1 & _).
    apply setitem_place_frame in E as (tbl' & -> & Hle).
    unfold __len__ in *. simpl in *. split; [lia|done].
  - apply setitem_place_frame in E as (tbl' & -> & Hle).
    split; [unfold __len__ in *; simpl in *; lia|]. split; [done|].
    split; [done|]. exists (__len__ s). split; [|done].
    unfold __len__ in *. simpl in *. lia.
Qed.

End Container.

(** ** Runs on which the table leaves the behaviour of a dictionary *)

Section Runs.

Import Hashtable.


Lemma load_control_on_entry_witness :
  let s := __init__ 2 0%Z half 2 in
  let s' := mk 2 0%Z half 2 [Empty; Occupied "a" 1%Z true] false in
  __len__ s' ≤ __len__ s + 1
  ∧ loadfactor s' = loadfactor s
  ∧ (if overloaded s
     then capacity s' = capacity s * growthFactor s
     else capacity s' = capacity s
          ∧ ∃ n, __len__ s' ≤ n + 1
                 ∧ at_least n (times (loadfactor s') (capacity s')) = false).
Proof.
  intros s s'. apply (load_control_on_entry 3 s "a" 1%Z s');
    [reflexivity|vm_compute; reflexivity].
Defined.

(** C4 as stated fails: after the first assignment to a fresh table of two
    cells with the load factor 0.5 the size is 1, which is not below
    [0.5 * 2]. *)
Lemma load_control_counterexample :
  ∃ s', __setitem__ 3 (__init__ 2 0%Z half 2) "a" 1%Z = Some (s', Ok tt)
        ∧ ¬ load_ok s'.
Proof.
  eexists. split; [vm_compute; reflexivity|].
  unfold load_ok. vm_compute. intros H. discriminate H.
Qed.

(** The load test of a [float] load factor is made on the rounded product.
    With the load factor 0.1, ten cells and one key, [0.1 * 10] is rounded
    to [1.0] and the table grows at the next assignment; the exact product
    of the value of the [float] 0.1, which lies above 1/10, is above 1.
    With 0.28, 25 cells and seven keys the product is rounded to a number
    above 7 and the table does not grow, where the exact product of 28/100
    is 7. *)
Example load_test_is_rounded :
  let one_of_ten := Occupied "a" 1%Z true :: replicate 9 Empty in
  let seven_of_25 := replicate 7 (Occupied "a" 1%Z true) ++ replicate 18 Empty in
  overloaded (mk 10 0%Z (Float (1 # 10)) 2 one_of_ten false) = true
  ∧ overloaded (mk 10 0%Z (float_value (Float (1 # 10))) 2
                   one_of_ten false) = false
  ∧ overloaded (mk 25 0%Z (Float (28 # 100)) 2 seven_of_25 false) = false
  ∧ overloaded (mk 25 0%Z (28 # 100)%Q 2 seven_of_25 false) = true.
Proof. vm_compute. done. Qed.

(** C1.  ["b"] and ["d"] share the first cell of a table of two cells.
    After ["b"] is deleted, the assignment [d := 3] takes the deleted cell
    and leaves the older entry of ["d"] behind it; the growth pass of the next
    assignment re-inserts both in table order, and the older value wins:
    the table then answers 2 for ["d"], whose last assigned value is 3. *)
Theorem round_trip_lost_after_growth fuel :
  let ops := [SetItem "b" 1%Z; SetItem "d" 2%Z; DelItem "b";
              SetItem "d" 3%Z; SetItem "a" 7%Z] in
  expected ops "d" None = Some 3%Z
  ∧ ∃ s, run (3 + fuel) (__init__ 2 0%Z 1%Q 2) ops = Some (s, Ok tt)
       ∧ __getitem__ (3 + fuel) s "d" = Some (Ok 2%Z).
Proof.
  split; [reflexivity|]. eexists. split; [vm_compute; reflexivity|].
  vm_compute. reflexivity.
Qed.

(** C2.  On the same table, after [d := 3] has left two live entries of
    ["d"], deleting ["d"] succeeds and removes only the first: the key is
    still found, with the older value. *)
Theorem deleted_key_still_found fuel :
  let ops := [SetItem "b" 1%Z; SetItem "d" 2%Z; DelItem "b";
              SetItem "d" 3%Z; DelItem "d"] in
  ∃ s, run (3 + fuel) (__init__ 2 0%Z 1%Q 2) ops = Some (s, Ok tt)
     ∧ __getitem__ (3 + fuel) s "d" = Some (Ok 2%Z)
     ∧ defVal s = 0%Z
     ∧ __contains__ s "d" = true.
Proof.
  eexists. split; [vm_compute; reflexivity|].
  split; [vm_compute; reflexivity|]. split; reflexivity.
Qed.

(** C5.  ["a"] and ["e"] share a cell of a table of four cells.  The second
    assignment to ["e"] overwrites its entry, goes on scanning, and writes a
    second entry into the next free cell: the key is listed twice and
    counted twice. *)
Theorem key_stored_twice fuel :
  let ops := [SetItem "a" 1%Z; SetItem "e" 2%Z; SetItem "e" 3%Z] in
  ∃ s, run (4 + fuel) (__init__ 4 0%Z 1%Q 2) ops = Some (s, Ok tt)
     ∧ table s = [Empty; Occupied "a" 1%Z true;
                  Occupied "e" 3%Z true; Occupied "e" 3%Z true]
     ∧ keys s = ["a"; "e"; "e"]%string
     ∧ __len__ s = 3.
Proof.
  eexists. split; [vm_compute; reflexivity|]. repeat split; reflexivity.
Qed.

(** C7.  A table of two cells with load factor 1/2, after two keys were
    assigned and deleted in turn, holds two deleted entries and no empty
    cell.  Deleting a key that is not in the table then never ends: the
    scan of [__delitem__] has no bound, and no [KeyError] is raised. *)
Lemma delitem_loop_two_tombstones fuel hv :
  delitem_loop fuel two_tombstones "c" hv = None.
Proof.
  revert hv. induction fuel as [|fuel IH]; intros hv; [reflexivity|].
  destruct hv as [|[|hv]]; cbn; apply IH.
Qed.

Theorem delete_of_absent_key_diverges :
  run 3 (__init__ 2 0%Z (1 # 2)%Q 2)
      [SetItem "a" 1%Z; DelItem "a"; SetItem "b" 1%Z; DelItem "b"]
    = Some (two_tombstones, Ok tt)
  ∧ keys two_tombstones = []
  ∧ ∀ fuel, __delitem__ fuel two_tombstones "c" = None.
Proof.
  split; [vm_compute; reflexivity|]. split; [reflexivity|].
  intros fuel. unfold __delitem__. cbn. apply delitem_loop_two_tombstones.
Qed.

End Runs.

Section ModelRuns.

Import Markov.

(** C9 as stated fails: the order 0 is accepted. *)
Lemma nonpositive_order_accepted :
  ∃ m, __init__ 0 0 "ab" 1 = Some (Ok m) ∧ k m = 0%Z.
Proof. eexists. split; [vm_compute; reflexivity|]. reflexivity. Defined.

Lemma construction_raises_iff_witness :
  (∃ r, __init__ 200 0 "ab" 2 = Some r)
  ∧ ((∃ e, __init__ 200 0 "ab" 2 = Some (Raise e))
     ↔ (2 ≠ 0 ∧ 2 ≠ 1)%Z ∨ "ab"%string = ""%string).
Proof. apply construction_raises_iff. unfold HASH_CELLS. simpl. lia. Defined.

Lemma backend_equivalence_witness :
  ∃ m0 m1 (r : result Q),
    __init__ 200 1 "ab" 0 = Some (Ok m0)
    ∧ __init__ 200 1 "ab" 1 = Some (Ok m1)
    ∧ log_probability 200 m0 "ba" = Some r
    ∧ log_probability 200 m1 "ba" = Some r
    ∧ ("ba"%string ≠ ""%string → ∃ x : Q, r = Ok x).
Proof.
  apply backend_equivalence; [done|]. unfold HASH_CELLS. simpl. lia.
Defined.

Lemma identical_corpora_tie_witness :
  ∃ score : Q,
    identify_speaker 200 "ab" "ab" "ba" 1 0 = Some (Ok (score, score, "B"%string)).
Proof.
  apply identical_corpora_tie; [by left|done|done|].
  unfold HASH_CELLS. simpl. lia.
Defined.

(** C10 as stated fails: an empty unknown text cannot be scored. *)
Lemma empty_unknown_text_raises :
  identify_speaker (F:=Q) 0 "ab" "ab" "" 1 1 = Some (Raise IndexError).
Proof. vm_compute. reflexivity. Qed.

End ModelRuns.

(** * Further properties of the Markov model *)

Section ModelCounts.

Import Markov MarkovFacts.

(** The pairs of circular substrings of [text], position by position. *)
Local Abbreviation circular_pairs text k :=
  ((λ j, (circular_substring text j k, circular_substring text j (S k)))
   <$> seq 0 (length text)).

Lemma count_circular_k text (k : nat) s :
  0 < length text → length s = k →
  count_of (str s) (flatten_pairs (circular_pairs text k)) = occurrences text k s.
Proof.
  intros Hn Hs. rewrite count_of_flatten. unfold occurrences.
  rewrite (filter_none (λ j, circular_substring text j (S k) = s)); [simpl; lia|].
  intros j _ Hj. apply (f_equal length) in Hj.
  rewrite circular_substring_length in Hj by done. lia.
Qed.

Lemma count_circular_Sk text (k : nat) s :
  0 < length text → length s = S k →
  count_of (str s) (flatten_pairs (circular_pairs text k)) = occurrences text (S k) s.
Proof.
  intros Hn Hs. rewrite count_of_flatten. unfold occurrences.
  rewrite (filter_none (λ j, circular_substring text j k = s)); [done|].
  intros j _ Hj. apply (f_equal length) in Hj.
  rewrite circular_substring_length in Hj by done. lia.
Qed.

(** What [__init__] builds for an order within the training text. *)
Lemma init_circular fuel (k : nat) speech state :
  1 ≤ k ≤ length (list_ascii_of_string speech) →
  Ascii.zero ∉ list_ascii_of_string speech →
  state = 0%Z ∨ state = 1%Z →
  2 * Nat.max HASH_CELLS (16 * String.length speech) < fuel →
  ∃ m, __init__ fuel (Z.of_nat k) speech state = Some (Ok m)
    ∧ Markov.k m = Z.of_nat k
    ∧ alphabet_len m = length (remove_dups (list_ascii_of_string speech))
    ∧ (∀ key, _access_values fuel m key
              = Some (Ok (Z.of_nat
                  (count_of key
                     (flatten_pairs (circular_pairs (list_ascii_of_string speech) k))))))
    ∧ (∀ key, key ∈ table_keys (table m)
              ↔ key ∈ flatten_pairs (circular_pairs (list_ascii_of_string speech) k)).
Proof.
  intros Hk Hz Hstate Hfuel.
  assert (speech ≠ ""%string) as Hne.
  { intros ->. simpl in Hk. lia. }
  destruct (init_total fuel (Z.of_nat k) speech state)
    as (pairs & m & Hpairs & E & Hkm & Ha & Hcount & Hkeys); [done..|].
  rewrite substrings_circular in Hpairs by done.
  injection Hpairs as <-.
  rewrite np_str_flatten in Hkeys by done.
  exists m. do 3 (split; [done|]). split; [|done].
  intros key. rewrite Hcount. by rewrite np_str_flatten.
Qed.

(** The two outcomes of [__init__]. *)
Lemma init_cases fuel k speech state :
  2 * Nat.max HASH_CELLS (16 * String.length speech) < fuel →
  (∃ m pairs,
      __init__ fuel k speech state = Some (Ok m)
      ∧ (state = 0%Z ∨ state = 1%Z) ∧ speech ≠ ""%string
      ∧ k_k1_len_substrings k (list_ascii_of_string speech) = Ok pairs
      ∧ Markov.k m = k
      ∧ alphabet_len m = length (remove_dups (list_ascii_of_string speech))
      ∧ ∀ key, _access_values fuel m key
               = Some (Ok (Z.of_nat (count_of key (np_str <$> flatten_pairs pairs)))))
  ∨ (∃ e, __init__ fuel k speech state = Some (Raise e)
          ∧ ¬ ((state = 0%Z ∨ state = 1%Z) ∧ speech ≠ ""%string)).
Proof.
  intros Hfuel.
  destruct (decide (state = 0%Z ∨ state = 1%Z)) as [Hstate|Hstate].
  - destruct (decide (speech = ""%string)) as [->|Hne].
    + right. exists IndexError. split; [by destruct Hstate as [-> | ->]|tauto].
    + left.
      destruct (init_total fuel k speech state)
        as (pairs & m & Hp & E & Hk & Ha & Hc & _); [done..|].
      exists m, pairs. done.
  - right. exists Exception. split; [|tauto].
    unfold __init__.
    destruct (Z.eqb_spec state 0); [tauto|].
    destruct (Z.eqb_spec state 1); [tauto|done].
Qed.

(** X1.  For an order [k] between 1 and the length of the text, the list of
    substring pairs that [_gen_table] and [log_probability] both build has
    one pair for each position of the text, in the order of the positions:
    the circular substring of [k] characters and the one of [k + 1]
    characters that start there. *)
Theorem substrings_are_circular (k : nat) (text : list ascii) :
  1 ≤ k ≤ length text →
  k_k1_len_substrings (Z.of_nat k) text
  = Ok ((λ j, (circular_substring text j k, circular_substring text j (S k)))
        <$> seq 0 (length text)).
Proof. apply substrings_circular. Qed.

(** X2.  The frequency table after construction, for an order between 1 and
    the length of a training text without NUL characters and with either
    table: every circular substring of [k] or [k + 1] characters is answered
    with the number of positions at which it starts, the keys are exactly
    these substrings, and [alphabet_len] is the number of distinct
    characters of the text. *)
Theorem frequency_table_contract fuel (k : nat) speech state :
  let text := list_ascii_of_string speech in
  1 ≤ k ≤ length text →
  Ascii.zero ∉ text →
  state = 0%Z ∨ state = 1%Z →
  2 * Nat.max HASH_CELLS (16 * String.length speech) < fuel →
  ∃ m, __init__ fuel (Z.of_nat k) speech state = Some (Ok m)
    ∧ (∀ start len, start < length text → len = k ∨ len = S k →
         _access_values fuel m (str (circular_substring text start len))
         = Some (Ok (Z.of_nat
                       (occurrences text len (circular_substring text start len)))))
    ∧ (∀ key, key ∈ table_keys (table m)
              ↔ ∃ start len, start < length text ∧ (len = k ∨ len = S k)
                             ∧ key = str (circular_substring text start len))
    ∧ (∃ alphabet, NoDup alphabet ∧ (∀ c, c ∈ alphabet ↔ c ∈ text)
                   ∧ alphabet_len m = length alphabet).
Proof.
  intros text Hk Hz Hstate Hfuel.
  assert (0 < length text) as Hn by lia.
  destruct (init_circular fuel k speech state)
    as (m & E & _ & Ha & Hc & Hkeys); [done..|].
  fold text in Ha, Hc, Hkeys.
  exists m. split; [done|]. split; [|split].
  - intros start len Hstart Hlen. rewrite Hc. do 3 f_equal.
    destruct Hlen as [-> | ->].
    + apply count_circular_k; [done|]. by apply circular_substring_length.
    + apply count_circular_Sk; [done|]. by apply circular_substring_length.
  - intros key. rewrite Hkeys, flatten_pairs_elem. split.
    + intros (j & Hj & Hkey). apply elem_of_seq in Hj.
      destruct Hkey as [-> | ->]; [exists j, k|exists j, (S k)];
        (split; [lia|]); (split; [|done]); [by left|by right].
    + intros (j & len & Hj & Hlen & ->). exists j.
      split; [apply elem_of_seq; lia|]. destruct Hlen as [-> | ->]; eauto.
  - exists (remove_dups text). split; [apply NoDup_remove_dups|].
    split; [apply elem_of_remove_dups|done].
Qed.

(** The bound on the order is needed: on the text ["a"] the order 2 counts
    the string ["aa"] three times, although it starts at one position. *)
Example short_text_miscounted :
  ∃ m, __init__ 0 2 "a" 1 = Some (Ok m)
    ∧ circular_substring ["a"%char] 0 2 = ["a"; "a"]%char
    ∧ occurrences ["a"%char] 2 ["a"; "a"]%char = 1
    ∧ _access_values 0 m "aa" = Some (Ok 3%Z).
Proof.
  eexists. split; [vm_compute; reflexivity|].
  split; [reflexivity|]. split; [vm_compute; reflexivity|].
  vm_compute. reflexivity.
Qed.

Section Floats.

Context {F : Type} `{FloatOps F}.

(** X3.  [log_probability] computes the Laplace-smoothed log-likelihood: for
    an order within both texts and a training text without NUL characters,
    the result is the sum, over the positions [j] of the evaluated text, of
    [log((n1 + 1) / (n0 + alphabet_len))], where [n0] and [n1] are the
    numbers of positions of the training text at which the circular
    substrings of [k] and of [k + 1] characters at [j] start. *)
Theorem log_probability_laplace fuel (k : nat) speech state text :
  let train := list_ascii_of_string speech in
  let eval := list_ascii_of_string text in
  1 ≤ k ≤ length train →
  1 ≤ k ≤ length eval →
  Ascii.zero ∉ train →
  state = 0%Z ∨ state = 1%Z →
  2 * Nat.max HASH_CELLS (16 * String.length speech) < fuel →
  ∃ m, __init__ fuel (Z.of_nat k) speech state = Some (Ok m)
    ∧ log_probability fuel m text
      = Some (Ok (fold_left fadd
                    ((λ j,
                        log (int_div
                               (Z.of_nat (occurrences train (S k)
                                            (circular_substring eval j (S k))) + 1)
                               (Z.of_nat (occurrences train k
                                            (circular_substring eval j k))
                                + Z.of_nat (length (remove_dups train)))))
                     <$> seq 0 (length eval))
                    fzero)).
Proof.
  intros train eval Hk Hke Hz Hstate Hfuel.
  assert (0 < length train) as Hn by lia.
  assert (0 < length eval) as Hne by lia.
  destruct (init_circular fuel k speech state)
    as (m & E & Hkm & Ha & Hc & _); [done..|].
  fold train in Ha, Hc.
  exists m. split; [done|].
  rewrite (log_probability_spec fuel m _ text Hc), Hkm.
  fold eval. rewrite substrings_circular by done.
  unfold log_likelihood. do 3 f_equal.
  change (map ?g ?l) with (g <$> l). rewrite <-list_fmap_compose.
  apply Forall_fmap_ext, Forall_forall. intros j _.
  cbn -[circular_substring]. rewrite Ha.
  rewrite count_circular_Sk, count_circular_k;
    [done|done|by apply circular_substring_length
    |done|by apply circular_substring_length].
Qed.

(** X4.  [identify_speaker] always returns or raises, and it returns a
    verdict exactly when the table selector is 0 or 1 and none of the three
    texts is empty. *)
Theorem identify_speaker_returns_iff fuel a b u k state :
  2 * Nat.max HASH_CELLS (16 * Nat.max (String.length a) (String.length b)) < fuel →
  (∃ r : result (F * F * string), identify_speaker fuel a b u k state = Some r)
  ∧ ((∃ x y v, identify_speaker fuel a b u k state = Some (Ok (x, y, v)))
     ↔ (state = 0%Z ∨ state = 1%Z)
       ∧ a ≠ ""%string ∧ b ≠ ""%string ∧ u ≠ ""%string).
Proof.
  intros Hfuel. unfold identify_speaker.
  destruct (init_cases fuel k a state)
    as [(ma & pa & Ea & Hstate & Hane & _ & Hka & _ & Hca)|(e & Ea & Hna)]; [lia| |].
  2:{ rewrite Ea. split; [eauto|]. split; [by intros (? & ? & ? & [=])|].
      intros (? & ? & _). tauto. }
  rewrite Ea.
  destruct (init_cases fuel k b state)
    as [(mb & pb & Eb & _ & Hbne & _ & Hkb & _ & Hcb)|(e & Eb & Hnb)]; [lia| |].
  2:{ rewrite Eb. split; [eauto|]. split; [by intros (? & ? & ? & [=])|].
      intros (? & ? & ? & _). tauto. }
  rewrite Eb.
  unfold norm_log_likelihood.
  rewrite (log_probability_spec fuel ma _ u Hca), (log_probability_spec fuel mb _ u Hcb).
  rewrite Hka, Hkb.
  destruct u as [|c u].
  - simpl. split; [eauto|]. split; [by intros (? & ? & ? & [=])|].
    intros (_ & _ & _ & ?). done.
  - destruct (substrings_cons k c (list_ascii_of_string u)) as [ps Hps].
    change (list_ascii_of_string (String c u)) with (c :: list_ascii_of_string u).
    rewrite Hps. cbn [String.length Nat.eqb].
    destruct (fgt _ _); (split; [eauto|]); (split; [done|]); eauto.
Qed.

(** X5.  The verdict of [identify_speaker].  With a valid table selector and
    three non-empty texts, the two scores are the log-probabilities of the
    unknown text under the two models, each divided by the length of the
    unknown text, and the verdict is ["A"] when the first score is greater
    than the second and ["B"] otherwise. *)
Theorem identify_speaker_verdict fuel a b u k state :
  state = 0%Z ∨ state = 1%Z →
  a ≠ ""%string → b ≠ ""%string → u ≠ ""%string →
  2 * Nat.max HASH_CELLS (16 * Nat.max (String.length a) (String.length b)) < fuel →
  ∃ ma mb (x y : F),
    __init__ fuel k a state = Some (Ok ma)
    ∧ __init__ fuel k b state = Some (Ok mb)
    ∧ log_probability fuel ma u = Some (Ok x)
    ∧ log_probability fuel mb u = Some (Ok y)
    ∧ identify_speaker fuel a b u k state
      = Some (Ok (fdiv x (Z.of_nat (String.length u)),
                  fdiv y (Z.of_nat (String.length u)),
                  if fgt (fdiv x (Z.of_nat (String.length u)))
                         (fdiv y (Z.of_nat (String.length u)))
                  then "A"%string else "B"%string)).
Proof.
  intros Hstate Ha Hb Hu Hfuel.
  destruct (init_cases fuel k a state)
    as [(ma & pa & Ea & _ & _ & _ & Hka & _ & Hca)|(e & _ & Hna)]; [lia| |tauto].
  destruct (init_cases fuel k b state)
    as [(mb & pb & Eb & _ & _ & _ & Hkb & _ & Hcb)|(e & _ & Hnb)]; [lia| |tauto].
  destruct (string_nonempty u Hu) as (c & l & Hcl).
  destruct (substrings_cons k c l) as [ps Hps].
  exists ma, mb. unfold identify_speaker, norm_log_likelihood. rewrite Ea, Eb.
  rewrite (log_probability_spec fuel ma _ u Hca), (log_probability_spec fuel mb _ u Hcb).
  rewrite Hka, Hkb, Hcl, Hps.
  destruct u as [|c' u']; [done|]. cbn [String.length Nat.eqb].
  do 2 eexists. do 4 (split; [reflexivity|]).
  by destruct (fgt _ _).
Qed.

(** X6.  [identify_speaker] does not depend on the table: with the
    [Hashtable] and with the [dict] it returns the same scores and verdict,
    or raises the same exception. *)
Theorem identify_speaker_backend_independent fuel a b u k :
  2 * Nat.max HASH_CELLS (16 * Nat.max (String.length a) (String.length b)) < fuel →
  ∃ r : result (F * F * string),
    identify_speaker fuel a b u k 0 = Some r
    ∧ identify_speaker fuel a b u k 1 = Some r.
Proof.
  intros Hfuel. unfold identify_speaker.
  destruct (init_cases fuel k a 0)
    as [(ma0 & pa & Ea0 & _ & Hane & Hpa & Hka0 & Haa0 & Hca0)|(e & _ & Hna)]; [lia| |].
  - destruct (init_cases fuel k a 1)
      as [(ma1 & pa' & Ea1 & _ & _ & Hpa' & Hka1 & Haa1 & Hca1)|(e & _ & Hna)];
      [lia| |tauto].
    assert (pa' = pa) as -> by congruence.
    rewrite Ea0, Ea1.
    destruct (init_cases fuel k b 0)
      as [(mb0 & pb & Eb0 & _ & Hbne & Hpb & Hkb0 & Hab0 & Hcb0)|(e & _ & Hnb)]; [lia| |].
    + destruct (init_cases fuel k b 1)
        as [(mb1 & pb' & Eb1 & _ & _ & Hpb' & Hkb1 & Hab1 & Hcb1)|(e & _ & Hnb)];
        [lia| |tauto].
      assert (pb' = pb) as -> by congruence.
      rewrite Eb0, Eb1. unfold norm_log_likelihood.
      rewrite (log_probability_spec fuel ma0 _ u Hca0),
              (log_probability_spec fuel ma1 _ u Hca1),
              (log_probability_spec fuel mb0 _ u Hcb0),
              (log_probability_spec fuel mb1 _ u Hcb1).
      rewrite Hka0, Hka1, Hkb0, Hkb1, Haa0, Haa1, Hab0, Hab1.
      destruct (k_k1_len_substrings k (list_ascii_of_string u)); [|eauto].
      destruct (String.length u =? 0); [eauto|].
      destruct (fgt _ _); eauto.
    + assert (b = ""%string) as -> by (destruct (decide (b = ""%string)); tauto).
      simpl. eauto.
  - assert (a = ""%string) as -> by (destruct (decide (a = ""%string)); tauto).
    simpl. eauto.
Qed.

End Floats.

End ModelCounts.

Section ModelCountsRuns.

Import Markov.

Lemma substrings_are_circular_witness :
  k_k1_len_substrings (Z.of_nat 2) ["a"; "b"; "c"]%char
  = Ok ((λ j, (circular_substring ["a"; "b"; "c"]%char j 2,
               circular_substring ["a"; "b"; "c"]%char j 3))
        <$> seq 0 3).
Proof. apply (substrings_are_circular 2 ["a"; "b"; "c"]%char). simpl. lia. Defined.

Lemma frequency_table_contract_witness :
  ∃ m, __init__ 200 (Z.of_nat 2) "aba" 0 = Some (Ok m)
    ∧ (∀ start len, start < 3 → len = 2 ∨ len = 3 →
         _access_values 200 m (str (circular_substring ["a"; "b"; "a"]%char start len))
         = Some (Ok (Z.of_nat
                       (occurrences ["a"; "b"; "a"]%char len
                          (circular_substring ["a"; "b"; "a"]%char start len)))))
    ∧ (∀ key, key ∈ table_keys (table m)
              ↔ ∃ start len, start < 3 ∧ (len = 2 ∨ len = 3)
                             ∧ key = str (circular_substring ["a"; "b"; "a"]%char start len))
    ∧ (∃ alphabet, NoDup alphabet ∧ (∀ c, c ∈ alphabet ↔ c ∈ ["a"; "b"; "a"]%char)
                   ∧ alphabet_len m = length alphabet).
Proof.
  apply (frequency_table_contract 200 2 "aba" 0).
  - simpl. lia.
  - intros Hin. repeat (apply elem_of_cons in Hin as [Hin|Hin]; [discriminate|]).
    by apply elem_of_nil in Hin.
  - by left.
  - unfold HASH_CELLS. simpl. lia.
Defined.

Lemma log_probability_laplace_witness :
  ∃ m, __init__ 200 (Z.of_nat 1) "aba" 1 = Some (Ok m)
    ∧ log_probability (F:=Q) 200 m "ab"
      = Some (Ok (fold_left fadd
                    ((λ j,
                        log (int_div
                               (Z.of_nat (occurrences ["a"; "b"; "a"]%char 2
                                            (circular_substring ["a"; "b"]%char j 2)) + 1)
                               (Z.of_nat (occurrences ["a"; "b"; "a"]%char 1
                                            (circular_substring ["a"; "b"]%char j 1))
                                + Z.of_nat (length (remove_dups ["a"; "b"; "a"]%char)))))
                     <$> seq 0 2)
                    fzero)).
Proof.
  apply (log_probability_laplace 200 1 "aba" 1 "ab").
  - simpl. lia.
  - simpl. lia.
  - intros Hin. repeat (apply elem_of_cons in Hin as [Hin|Hin]; [discriminate|]).
    by apply elem_of_nil in Hin.
  - by right.
  - unfold HASH_CELLS. simpl. lia.
Defined.

Lemma identify_speaker_returns_iff_witness :
  (∃ r : result (Q * Q * string), identify_speaker 200 "ab" "ba" "" 1 0 = Some r)
  ∧ ((∃ x y v, identify_speaker (F:=Q) 200 "ab" "ba" "" 1 0 = Some (Ok (x, y, v)))
     ↔ (0 = 0 ∨ 0 = 1)%Z
       ∧ "ab"%string ≠ ""%string ∧ "ba"%string ≠ ""%string ∧ ""%string ≠ ""%string).
Proof.
  apply identify_speaker_returns_iff. unfold HASH_CELLS. simpl. lia.
Defined.

Lemma identify_speaker_verdict_witness :
  ∃ ma mb (x y : Q),
    __init__ 200 1 "ab" 0 = Some (Ok ma)
    ∧ __init__ 200 1 "bb" 0 = Some (Ok mb)
    ∧ log_probability 200 ma "ab" = Some (Ok x)
    ∧ log_probability 200 mb "ab" = Some (Ok y)
    ∧ identify_speaker 200 "ab" "bb" "ab" 1 0
      = Some (Ok (fdiv x (Z.of_nat 2), fdiv y (Z.of_nat 2),
                  if fgt (fdiv x (Z.of_nat 2)) (fdiv y (Z.of_nat 2))
                  then "A"%string else "B"%string)).
Proof.
  apply (identify_speaker_verdict 200 "ab" "bb" "ab" 1 0); [by left|done..|].
  unfold HASH_CELLS. simpl. lia.
Defined.

Lemma identify_speaker_backend_independent_witness :
  ∃ r : result (Q * Q * string),
    identify_speaker 200 "ab" "bb" "ab" 1 0 = Some r
    ∧ identify_speaker 200 "ab" "bb" "ab" 1 1 = Some r.
Proof.
  apply identify_speaker_backend_independent. unfold HASH_CELLS. simpl. lia.
Defined.

End ModelCountsRuns.

(** * Further properties of the hash table *)

Section TableViews.

Import Hashtable HashtableFacts.

Context {L V : Type} {LF : LoadFactor L}.

Implicit Types (s : t L V) (tbl : list (Slot V)).

Lemma iter_zip tbl :
  omap (λ x, match x with Occupied k v true => Some (k, v) | _ => None end) tbl
  = zip (omap slot_key (filter (λ x, is_live x = true) tbl))
        (omap slot_value (filter (λ x, is_live x = true) tbl)).
Proof.
  induction tbl as [|x tbl IH]; [done|].
  destruct x as [|k v [|]].
  - rewrite filter_cons_False by (simpl; congruence). apply IH.
  - rewrite filter_cons_True by done. simpl. f_equal. apply IH.
  - rewrite filter_cons_False by (simpl; congruence). apply IH.
Qed.

Lemma keys_length tbl :
  length (omap slot_key (filter (λ x, is_live x = true) tbl))
  = length (filter (λ x, is_live x = true) tbl).
Proof.
  induction tbl as [|x tbl IH]; [done|].
  destruct x as [|k v [|]].
  - rewrite filter_cons_False by (simpl; congruence). apply IH.
  - rewrite filter_cons_True by done. simpl. f_equal. apply IH.
  - rewrite filter_cons_False by (simpl; congruence). apply IH.
Qed.

Lemma values_length tbl :
  length (omap slot_value (filter (λ x, is_live x = true) tbl))
  = length (filter (λ x, is_live x = true) tbl).
Proof.
  induction tbl as [|x tbl IH]; [done|].
  destruct x as [|k v [|]].
  - rewrite filter_cons_False by (simpl; congruence). apply IH.
  - rewrite filter_cons_True by done. simpl. f_equal. apply IH.
  - rewrite filter_cons_False by (simpl; congruence). apply IH.
Qed.

Lemma keys_live s key :
  key ∈ keys s ↔ ∃ v, holds (table s) key v.
Proof.
  unfold keys. rewrite list_elem_of_omap. split.
  - intros (x & Hx & Hk). pose proof Hx as Hx'.
    apply list_elem_of_filter in Hx' as [Hlive _].
    destruct x as [|k v [|]]; simplify_eq/=.
    exists v. by apply holds_filter.
  - intros [v Hv]. apply holds_filter in Hv.
    by exists (Occupied key v true).
Qed.

Lemma contains_keys s key : __contains__ s key = true ↔ key ∈ keys s.
Proof.
  unfold __contains__. rewrite existsb_exists. split.
  - intros (k & Hin & Heq). apply String.eqb_eq in Heq as ->.
    by apply list_elem_of_In.
  - intros Hin. exists key. split; [by apply list_elem_of_In|apply String.eqb_refl].
Qed.

(** X7.  The views of a table agree with one another, whatever the table
    holds: [__iter__] yields the keys paired with the values, [__len__] is
    their number, [__bool__] tells whether there is one, and [__contains__]
    and [keys] know exactly the keys of the live entries. *)
Theorem table_views_agree s :
  __iter__ s = zip (keys s) (values s)
  ∧ length (keys s) = __len__ s
  ∧ length (values s) = __len__ s
  ∧ (__bool__ s = true ↔ keys s ≠ [])
  ∧ (∀ key, __contains__ s key = true ↔ key ∈ keys s)
  ∧ (∀ key, key ∈ keys s ↔ ∃ v, holds (table s) key v).
Proof.
  split; [apply iter_zip|]. split; [apply keys_length|].
  split; [apply values_length|]. split; [|split].
  - unfold __bool__, __len__. rewrite <-(keys_length (table s)). fold (keys s).
    destruct (keys s); simpl; split; done.
  - apply contains_keys.
  - apply keys_live.
Qed.

End TableViews.

Section TableCalls.

Import Hashtable HashtableFacts.

Context {L V : Type} {LF : LoadFactor L}.

Implicit Types (s : t L V) (tbl : list (Slot V)).

Lemma set_table_id s : set_table s (table s) = s.
Proof. by destruct s. Qed.

(** ** What [__getitem__] returns *)

Lemma getitem_loop_sound fuel s key a r :
  wf s → getitem_loop fuel s key a = Some r →
  ∃ v, r = Ok v ∧ (holds (table s) key v ∨ v = defVal s).
Proof.
  intros [Hlen Hcap]. revert a. induction fuel as [|fuel IH]; intros a; [done|].
  simpl.
  assert (wrap (capacity s) a < length (table s)) as Hlt
    by (rewrite Hlen; by apply wrap_lt).
  destruct (lookup_lt_is_Some_2 _ _ Hlt) as [x Hx]. rewrite Hx.
  destruct x as [|k v l].
  - intros [= <-]. eauto.
  - destruct (String.eqb_spec k key) as [->|]; simpl; [destruct l; simpl|]; try apply IH.
    intros [= <-]. exists v. split; [done|]. left. by eexists.
Qed.

(** X10.  On a table with its [capacity] cells, [__getitem__] raises
    nothing, and what it returns is the value of a live entry of the key or
    the default value. *)
Theorem getitem_returns_entry_or_default fuel s key r :
  wf s → __getitem__ fuel s key = Some r →
  ∃ v, r = Ok v ∧ (holds (table s) key v ∨ v = defVal s).
Proof.
  intros Hwf. pose proof Hwf as [Hlen Hcap].
  unfold __getitem__. rewrite _hash_ok by done.
  assert (hash_of (capacity s) key < length (table s)) as Hlt
    by (rewrite Hlen; by apply hash_of_lt).
  destruct (lookup_lt_is_Some_2 _ _ Hlt) as [x Hx]. rewrite Hx.
  destruct x as [|k v [|]]; try by apply getitem_loop_sound.
  destruct (String.eqb_spec k key) as [->|]; [|by apply getitem_loop_sound].
  intros [= <-]. exists v. split; [done|]. left. by eexists.
Qed.

(** ** What [__delitem__] does *)

Lemma delitem_loop_precise fuel s key a s' r :
  wf s → delitem_loop fuel s key a = Some (s', r) →
  (r = Ok tt
   ∧ ∃ j v, table s !! j = Some (Occupied key v true)
            ∧ s' = set_table s (<[j := Occupied key v false]> (table s)))
  ∨ (r = Raise KeyError ∧ s' = s).
Proof.
  intros [Hlen Hcap]. revert a. induction fuel as [|fuel IH]; intros a; [done|].
  simpl.
  assert (wrap (capacity s) a < length (table s)) as Hlt
    by (rewrite Hlen; by apply wrap_lt).
  destruct (lookup_lt_is_Some_2 _ _ Hlt) as [x Hx]. rewrite Hx.
  destruct x as [|k v l].
  - intros [= <- <-]. by right.
  - destruct (String.eqb_spec k key) as [->|]; simpl; [destruct l; simpl|]; try apply IH.
    intros [= <- <-]. left. split; [done|]. eauto.
Qed.

Lemma delitem_precise fuel s key s' r :
  wf s → __delitem__ fuel s key = Some (s', r) →
  (r = Ok tt
   ∧ ∃ j v, table s !! j = Some (Occupied key v true)
            ∧ s' = set_table s (<[j := Occupied key v false]> (table s)))
  ∨ (r = Raise KeyError ∧ s' = s).
Proof.
  intros Hwf. pose proof Hwf as [Hlen Hcap].
  unfold __delitem__. rewrite _hash_ok by done.
  assert (hash_of (capacity s) key < length (table s)) as Hlt
    by (rewrite Hlen; by apply hash_of_lt).
  destruct (lookup_lt_is_Some_2 _ _ Hlt) as [x Hx]. rewrite Hx.
  destruct x as [|k v [|]]; try by apply delitem_loop_precise.
  destruct (String.eqb_spec k key) as [->|]; [|by apply delitem_loop_precise].
  intros [= <- <-]. left. split; [done|]. eauto.
Qed.

Lemma tombstone_len s j key v :
  table s !! j = Some (Occupied key v true) →
  __len__ (set_table s (<[j := Occupied key v false]> (table s))) + 1 = __len__ s.
Proof.
  intros Hj. unfold __len__. simpl.
  pose proof (live_count_insert (table s) j _ (Occupied key v false) Hj) as E.
  simpl in E. lia.
Qed.

Lemma tombstone_holds tbl j key v k w :
  tbl !! j = Some (Occupied key v true) →
  holds (<[j := Occupied key v false]> tbl) k w
  ↔ ∃ i, i ≠ j ∧ tbl !! i = Some (Occupied k w true).
Proof.
  intros Hj. split.
  - intros [i Hi]. exists i.
    apply list_lookup_insert_Some in Hi as [(_ & [=] & _)|[? ?]]. done.
  - intros (i & Hne & Hi). exists i. by rewrite list_lookup_insert_ne.
Qed.

(** X11.  [__delitem__] either flags exactly one live entry of the key as
    deleted, which makes the table one entry shorter and changes nothing else,
    or raises [KeyError] and leaves the table as it was.  It never empties a
    cell and never adds an entry. *)
Theorem delitem_flags_one_entry fuel s key s' r :
  wf s → __delitem__ fuel s key = Some (s', r) →
  (r = Ok tt
   ∧ ∃ j v, table s !! j = Some (Occupied key v true)
            ∧ s' = set_table s (<[j := Occupied key v false]> (table s))
            ∧ __len__ s' + 1 = __len__ s)
  ∨ (r = Raise KeyError ∧ s' = s).
Proof.
  intros Hwf Hdel.
  destruct (delitem_precise fuel s key s' r Hwf Hdel)
    as [(-> & j & v & Hj & ->)|[-> ->]]; [left|by right].
  split; [done|]. exists j, v. split; [done|]. split; [done|].
  by apply tombstone_len.
Qed.

(** ** A key without a live entry *)

(** All cells on the way are taken and none is a live entry of the key: the
    scans of [__getitem__] and [__delitem__] pass over them. *)
Lemma delitem_loop_skip s key h n :
  wf s →
  ∀ d0 a fuel,
    wrap (capacity s) a = probe (capacity s) h d0 →
    (∀ d', d0 ≤ d' < d0 + n →
       ∃ k v l, table s !! probe (capacity s) h d' = Some (Occupied k v l)
                ∧ String.eqb k key && l = false) →
    ∃ a', wrap (capacity s) a' = probe (capacity s) h (d0 + n)
      ∧ delitem_loop (n + fuel) s key a = delitem_loop fuel s key a'.
Proof.
  intros [Hlen Hcap]. induction n as [|n IH]; intros d0 a fuel Ha Hskip.
  - exists a. split; [by rewrite Nat.add_0_r|done].
  - destruct (Hskip d0) as (k & v & l & Hx & Hne); [lia|].
    simpl. rewrite Ha, Hx, Hne.
    destruct (IH (S d0) (probe (capacity s) h d0 + 1) fuel) as (a' & Ha' & E).
    { by apply wrap_probe_succ. }
    { intros d' Hd'. apply Hskip. lia. }
    exists a'. split; [|done]. rewrite Ha'. f_equal. lia.
Qed.

Lemma not_live_skip s key h d :
  wf s →
  (∀ j v, table s !! j ≠ Some (Occupied key v true)) →
  table s !! probe (capacity s) h d ≠ Some Empty →
  ∃ k v l, table s !! probe (capacity s) h d = Some (Occupied k v l)
           ∧ String.eqb k key && l = false.
Proof.
  intros [Hlen Hcap] Hnl Hne.
  assert (probe (capacity s) h d < length (table s)) as Hlt
    by (rewrite Hlen; by apply probe_lt).
  destruct (lookup_lt_is_Some_2 _ _ Hlt) as [x Hx].
  destruct x as [|k v l]; [done|]. exists k, v, l. split; [done|].
  destruct (String.eqb_spec k key) as [->|]; [|done].
  destruct l; [|done]. by destruct (Hnl _ _ Hx).
Qed.

Lemma first_empty_of_empty cap tbl h e :
  h < cap → length tbl = cap → tbl !! e = Some Empty →
  ∃ d, first_empty cap tbl h d.
Proof.
  intros Hh Hlen He.
  assert (He' : e < cap) by (rewrite <- Hlen; by eapply lookup_lt_Some).
  destruct (probe_reaches cap h e Hh He') as (d & Hd & Hp).
  destruct (first_empty_scan cap tbl h (S d)) as [Hnone|(d0 & _ & Hfe)];
    [lia| |by exists d0].
  exfalso. apply (Hnone d); [lia|]. by rewrite Hp.
Qed.

Lemma missing_key_default fuel s key e :
  wf s → table s !! e = Some Empty →
  (∀ j v, table s !! j ≠ Some (Occupied key v true)) →
  capacity s < fuel →
  __getitem__ fuel s key = Some (Ok (defVal s))
  ∧ __delitem__ fuel s key = Some (s, Raise KeyError).
Proof.
  intros Hwf He Hnl Hfuel. pose proof Hwf as [Hlen Hcap].
  set (h := hash_of (capacity s) key).
  assert (Hh : h < capacity s) by by apply hash_of_lt.
  destruct (first_empty_of_empty (capacity s) (table s) h e) as (d & Hd & Hde & Hfull);
    [done..|].
  assert (Hskip : ∀ d', 0 ≤ d' < 0 + d →
            ∃ k v l, table s !! probe (capacity s) h d' = Some (Occupied k v l)
                     ∧ String.eqb k key && l = false).
  { intros d' Hd'. apply not_live_skip; [done..|]. apply Hfull. lia. }
  assert (Hw : wrap (capacity s) h = probe (capacity s) h 0).
  { rewrite probe_0 by done. by apply wrap_small. }
  assert (table s !! h ≠ Some Empty → 0 < d) as Hpos.
  { intros Hne. destruct d; [|lia]. by rewrite probe_0 in Hde. }
  split.
  - assert (Hloop : getitem_loop fuel s key h = Some (Ok (defVal s))).
    { destruct (getitem_loop_skip s key h d Hwf 0 h (fuel - d) Hw Hskip)
        as (a' & Ha' & E).
      replace (d + (fuel - d)) with fuel in E by lia. rewrite E.
      destruct (fuel - d) as [|f] eqn:Ef; [lia|].
      simpl. rewrite Ha'. simpl. by rewrite Hde. }
    unfold __getitem__. rewrite _hash_ok by done. fold h.
    destruct (table s !! h) as [[|k v0 [|]]|] eqn:Hx; try done.
    + destruct (String.eqb_spec k key) as [->|]; [|done].
      by destruct (Hnl _ _ Hx).
    + apply lookup_ge_None in Hx. lia.
  - assert (Hloop : delitem_loop fuel s key h = Some (s, Raise KeyError)).
    { destruct (delitem_loop_skip s key h d Hwf 0 h (fuel - d) Hw Hskip)
        as (a' & Ha' & E).
      replace (d + (fuel - d)) with fuel in E by lia. rewrite E.
      destruct (fuel - d) as [|f] eqn:Ef; [lia|].
      simpl. rewrite Ha'. simpl. by rewrite Hde. }
    unfold __delitem__. rewrite _hash_ok by done. fold h.
    destruct (table s !! h) as [[|k v0 [|]]|] eqn:Hx; try done.
    + destruct (String.eqb_spec k key) as [->|]; [|done].
      by destruct (Hnl _ _ Hx).
    + apply lookup_ge_None in Hx. lia.
Qed.

(** X12.  On a table with an empty cell, a key that has no live entry is
    answered with the default value by [__getitem__], with [KeyError] and an
    unchanged table by [__delitem__], and with [False] by [__contains__]. *)
Theorem missing_key_with_empty_cell fuel s key e :
  wf s → table s !! e = Some Empty →
  (∀ j v, table s !! j ≠ Some (Occupied key v true)) →
  capacity s < fuel →
  __getitem__ fuel s key = Some (Ok (defVal s))
  ∧ __delitem__ fuel s key = Some (s, Raise KeyError)
  ∧ __contains__ s key = false.
Proof.
  intros Hwf He Hnl Hfuel.
  destruct (missing_key_default fuel s key e) as [Hget Hdel]; [done..|].
  split; [done|]. split; [done|].
  apply not_true_is_false. intros Hin.
  apply contains_keys, keys_live in Hin as [v [j Hj]]. by destruct (Hnl j v).
Qed.

(** X13.  Without an empty cell the scans of [__getitem__] and of
    [__delitem__] for a key that has no live entry never end: deleted
    entries do not stop them, and they count no circuit. *)
Theorem missing_key_without_empty_cell fuel s key :
  wf s →
  (∀ j, table s !! j ≠ Some Empty) →
  (∀ j v, table s !! j ≠ Some (Occupied key v true)) →
  __getitem__ fuel s key = None ∧ __delitem__ fuel s key = None.
Proof.
  intros Hwf Hfull Hnl. pose proof Hwf as [Hlen Hcap].
  set (h := hash_of (capacity s) key).
  assert (Hh : h < capacity s) by by apply hash_of_lt.
  assert (Hskip : ∀ n d', 0 ≤ d' < 0 + n →
            ∃ k v l, table s !! probe (capacity s) h d' = Some (Occupied k v l)
                     ∧ String.eqb k key && l = false).
  { intros n d' Hd'. by apply not_live_skip. }
  assert (Hw : wrap (capacity s) h = probe (capacity s) h 0).
  { rewrite probe_0 by done. by apply wrap_small. }
  split.
  - assert (Hloop : getitem_loop fuel s key h = None).
    { destruct (getitem_loop_skip s key h fuel Hwf 0 h 0 Hw (Hskip fuel))
        as (a' & Ha' & E).
      rewrite Nat.add_0_r in E. by rewrite E. }
    unfold __getitem__. rewrite _hash_ok by done. fold h.
    destruct (table s !! h) as [[|k v0 [|]]|] eqn:Hx; try done.
    + destruct (String.eqb_spec k key) as [->|]; [|done].
      by destruct (Hnl _ _ Hx).
    + apply lookup_ge_None in Hx. lia.
  - assert (Hloop : delitem_loop fuel s key h = None).
    { destruct (delitem_loop_skip s key h fuel Hwf 0 h 0 Hw (Hskip fuel))
        as (a' & Ha' & E).
      rewrite Nat.add_0_r in E. by rewrite E. }
    unfold __delitem__. rewrite _hash_ok by done. fold h.
    destruct (table s !! h) as [[|k v0 [|]]|] eqn:Hx; try done.
    + destruct (String.eqb_spec k key) as [->|]; [|done].
      by destruct (Hnl _ _ Hx).
    + apply lookup_ge_None in Hx. lia.
Qed.

End TableCalls.

Section TableWrites.

Import Hashtable HashtableFacts.

Context {L V : Type} {LF : LoadFactor L}.

Implicit Types (s : t L V) (tbl : list (Slot V)).

(** ** Reading back an assignment *)

(** The scan of [__setitem__] leaves the cells it has passed as they are,
    and the scan of [__getitem__] over the table it leaves finds the new
    value. *)
Lemma setitem_loop_read s key value h fuel :
  0 < capacity s →
  ∀ tbl a iter tbl',
    length tbl = capacity s →
    wrap (capacity s) a = probe (capacity s) h iter →
    setitem_loop fuel (capacity s) tbl key value a iter = Some (tbl', Ok tt) →
    length tbl' = capacity s
    ∧ (∀ d, d < iter →
         tbl' !! probe (capacity s) h d = tbl !! probe (capacity s) h d)
    ∧ ∀ fuel', capacity s - iter < fuel' →
        getitem_loop fuel' (set_table s tbl') key a = Some (Ok value).
Proof.
  intros Hcap. induction fuel as [|fuel IH]; intros tbl a iter tbl' Hlen Ha; [done|].
  simpl. destruct (Nat.leb_spec (capacity s) iter) as [|Hiter]; [done|].
  rewrite Ha.
  assert (probe (capacity s) h iter < length tbl) as Hlt
    by (rewrite Hlen; by apply probe_lt).
  destruct (lookup_lt_is_Some_2 _ _ Hlt) as [x Hx]. rewrite Hx.
  assert (Hother : ∀ d, d < iter →
            probe (capacity s) h iter ≠ probe (capacity s) h d).
  { intros d Hd Heq. apply probe_inj in Heq; lia. }
  assert (Hplaced : ∀ fuel', capacity s - iter < fuel' →
            getitem_loop fuel'
              (set_table s (<[probe (capacity s) h iter := Occupied key value true]> tbl))
              key a = Some (Ok value)).
  { intros [|fuel'] Hf; [lia|]. simpl. rewrite Ha.
    rewrite list_lookup_insert_eq by done. simpl.
    by rewrite String.eqb_refl. }
  destruct x as [|k v [|]].
  - intros [= <-]. rewrite length_insert. split; [done|]. split; [|done].
    intros d Hd. by rewrite list_lookup_insert_ne by by apply Hother.
  - intros Hrec. replace (iter + 1) with (S iter) in Hrec by lia.
    apply IH in Hrec as (Hlen' & Hkeep & Hread).
    2:{ destruct (String.eqb k key); [by rewrite length_insert|done]. }
    2:{ by apply wrap_probe_succ. }
    split; [done|]. split.
    + intros d Hd. rewrite Hkeep by lia.
      destruct (String.eqb k key); [|done].
      by rewrite list_lookup_insert_ne by by apply Hother.
    + intros [|fuel'] Hf; [lia|]. simpl. rewrite Ha.
      rewrite (Hkeep iter) by lia.
      destruct (String.eqb_spec k key) as [->|Hne].
      * rewrite list_lookup_insert_eq by done. simpl.
        by rewrite String.eqb_refl.
      * rewrite Hx. simpl. apply String.eqb_neq in Hne. rewrite Hne. simpl.
        apply Hread. lia.
  - intros [= <-]. rewrite length_insert. split; [done|]. split; [|done].
    intros d Hd. by rewrite list_lookup_insert_ne by by apply Hother.
Qed.

Lemma setitem_place_read fuel fuel' s key value s' :
  wf s → setitem_place fuel s key value = Some (s', Ok tt) →
  capacity s' < fuel' →
  wf s' ∧ __getitem__ fuel' s' key = Some (Ok value).
Proof.
  intros [Hlen Hcap]. unfold setitem_place. rewrite _hash_ok by done.
  set (h := hash_of (capacity s) key).
  assert (Hh : h < capacity s) by by apply hash_of_lt.
  assert (h < length (table s)) as Hlt by lia.
  destruct (lookup_lt_is_Some_2 _ _ Hlt) as [x Hx]. rewrite Hx.
  destruct (match x with Empty => true | Occupied k _ live => negb live || String.eqb k key end)
    eqn:Hprimary.
  - intros [= <-] Hfuel. split; [split; simpl; [by rewrite length_insert|done]|].
    unfold __getitem__. rewrite _hash_ok by done. simpl. fold h.
    rewrite list_lookup_insert_eq by done. by rewrite String.eqb_refl.
  - destruct x as [|k v l]; [done|].
    apply orb_false_iff in Hprimary as [Hl Hk]. apply negb_false_iff in Hl as ->.
    destruct (setitem_loop fuel (capacity s) (table s) key value h 0)
      as [[tbl' r]|] eqn:Hloop; [|done].
    intros [= <- ->] Hfuel. simpl in Hfuel.
    destruct fuel as [|fuel]; [done|].
    pose proof Hloop as Hloop'. simpl in Hloop'.
    destruct (Nat.leb_spec (capacity s) 0); [lia|].
    rewrite (wrap_small _ h), Hx, Hk in Hloop' by done.
    destruct (setitem_loop_read s key value h fuel Hcap (table s) (h + 1) 1 tbl')
      as (Hlen' & Hkeep & Hread); [done| |done|].
    { rewrite <-(probe_0 (capacity s) h) at 1 by done. by apply wrap_probe_succ. }
    split; [by split|].
    unfold __getitem__. rewrite _hash_ok by done. simpl. fold h.
    specialize (Hkeep 0). rewrite probe_0 in Hkeep by done.
    rewrite Hkeep, Hx, Hk by lia.
    destruct fuel' as [|fuel']; [lia|]. simpl.
    rewrite (wrap_small _ h), Hkeep, Hx, Hk by (done || lia). simpl.
    apply Hread. lia.
Qed.

Lemma setitem_loop_length fuel cap tbl key value a iter tbl' r :
  setitem_loop fuel cap tbl key value a iter = Some (tbl', r) →
  length tbl' = length tbl.
Proof.
  revert tbl a iter. induction fuel as [|fuel IH]; intros tbl a iter; [done|].
  simpl. destruct (cap <=? iter); [by intros [= <- _]|].
  destruct (tbl !! wrap cap a) as [[|k v [|]]|]; try by intros [= <- _].
  - by intros [= <- _]; rewrite length_insert.
  - intros Hrec. apply IH in Hrec. rewrite Hrec.
    destruct (String.eqb k key); [by rewrite length_insert|done].
  - by intros [= <- _]; rewrite length_insert.
Qed.

Lemma setitem_place_wf fuel s key value s' r :
  wf s → setitem_place fuel s key value = Some (s', r) → wf s'.
Proof.
  intros [Hlen Hcap]. unfold setitem_place.
  destruct (_hash s key) as [h|e]; [|by intros [= <- _]].
  destruct (table s !! h) as [x|]; [|by intros [= <- _]].
  destruct (match x with Empty => true | Occupied k _ live => negb live || String.eqb k key end).
  - intros [= <- _]. split; simpl; [by rewrite length_insert|done].
  - destruct (setitem_loop _ _ _ _ _ _ _) as [[tbl' r']|] eqn:Hloop; [|done].
    intros [= <- _]. apply setitem_loop_length in Hloop.
    split; simpl; [congruence|done].
Qed.

Lemma reinsert_wf fuel (l : list (Slot V)) :
  ∀ s s' r, wf s → reinsert fuel s l = Some (s', r) → wf s'.
Proof.
  induction l as [|x l IH]; intros s s' r Hwf; simpl.
  - by intros [= <- _].
  - destruct x as [|k v live]; [by apply IH|].
    destruct (setitem_place fuel s k v) as [[s1 [[]|e]]|] eqn:E; [| |done].
    + apply IH. by eapply setitem_place_wf.
    + intros [= <- _]. by eapply setitem_place_wf.
Qed.

Lemma _rehash_wf fuel s s' r :
  0 < capacity s * growthFactor s → _rehash fuel s = Some (s', r) → wf s'.
Proof.
  intros Hcap. unfold _rehash.
  destruct (reinsert _ _ _) as [[s2 [[]|e]]|] eqn:Hre; [| |done].
  - intros [= <- _]. apply reinsert_wf in Hre as [? ?]; [by split|].
    split; simpl; [by rewrite length_replicate|done].
  - intros [= <- _]. apply reinsert_wf in Hre; [done|].
    split; simpl; [by rewrite length_replicate|done].
Qed.

(** X14.  Reading back an assignment.  Whatever the table held, deleted
    entries and entries stored twice included: once [table[key] = value] has
    returned, [table[key]] returns [value]. *)
Theorem assignment_is_read_back fuel fuel' s key value s' :
  wf s → 0 < growthFactor s →
  __setitem__ fuel s key value = Some (s', Ok tt) →
  capacity s' < fuel' →
  wf s' ∧ __getitem__ fuel' s' key = Some (Ok value).
Proof.
  intros Hwf Hgf. unfold __setitem__.
  destruct (negb (rehashing s) && overloaded s); [|by apply setitem_place_read].
  destruct (_rehash fuel s) as [[s1 [[]|e]]|] eqn:Hr; [|done..].
  apply setitem_place_read. eapply _rehash_wf; [|done].
  destruct Hwf as [_ ?]. nia.
Qed.

(** ** A table that is full *)

(** X15.  When every cell holds a live entry of another key and the call
    does not grow the table, [__setitem__] makes one circuit, raises, and
    leaves the table as it was. *)
Theorem full_table_raises fuel s key value :
  wf s →
  rehashing s = true ∨ overloaded s = false →
  (∀ j, j < capacity s →
     ∃ k v, table s !! j = Some (Occupied k v true) ∧ k ≠ key) →
  capacity s < fuel →
  __setitem__ fuel s key value = Some (s, Raise RunTimeError).
Proof.
  intros [Hlen Hcap] Hgrow Hfull Hfuel. unfold __setitem__.
  assert (negb (rehashing s) && overloaded s = false) as ->.
  { destruct Hgrow as [-> | ->]; [done|apply andb_false_r]. }
  unfold setitem_place. rewrite _hash_ok by done.
  set (h := hash_of (capacity s) key).
  assert (Hh : h < capacity s) by by apply hash_of_lt.
  destruct (Hfull h Hh) as (k & v & Hx & Hne). rewrite Hx.
  apply String.eqb_neq in Hne. rewrite Hne. simpl.
  destruct (setitem_loop_skip (capacity s) (table s) key value h (capacity s) Hcap
              0 h 0 (fuel - capacity s)) as (a' & Ha' & E).
  { rewrite probe_0 by done. by apply wrap_small. }
  { lia. }
  { intros d' Hd'.
    destruct (Hfull (probe (capacity s) h d')) as (k' & v' & Hx' & Hne');
      [by apply probe_lt|].
    exists k', v'. split; [done|]. by apply String.eqb_neq. }
  replace (capacity s + (fuel - capacity s)) with fuel in E by lia. rewrite E.
  destruct (fuel - capacity s) as [|f] eqn:Ef; [lia|].
  simpl. destruct (Nat.leb_spec (capacity s) (capacity s)); [|lia].
  by rewrite set_table_id.
Qed.

(** ** A new table *)

(** X8.  A new table with at least one cell is empty in every view:
    no key, no value, length 0, false as a condition; every key is answered
    with the default value, and deleting any key raises [KeyError]. *)
Theorem fresh_table_is_empty cap (dv : V) (lf : L) gf key fuel :
  0 < cap → 0 < fuel →
  let s := __init__ cap dv lf gf in
  __len__ s = 0 ∧ keys s = [] ∧ values s = [] ∧ __iter__ s = []
  ∧ __bool__ s = false ∧ __contains__ s key = false
  ∧ __getitem__ fuel s key = Some (Ok dv)
  ∧ __delitem__ fuel s key = Some (s, Raise KeyError).
Proof.
  intros Hcap Hfuel s.
  assert (filter (λ x : Slot V, is_live x = true) (replicate cap Empty) = []) as Hf.
  { apply length_zero_iff_nil, live_count_replicate. }
  assert (table s !! hash_of cap key = Some Empty) as Hx.
  { apply lookup_replicate. split; [done|]. by apply hash_of_lt. }
  unfold __bool__, __contains__, __len__, keys, values. simpl. rewrite Hf. simpl.
  do 3 (split; [done|]).
  split.
  { unfold __iter__. simpl. clear. induction cap; [done|]. simpl. done. }
  do 2 (split; [done|]).
  destruct fuel as [|fuel]; [lia|].
  split.
  - unfold __getitem__. rewrite _hash_ok by done. simpl capacity. rewrite Hx.
    simpl. rewrite wrap_small by by apply hash_of_lt.
    simpl in Hx. by rewrite Hx.
  - unfold __delitem__. rewrite _hash_ok by done. simpl capacity. rewrite Hx.
    simpl. rewrite wrap_small by by apply hash_of_lt.
    simpl in Hx. by rewrite Hx.
Qed.

(** X9.  A table created with capacity 0 serves no key: reading, assigning
    and deleting raise [ZeroDivisionError] from [_hash] for a non-empty key
    and [IndexError] for the empty key, and growth does not help, since the
    capacity stays 0. *)
Theorem zero_capacity_table_raises (dv : V) (lf : L) gf key value fuel :
  let s := __init__ 0 dv lf gf in
  let e := match key with EmptyString => IndexError | _ => ZeroDivisionError end in
  __getitem__ fuel s key = Some (Raise e)
  ∧ __setitem__ fuel s key value = Some (s, Raise e)
  ∧ __delitem__ fuel s key = Some (s, Raise e).
Proof.
  intros s e. unfold __setitem__.
  destruct (overloaded s); simpl; destruct key; simpl; done.
Qed.

End TableWrites.

Section Sound.

Import Hashtable HashtableFacts.

Context {L V : Type} {LF : LoadFactor L}.

Implicit Types (s : t L V) (tbl : list (Slot V)).

Lemma clean_sound s : clean s → sound s.
Proof.
  intros [Hwf Hnt Hu Hr]. split; [done| |].
  - intros i j k v v' Hi Hj. by eapply Hu.
  - intros j k v Hj. by eapply Hr.
Qed.

(** ** Room for a new entry *)

Lemma exists_free tbl :
  length (filter (λ x, is_live x = true) tbl) < length tbl →
  ∃ e x, tbl !! e = Some x ∧ is_live x = false.
Proof.
  induction tbl as [|x tbl IH]; intros Hlt; simpl in *; [lia|].
  destruct (is_live x) eqn:Hx; [|by exists 0, x].
  rewrite filter_cons_True in Hlt by done. simpl in Hlt.
  destruct IH as (e & y & He & Hy); [lia|]. by exists (S e), y.
Qed.

Lemma first_free_scan cap tbl h n :
  length tbl = cap → 0 < cap → n ≤ cap →
  (∀ d', d' < n → ∃ k v, tbl !! probe cap h d' = Some (Occupied k v true))
  ∨ (∃ d0, d0 < n ∧ first_free cap tbl h d0).
Proof.
  intros Hlen Hcap. induction n as [|n IH]; intros Hn; [left; intros; lia|].
  destruct IH as [Hall|(d0 & Hd0 & Hff)]; [lia| |right; exists d0; split; [lia|done]].
  assert (probe cap h n < length tbl) as Hlt by (rewrite Hlen; by apply probe_lt).
  destruct (lookup_lt_is_Some_2 _ _ Hlt) as [x Hx].
  destruct (is_live x) eqn:Hl.
  - left. intros d' Hd'. destruct (decide (d' = n)) as [->|]; [|apply Hall; lia].
    destruct x as [|k v [|]]; try done. eauto.
  - right. exists n. split; [lia|]. split; [lia|]. split; [eauto|done].
Qed.

Lemma first_free_exists cap tbl h :
  h < cap → length tbl = cap →
  length (filter (λ x, is_live x = true) tbl) < cap →
  ∃ d0, first_free cap tbl h d0.
Proof.
  intros Hh Hlen Hroom.
  destruct (exists_free tbl) as (e & x & He & Hx); [lia|].
  assert (He' : e < cap) by (rewrite <- Hlen; by eapply lookup_lt_Some).
  destruct (probe_reaches cap h e Hh He') as (d & Hd & Hp).
  destruct (first_free_scan cap tbl h (S d)) as [Hall|(d0 & _ & Hff)];
    [done|lia|lia| |by exists d0].
  exfalso. destruct (Hall d) as (k & v & Hkv); [lia|].
  rewrite Hp, He in Hkv. by simplify_eq.
Qed.

(** ** Assigning a key that has no live entry *)

Lemma setitem_place_free fuel s key value d :
  wf s →
  (∀ j v, table s !! j ≠ Some (Occupied key v true)) →
  first_free (capacity s) (table s) (hash_of (capacity s) key) d →
  capacity s < fuel →
  setitem_place fuel s key value
  = Some (set_table s
            (<[probe (capacity s) (hash_of (capacity s) key) d
                 := Occupied key value true]> (table s)), Ok tt).
Proof.
  intros [Hlen Hcap] Hnl (Hd & (y & Hy & Hyl) & Hbefore) Hfuel.
  set (h := hash_of (capacity s) key) in *.
  assert (Hh : h < capacity s) by by apply hash_of_lt.
  unfold setitem_place. rewrite _hash_ok by done. fold h.
  destruct (table s !! h) as [x|] eqn:Hx;
    [|apply lookup_ge_None in Hx; lia].
  destruct (is_live x) eqn:Hxl.
  - destruct x as [|k v [|]]; try done.
    assert (String.eqb k key = false) as Hk.
    { destruct (String.eqb_spec k key) as [->|]; [|done].
      by destruct (Hnl _ _ Hx). }
    rewrite Hk. simpl.
    destruct (setitem_loop_skip (capacity s) (table s) key value h d Hcap
                0 h 0 (fuel - d)) as (a' & Ha' & E).
    { rewrite probe_0 by done. by apply wrap_small. }
    { lia. }
    { intros d' Hd'. destruct (Hbefore d') as (k' & v' & Hkv); [lia|].
      exists k', v'. split; [done|].
      destruct (String.eqb_spec k' key) as [->|]; [|done].
      by destruct (Hnl _ _ Hkv). }
    replace (d + (fuel - d)) with fuel in E by lia. rewrite E.
    destruct (fuel - d) as [|f] eqn:Ef; [lia|].
    simpl. destruct (Nat.leb_spec (capacity s) d); [lia|].
    rewrite Ha'. simpl. rewrite Hy.
    by destruct y as [|k' v' [|]].
  - assert (d = 0) as ->.
    { destruct d as [|d]; [done|]. destruct (Hbefore 0) as (k & v & Hkv); [lia|].
      rewrite probe_0 in Hkv by done. rewrite Hx in Hkv. by simplify_eq. }
    rewrite probe_0 by done.
    by destruct x as [|k v [|]].
Qed.

Section InsertFree.

(** The table after the entry [(key, value)] took the first cell without a
    live entry on the way from the hash value of [key]. *)

Context (cap : nat) (tbl : list (Slot V)) (key : string) (value : V) (d : nat).
Context (Hlen : length tbl = cap) (Hcap : 0 < cap).
Context (Hnl : ∀ j v, tbl !! j ≠ Some (Occupied key v true)).
Context (Hff : first_free cap tbl (hash_of cap key) d).

Local Abbreviation p := (probe cap (hash_of cap key) d).
Local Abbreviation tbl' := (<[p := Occupied key value true]> tbl).

Lemma free_lookup j x :
  tbl' !! j = Some x ↔ (j = p ∧ x = Occupied key value true) ∨ (j ≠ p ∧ tbl !! j = Some x).
Proof.
  assert (p < length tbl) by (rewrite Hlen; by apply probe_lt).
  rewrite list_lookup_insert_Some. split.
  - intros [(-> & -> & _)|[? ?]]; [by left|by right].
  - intros [[-> ->]|[? ?]]; [left; done|right; done].
Qed.

Lemma free_not_empty j : tbl !! j ≠ Some Empty → tbl' !! j ≠ Some Empty.
Proof. intros Hne Hj. apply free_lookup in Hj as [[_ [=]]|[_ ?]]. done. Qed.

Lemma free_unique_live : unique_live tbl → unique_live tbl'.
Proof.
  intros Hu i j k v v' Hi Hj.
  apply free_lookup in Hi as [[-> Hi]|[? Hi]], Hj as [[-> Hj]|[? Hj]];
    simplify_eq; try done.
  - by destruct (Hnl _ _ Hj).
  - by destruct (Hnl _ _ Hi).
  - by eapply Hu.
Qed.

Lemma free_reachable_live : reachable_live cap tbl → reachable_live cap tbl'.
Proof.
  pose proof Hff as (Hd & _ & Hbefore).
  intros Hr j k v Hj. apply free_lookup in Hj as [[-> [= -> ->]]|[? Hj]].
  - exists d. split; [done|]. split; [done|]. intros d' Hd'.
    apply free_not_empty. destruct (Hbefore d' Hd') as (k' & v' & ->). done.
  - destruct (Hr _ _ _ Hj) as (d0 & Hd0 & Hp0 & Hfull).
    exists d0. split; [done|]. split; [done|]. intros d' Hd'.
    by apply free_not_empty, Hfull.
Qed.

Lemma free_holds k v :
  holds tbl' k v ↔ (k = key ∧ v = value) ∨ holds tbl k v.
Proof.
  pose proof Hff as (Hd & (y & Hy & Hyl) & _).
  unfold holds. split.
  - intros [j Hj]. apply free_lookup in Hj as [[_ [= -> ->]]|[_ Hj]]; [by left|].
    right. by exists j.
  - intros [[-> ->]|[j Hj]].
    + exists p. apply free_lookup. by left.
    + exists j. apply free_lookup. right. split; [|done].
      intros ->. rewrite Hy in Hj. by simplify_eq.
Qed.

Lemma free_len :
  length (filter (λ x, is_live x = true) tbl')
  = length (filter (λ x, is_live x = true) tbl) + 1.
Proof.
  pose proof Hff as (Hd & (y & Hy & Hyl) & _).
  pose proof (live_count_insert tbl p y (Occupied key value true) Hy) as E.
  rewrite Hyl in E. simpl in E. lia.
Qed.

End InsertFree.

Lemma setitem_place_sound fuel s key value :
  sound s → __len__ s < capacity s →
  (∀ j v, table s !! j ≠ Some (Occupied key v true)) →
  capacity s < fuel →
  ∃ tbl', setitem_place fuel s key value = Some (set_table s tbl', Ok tt)
    ∧ sound (set_table s tbl')
    ∧ __len__ (set_table s tbl') = __len__ s + 1
    ∧ (∀ k v, holds tbl' k v ↔ (k = key ∧ v = value) ∨ holds (table s) k v).
Proof.
  intros [[Hlen Hcap] Huniq Hreach] Hroom Hnl Hfuel.
  destruct (first_free_exists (capacity s) (table s)
              (hash_of (capacity s) key)) as [d Hff];
    [by apply hash_of_lt|done..|].
  eexists. split; [by apply (setitem_place_free fuel s key value d)|].
  split; [split; simpl|split].
  - split; simpl; [by rewrite length_insert|done].
  - by eapply free_unique_live.
  - by eapply free_reachable_live.
  - unfold __len__. simpl. by eapply free_len.
  - intros k v. by eapply free_holds.
Qed.

(** ** The growth pass *)

Lemma unique_live_tail x tbl : unique_live (x :: tbl) → unique_live tbl.
Proof.
  intros Hu i j k v v' Hi Hj.
  assert (S i = S j) by (by eapply (Hu (S i) (S j))). lia.
Qed.

Lemma unique_live_NoDup tbl :
  unique_live tbl →
  NoDup (omap slot_key (filter (λ x, is_live x = true) tbl)).
Proof.
  induction tbl as [|x tbl IH]; intros Hu; [constructor|].
  pose proof (IH (unique_live_tail _ _ Hu)) as IH'.
  rewrite filter_cons. destruct (decide (is_live x = true)) as [Hx|]; [|done].
  destruct x as [|k v [|]]; try done. simpl. constructor; [|done].
  intros Hin. apply list_elem_of_omap in Hin as (y & Hy & Hk).
  apply list_elem_of_filter in Hy as [Hyl Hy].
  apply list_elem_of_lookup in Hy as [j Hj].
  destruct y as [|k' v' [|]]; simplify_eq/=.
  assert (0 = S j) by (by eapply (Hu 0 (S j))). lia.
Qed.

Lemma _rehash_sound fuel s :
  wf s → unique_live (table s) →
  0 < growthFactor s → capacity s * growthFactor s < fuel →
  ∃ s', _rehash fuel s = Some (s', Ok tt)
    ∧ clean s'
    ∧ capacity s' = capacity s * growthFactor s
    ∧ __len__ s' = __len__ s
    ∧ rehashing s' = false
    ∧ loadfactor s' = loadfactor s
    ∧ growthFactor s' = growthFactor s
    ∧ defVal s' = defVal s
    ∧ (∀ k v, holds (table s') k v ↔ holds (table s) k v).
Proof.
  intros [Hlen Hcap] Huniq Hgf Hfuel.
  unfold _rehash.
  set (s1 := mk _ _ _ _ _ _).
  set (l := filter (λ x, is_live x = true) (table s)).
  assert (Hl : length l ≤ capacity s).
  { rewrite <- Hlen. apply length_filter. }
  destruct (reinsert_clean fuel l s1) as (tbl' & E & Hc' & Hlen' & Hholds').
  { apply clean_empty. nia. }
  { apply Forall_forall. intros x Hx.
    by apply list_elem_of_filter in Hx as [? _]. }
  { by apply unique_live_NoDup. }
  { intros k _ j v b Hj. apply lookup_replicate in Hj as [? _]. done. }
  { unfold __len__. simpl. rewrite live_count_replicate. nia. }
  { done. }
  rewrite E. eexists. split; [done|].
  unfold __len__ in *. simpl in *. rewrite live_count_replicate in Hlen'.
  split; [by destruct Hc' as [[? ?] ? ? ?]|].
  repeat split; try done.
  - intros Hh. apply Hholds' in Hh as [[j Hj]|Hin].
    + apply lookup_replicate in Hj as [? _]. done.
    + by apply holds_filter.
  - intros Hh. apply Hholds'. right. by apply holds_filter.
Qed.

(** ** Reading and deleting a key that has a live entry *)

Lemma live_path s key v j :
  sound s → table s !! j = Some (Occupied key v true) →
  ∃ d, d < capacity s
    ∧ probe (capacity s) (hash_of (capacity s) key) d = j
    ∧ ∀ d', 0 ≤ d' < 0 + d →
        ∃ k' v' l', table s !! probe (capacity s) (hash_of (capacity s) key) d'
                    = Some (Occupied k' v' l')
                    ∧ String.eqb k' key && l' = false.
Proof.
  intros [[Hlen Hcap] Huniq Hreach] Hj.
  destruct (Hreach _ _ _ Hj) as (d & Hd & Hp & Hfull).
  exists d. split; [done|]. split; [done|]. intros d' Hd'.
  set (h := hash_of (capacity s) key) in *.
  assert (Hlt : probe (capacity s) h d' < length (table s))
    by (rewrite Hlen; by apply probe_lt).
  destruct (lookup_lt_is_Some_2 _ _ Hlt) as [x Hx].
  destruct x as [|k' v' l']; [by destruct (Hfull d'); [lia|]|].
  exists k', v', l'. split; [done|].
  destruct (String.eqb_spec k' key) as [->|]; [|done].
  destruct l'; [|done].
  assert (probe (capacity s) h d' = j) as Heq by (by eapply Huniq).
  rewrite <- Hp in Heq. apply probe_inj in Heq; lia.
Qed.

Lemma getitem_live fuel s key v j :
  sound s → table s !! j = Some (Occupied key v true) → capacity s < fuel →
  __getitem__ fuel s key = Some (Ok v).
Proof.
  intros Hs Hj Hfuel. pose proof Hs as [[Hlen Hcap] Huniq Hreach].
  destruct (live_path s key v j Hs Hj) as (d & Hd & Hp & Hskip).
  set (h := hash_of (capacity s) key) in *.
  assert (Hh : h < capacity s) by by apply hash_of_lt.
  assert (Hloop : getitem_loop fuel s key h = Some (Ok v)).
  { destruct (getitem_loop_skip s key h d (conj Hlen Hcap) 0 h (fuel - d))
      as (a' & Ha' & E); [|done|].
    { rewrite probe_0 by done. by apply wrap_small. }
    replace (d + (fuel - d)) with fuel in E by lia. rewrite E.
    destruct (fuel - d) as [|f] eqn:Ef; [lia|].
    simpl. rewrite Ha'. simpl. rewrite Hp, Hj.
    by rewrite String.eqb_refl. }
  unfold __getitem__. rewrite _hash_ok by done. fold h.
  destruct (table s !! h) as [[|k v0 [|]]|] eqn:Hx; try done.
  - destruct (String.eqb_spec k key) as [->|]; [|done].
    assert (h = j) as -> by (by eapply Huniq). congruence.
  - apply lookup_ge_None in Hx. lia.
Qed.

Lemma delitem_live fuel s key v j :
  sound s → table s !! j = Some (Occupied key v true) → capacity s < fuel →
  __delitem__ fuel s key
  = Some (set_table s (<[j := Occupied key v false]> (table s)), Ok tt).
Proof.
  intros Hs Hj Hfuel. pose proof Hs as [[Hlen Hcap] Huniq Hreach].
  destruct (live_path s key v j Hs Hj) as (d & Hd & Hp & Hskip).
  set (h := hash_of (capacity s) key) in *.
  assert (Hh : h < capacity s) by by apply hash_of_lt.
  assert (Hloop : delitem_loop fuel s key h
                  = Some (set_table s (<[j := Occupied key v false]> (table s)), Ok tt)).
  { destruct (delitem_loop_skip s key h d (conj Hlen Hcap) 0 h (fuel - d))
      as (a' & Ha' & E); [|done|].
    { rewrite probe_0 by done. by apply wrap_small. }
    replace (d + (fuel - d)) with fuel in E by lia. rewrite E.
    destruct (fuel - d) as [|f] eqn:Ef; [lia|].
    simpl. rewrite Ha'. simpl. rewrite Hp, Hj.
    by rewrite String.eqb_refl. }
  unfold __delitem__. rewrite _hash_ok by done. fold h.
  destruct (table s !! h) as [[|k v0 [|]]|] eqn:Hx; try done.
  - destruct (String.eqb_spec k key) as [->|]; [|done].
    assert (h = j) as -> by (by eapply Huniq). congruence.
  - apply lookup_ge_None in Hx. lia.
Qed.

Lemma tombstone_sound s key v j :
  sound s → table s !! j = Some (Occupied key v true) →
  sound (set_table s (<[j := Occupied key v false]> (table s)))
  ∧ ∀ k w, holds (<[j := Occupied key v false]> (table s)) k w
           ↔ k ≠ key ∧ holds (table s) k w.
Proof.
  intros [[Hlen Hcap] Huniq Hreach] Hj.
  assert (Hlook : ∀ i k w, <[j := Occupied key v false]> (table s) !! i
                           = Some (Occupied k w true)
                           → i ≠ j ∧ table s !! i = Some (Occupied k w true)).
  { intros i k w Hi.
    apply list_lookup_insert_Some in Hi as [(_ & [=] & _)|[? ?]]. done. }
  split; [split; simpl|].
  - split; simpl; [by rewrite length_insert|done].
  - intros i i' k w w' Hi Hi'.
    apply Hlook in Hi as [_ Hi], Hi' as [_ Hi']. by eapply Huniq.
  - intros i k w Hi. apply Hlook in Hi as [_ Hi].
    destruct (Hreach _ _ _ Hi) as (d & Hd & Hp & Hfull).
    exists d. split; [done|]. split; [done|]. intros d' Hd' He.
    apply list_lookup_insert_Some in He as [(_ & [=] & _)|[_ He]].
    by apply (Hfull d').
  - intros k w. split.
    + intros [i Hi]. apply Hlook in Hi as [Hne Hi]. split; [|by exists i].
      intros ->. apply Hne. by eapply Huniq.
    + intros [Hne [i Hi]]. exists i. rewrite list_lookup_insert_ne; [done|].
      intros ->. rewrite Hj in Hi. by simplify_eq.
Qed.

End Sound.

Section SoundRuns.

Import Hashtable HashtableFacts.

Context {V : Type}.

Implicit Types (s : t Q V) (tbl : list (Slot V)) (d : gmap string V).

(** ** Assignments and deletions under the growth policy *)

Lemma not_overloaded_room s :
  (loadfactor s <= 1)%Q → overloaded s = false → __len__ s < capacity s.
Proof.
  intros Hlf Hov. unfold overloaded in Hov.
  cbn [at_least times exact_arithmetic] in Hov.
  apply not_true_iff_false in Hov. rewrite Qle_bool_iff in Hov.
  apply Qnot_le_lt in Hov.
  assert (loadfactor s * inject_Z (Z.of_nat (capacity s))
          <= inject_Z (Z.of_nat (capacity s)))%Q as Hle.
  { rewrite <-(Qmult_1_l (inject_Z (Z.of_nat (capacity s)))) at 2.
    apply Qmult_le_compat_r; [done|].
    change 0%Q with (inject_Z 0). rewrite <-Zle_Qle. lia. }
  pose proof (Qlt_le_trans _ _ _ Hov Hle) as Hlt.
  rewrite <-Zlt_Qlt in Hlt. lia.
Qed.

Lemma len_le_capacity s : wf s → __len__ s ≤ capacity s.
Proof. intros [<- _]. apply length_filter. Qed.

Lemma setitem_sound fuel s key value :
  sound s → rehashing s = false →
  (loadfactor s <= 1)%Q → 2 ≤ growthFactor s →
  (∀ v, ¬ holds (table s) key v) →
  capacity s * growthFactor s < fuel →
  ∃ s', __setitem__ fuel s key value = Some (s', Ok tt)
    ∧ sound s' ∧ rehashing s' = false
    ∧ loadfactor s' = loadfactor s ∧ growthFactor s' = growthFactor s
    ∧ defVal s' = defVal s
    ∧ capacity s' ≤ capacity s * growthFactor s
    ∧ __len__ s' = __len__ s + 1
    ∧ (∀ k v, holds (table s') k v
              ↔ (k = key ∧ v = value) ∨ holds (table s) k v).
Proof.
  intros Hs Hflag Hlf Hgf Hnl Hfuel. pose proof Hs as [[Hlen Hcap] Huniq Hreach].
  unfold __setitem__. rewrite Hflag. cbn [negb andb].
  destruct (overloaded s) eqn:Hov.
  - destruct (_rehash_sound fuel s)
      as (s1 & E1 & Hc1 & Hcap1 & Hlen1 & Hflag1 & Hlf1 & Hgf1 & Hdv1 & Hh1);
      [done|done|lia|lia|].
    rewrite E1.
    pose proof (len_le_capacity s (conj Hlen Hcap)) as Hle.
    destruct (setitem_place_sound fuel s1 key value)
      as (tbl' & E & Hs' & Hlen' & Hholds'); [by apply clean_sound|nia| |lia|].
    { intros j v Hj. apply (Hnl v), Hh1. by exists j. }
    rewrite E. eexists. split; [reflexivity|]. simpl.
    split; [done|]. split; [done|]. split; [done|]. split; [done|].
    split; [done|]. split; [lia|]. split; [lia|].
    intros k v. by rewrite Hholds', Hh1.
  - destruct (setitem_place_sound fuel s key value)
      as (tbl' & E & Hs' & Hlen' & Hholds');
      [done|by apply not_overloaded_room| |nia|].
    { intros j v Hj. apply (Hnl v). by exists j. }
    rewrite E. eexists. split; [reflexivity|]. simpl.
    split; [done|]. split; [done|]. split; [done|]. split; [done|].
    split; [done|]. split; [nia|]. split; [done|]. done.
Qed.

Lemma delitem_sound fuel s key v :
  sound s → holds (table s) key v → capacity s < fuel →
  ∃ s', __delitem__ fuel s key = Some (s', Ok tt)
    ∧ sound s' ∧ rehashing s' = rehashing s
    ∧ loadfactor s' = loadfactor s ∧ growthFactor s' = growthFactor s
    ∧ defVal s' = defVal s
    ∧ capacity s' = capacity s
    ∧ __len__ s' + 1 = __len__ s
    ∧ (∀ k w, holds (table s') k w ↔ k ≠ key ∧ holds (table s) k w).
Proof.
  intros Hs [j Hj] Hfuel.
  destruct (tombstone_sound s key v j Hs Hj) as [Hs' Hholds'].
  eexists. split; [by eapply delitem_live|]. simpl.
  do 6 (split; [done|]). split; [|done].
  by apply tombstone_len.
Qed.

(** ** Runs that create and delete entries *)

Lemma pow_ge_1 g n : 2 ≤ g → 1 ≤ g ^ n.
Proof. intros. induction n; simpl; nia. Qed.

Lemma fuel_step cap g P fuel :
  2 ≤ g → 1 ≤ P → cap * (g * P) < fuel →
  cap < fuel ∧ cap * g < fuel
  ∧ ∀ c, c ≤ cap * g → c * P < fuel ∧ c * P ≤ cap * (g * P).
Proof.
  intros Hg HP Hfuel.
  assert (cap * (g * P) = cap * g * P) as E by lia. rewrite E in *.
  assert (cap ≤ cap * g) by nia.
  assert (cap * g ≤ cap * g * P) by nia.
  split; [lia|]. split; [lia|]. intros c Hc.
  assert (c * P ≤ cap * g * P) by (by apply Nat.mul_le_mono_r).
  lia.
Qed.

Lemma run_create_delete fuel (ops : list (op V)) :
  ∀ s d d',
    agrees s d → create_delete ops d = Some d' →
    capacity s * growthFactor s ^ length ops < fuel →
    ∃ s', run fuel s ops = Some (s', Ok tt)
      ∧ agrees s' d'
      ∧ defVal s' = defVal s
      ∧ capacity s' ≤ capacity s * growthFactor s ^ length ops.
Proof.
  induction ops as [|o ops IH]; intros s d d' Hag Hcd Hfuel.
  - simpl in *. injection Hcd as <-. exists s. split; [done|]. split; [done|].
    split; [done|]. lia.
  - destruct Hag as (Hs & Hflag & Hlf & Hgf & Hh & Hsize).
    pose proof (pow_ge_1 (growthFactor s) (length ops) Hgf) as Hpow.
    cbn [length Nat.pow] in Hfuel |- *.
    destruct (fuel_step _ _ _ _ Hgf Hpow Hfuel) as (Hf1 & Hf2 & Hf3).
    destruct o as [key value|key]; simpl in Hcd |- *.
    + destruct (d !! key) as [|] eqn:Hk; [done|].
      destruct (setitem_sound fuel s key value)
        as (s1 & E & Hs1 & Hflag1 & Hlf1 & Hgf1 & Hdv1 & Hcap1 & Hlen1 & Hh1);
        [done..| |done|].
      { intros v Hv. apply Hh in Hv. congruence. }
      rewrite E. destruct (Hf3 _ Hcap1) as [Hf4 Hf5].
      destruct (IH s1 (<[key := value]> d) d') as (s' & E' & Hag' & Hdv' & Hcap');
        [|done|by rewrite Hgf1|].
      { split; [done|]. split; [done|]. split; [by rewrite Hlf1|].
        split; [by rewrite Hgf1|]. split.
        - intros k v. rewrite Hh1, Hh, lookup_insert_Some. split.
          + intros [[-> ->]|Hd]; [by left|]. right. split; [|done].
            intros ->. congruence.
          + intros [[-> ->]|[_ Hd]]; [by left|by right].
        - rewrite Hlen1, Hsize, map_size_insert_None by done. lia. }
      exists s'. split; [done|]. split; [done|]. split; [congruence|].
      rewrite Hgf1 in Hcap'. lia.
    + destruct (d !! key) as [v|] eqn:Hk; [|done].
      destruct (delitem_sound fuel s key v)
        as (s1 & E & Hs1 & Hflag1 & Hlf1 & Hgf1 & Hdv1 & Hcap1 & Hlen1 & Hh1);
        [done|by apply Hh|done|].
      rewrite E.
      assert (capacity s1 ≤ capacity s * growthFactor s) as Hle by (rewrite Hcap1; nia).
      destruct (Hf3 _ Hle) as [Hf4 Hf5].
      destruct (IH s1 (delete key d) d') as (s' & E' & Hag' & Hdv' & Hcap');
        [|done|by rewrite Hgf1|].
      { split; [done|]. split; [congruence|]. split; [by rewrite Hlf1|].
        split; [by rewrite Hgf1|]. split.
        - intros k w. rewrite Hh1, Hh, lookup_delete_Some. split.
          + intros [? ?]. done.
          + intros [? ?]. done.
        - rewrite map_size_delete_Some by done. lia. }
      exists s'. split; [done|]. split; [done|]. split; [congruence|].
      rewrite Hgf1 in Hcap'. lia.
Qed.

Lemma agrees_init cap (dv : V) lf gf :
  0 < cap → (lf <= 1)%Q → 2 ≤ gf → agrees (__init__ cap dv lf gf) ∅.
Proof.
  intros Hcap Hlf Hgf. split; [by apply clean_sound, clean_empty|].
  split; [done|]. split; [done|]. split; [done|]. split.
  - intros k v. rewrite lookup_empty. split; [|done].
    intros Hh. by apply init_holds in Hh.
  - by rewrite init_len, map_size_empty.
Qed.

Lemma iter_keys tbl :
  (omap (λ x : Slot V, match x with Occupied k v true => Some (k, v) | _ => None end) tbl).*1
  = omap slot_key (filter (λ x, is_live x = true) tbl).
Proof.
  induction tbl as [|x tbl IH]; [done|].
  destruct x as [|k v [|]].
  - rewrite filter_cons_False by (simpl; congruence). apply IH.
  - rewrite filter_cons_True by done. simpl. f_equal. apply IH.
  - rewrite filter_cons_False by (simpl; congruence). apply IH.
Qed.

Lemma iter_holds s k v : (k, v) ∈ __iter__ s ↔ holds (table s) k v.
Proof.
  unfold __iter__, holds. rewrite list_elem_of_omap. split.
  - intros (x & Hx & Hkv). apply list_elem_of_lookup in Hx as [j Hj].
    exists j. by destruct x as [|k' v' [|]]; simplify_eq.
  - intros [j Hj]. exists (Occupied k v true). split; [|done].
    apply list_elem_of_lookup. by exists j.
Qed.

Lemma agrees_items s d : agrees s d → __iter__ s ≡ₚ map_to_list d.
Proof.
  intros (Hs & _ & _ & _ & Hh & _).
  apply NoDup_Permutation.
  - apply (NoDup_fmap_1 fst). unfold __iter__. rewrite iter_keys.
    apply unique_live_NoDup. by destruct Hs.
  - apply NoDup_map_to_list.
  - intros [k v]. by rewrite iter_holds, Hh, elem_of_map_to_list.
Qed.

End SoundRuns.

Section TableContract.

Import Hashtable HashtableFacts.

Context {V : Type}.

Implicit Types (s : t Q V) (tbl : list (Slot V)) (d : gmap string V).

(** X16.  The growth pass.  On a table in which no key has two live
    entries, [_rehash] multiplies the capacity by the growth factor, keeps
    every live entry with its value, drops the deleted ones, and leaves a
    table on which every entry is read back. *)
Theorem growth_keeps_live_entries {L : Type} {LF : LoadFactor L} fuel (s : t L V) :
  wf s → unique_live (table s) →
  0 < growthFactor s → capacity s * growthFactor s < fuel →
  ∃ s' : t L V, _rehash fuel s = Some (s', Ok tt)
    ∧ capacity s' = capacity s * growthFactor s
    ∧ rehashing s' = false
    ∧ __len__ s' = __len__ s
    ∧ no_tombstone (table s')
    ∧ (∀ k v, holds (table s') k v ↔ holds (table s) k v)
    ∧ (∀ k v, holds (table s) k v → __getitem__ fuel s' k = Some (Ok v)).
Proof.
  intros Hwf Hu Hgf Hfuel.
  destruct (_rehash_sound fuel s)
    as (s' & E & Hc & Hcap & Hlen & Hflag & _ & _ & _ & Hh); [done..|].
  exists s'. do 4 (split; [done|]). split; [by destruct Hc|]. split; [done|].
  intros k v Hkv. apply Hh in Hkv as [j Hj].
  eapply getitem_live; [by apply clean_sound|done|lia].
Qed.

(** X17.  Creating an entry.  On a table in which every live entry is found
    by the scans, with a load factor of at most 1 and a growth factor of at
    least 2, assigning a key that has no live entry succeeds, also when
    deleted entries lie on the way: the table is one entry longer, the new
    key is answered with its value, and every other key keeps its value. *)
Theorem assignment_creates_entry fuel s key value :
  sound s → rehashing s = false →
  (loadfactor s <= 1)%Q → 2 ≤ growthFactor s →
  (∀ v, ¬ holds (table s) key v) →
  capacity s * growthFactor s < fuel →
  ∃ s', __setitem__ fuel s key value = Some (s', Ok tt)
    ∧ sound s'
    ∧ __len__ s' = __len__ s + 1
    ∧ __getitem__ fuel s' key = Some (Ok value)
    ∧ (∀ k w, holds (table s) k w → __getitem__ fuel s' k = Some (Ok w)).
Proof.
  intros Hs Hflag Hlf Hgf Hnl Hfuel.
  destruct (setitem_sound fuel s key value)
    as (s' & E & Hs' & _ & _ & _ & _ & Hcap & Hlen & Hh); [done..|].
  exists s'. do 3 (split; [done|]). split.
  - destruct (proj2 (Hh key value)) as [j Hj]; [by left|].
    eapply getitem_live; [done..|lia].
  - intros k w Hkw. destruct (proj2 (Hh k w)) as [j Hj]; [by right|].
    eapply getitem_live; [done..|lia].
Qed.

(** X18.  Deleting an entry.  On a table in which every live entry is found
    by the scans and that has an empty cell, deleting a key that has a live
    entry succeeds; afterwards the key is answered with the default value,
    is not contained, cannot be deleted again ([KeyError]), and every other
    key keeps its value. *)
Theorem delete_hides_key fuel s key v e :
  sound s → holds (table s) key v → table s !! e = Some Empty →
  capacity s < fuel →
  ∃ s', __delitem__ fuel s key = Some (s', Ok tt)
    ∧ sound s'
    ∧ __len__ s' + 1 = __len__ s
    ∧ __getitem__ fuel s' key = Some (Ok (defVal s))
    ∧ __contains__ s' key = false
    ∧ __delitem__ fuel s' key = Some (s', Raise KeyError)
    ∧ (∀ k w, k ≠ key → holds (table s) k w →
              __getitem__ fuel s' k = Some (Ok w)).
Proof.
  intros Hs Hkv He Hfuel.
  destruct (delitem_sound fuel s key v)
    as (s' & E & Hs' & _ & _ & _ & Hdv & Hcap & Hlen & Hh); [done..|].
  assert (Hnl : ∀ j w, table s' !! j ≠ Some (Occupied key w true)).
  { intros j w Hj. destruct (proj1 (Hh key w)) as [Hne _]; [by exists j|done]. }
  assert (He' : table s' !! e = Some Empty).
  { destruct Hkv as [j Hj]. pose proof (delitem_live fuel s key v j Hs Hj Hfuel) as E'.
    rewrite E in E'. injection E' as ->. simpl.
    rewrite list_lookup_insert_ne; [done|]. intros ->. congruence. }
  destruct (missing_key_default fuel s' key e) as [Hget Hdel];
    [by destruct Hs'|done|done|lia|].
  exists s'. do 3 (split; [done|]). split; [by rewrite <-Hdv|].
  split; [|split; [done|]].
  - apply not_true_is_false. intros Hin.
    apply contains_keys, keys_live in Hin as [w [j Hj]]. by destruct (Hnl j w).
  - intros k w Hne Hkw. destruct (proj2 (Hh k w)) as [j Hj]; [done|].
    eapply getitem_live; [done..|lia].
Qed.

(** X19.  Round trip.  Take a new table with at least one cell, a load
    factor of at most 1 and a growth factor of at least 2, and any sequence
    of assignments and deletions in which every assignment is to a key that
    is not in the table at that moment and every deletion is of a key that
    is.  All statements succeed, through every growth pass, and the table
    then holds what a dictionary would: [__iter__] yields the dictionary's
    items, [__len__] is their number, [__contains__] knows its keys, every
    key of the dictionary is answered with the last value assigned to it,
    and every other key with the default value as long as a cell of the
    table is empty. *)
Theorem create_delete_round_trip fuel cap (dv : V) lf gf ops d :
  0 < cap → (lf <= 1)%Q → 2 ≤ gf →
  create_delete ops ∅ = Some d →
  cap * gf ^ length ops < fuel →
  ∃ s', run fuel (__init__ cap dv lf gf) ops = Some (s', Ok tt)
    ∧ __iter__ s' ≡ₚ map_to_list d
    ∧ __len__ s' = size d
    ∧ (∀ k, __contains__ s' k = true ↔ is_Some (d !! k))
    ∧ (∀ k v, d !! k = Some v → __getitem__ fuel s' k = Some (Ok v))
    ∧ (∀ k e, d !! k = None → table s' !! e = Some Empty →
              __getitem__ fuel s' k = Some (Ok dv)).
Proof.
  intros Hcap Hlf Hgf Hcd Hfuel.
  destruct (run_create_delete fuel ops (__init__ cap dv lf gf) ∅ d)
    as (s' & E & Hag & Hdv & Hcap'); [by apply agrees_init|done|done|].
  simpl in Hdv, Hcap'.
  pose proof Hag as (Hs & _ & _ & _ & Hh & Hsize).
  exists s'. split; [done|]. split; [by apply agrees_items|]. split; [done|].
  split; [|split].
  - intros k. rewrite contains_keys, keys_live. split.
    + intros [v Hv]. apply Hh in Hv. by exists v.
    + intros [v Hv]. exists v. by apply Hh.
  - intros k v Hkv. apply Hh in Hkv as [j Hj].
    eapply getitem_live; [done..|lia].
  - intros k e Hk He. rewrite <-Hdv.
    apply (missing_key_default fuel s' k e); [by destruct Hs|done| |lia].
    intros j v Hj. assert (d !! k = Some v) by (apply Hh; by exists j).
    congruence.
Qed.

End TableContract.

Section TableRuns.

Import Hashtable HashtableFacts.

(** A table of two cells that holds the key ["a"] in its home cell. *)
Local Abbreviation one_entry :=
  (mk 2 0%Z (1 # 2)%Q 2 [Empty; Occupied "a" 1%Z true] false).

Lemma one_entry_sound : sound one_entry.
Proof.
  split; [split; simpl; lia| |].
  - intros [|[|i]] [|[|j]] k v v' Hi Hj; by simplify_eq/=.
  - intros [|[|j]] k v Hj; simplify_eq/=.
    exists 0. split; [lia|]. split; [reflexivity|]. intros; lia.
Qed.

Lemma fresh_table_is_empty_witness :
  let s := __init__ 3 0%Z (1 # 2)%Q 2 in
  __len__ s = 0 ∧ keys s = [] ∧ values s = [] ∧ __iter__ s = []
  ∧ __bool__ s = false ∧ __contains__ s "a" = false
  ∧ __getitem__ 1 s "a" = Some (Ok 0%Z)
  ∧ __delitem__ 1 s "a" = Some (s, Raise KeyError).
Proof. apply (fresh_table_is_empty 3 0%Z (1 # 2)%Q 2 "a" 1); lia. Defined.

Lemma getitem_returns_entry_or_default_witness :
  ∃ v, Ok 1%Z = Ok v
       ∧ (holds (table one_entry) "a" v ∨ v = defVal one_entry).
Proof.
  apply (getitem_returns_entry_or_default 3 one_entry "a" (Ok 1%Z));
    [split; simpl; lia|reflexivity].
Defined.

Lemma delitem_flags_one_entry_witness :
  let s' := mk 2 0%Z (1 # 2)%Q 2 [Empty; Occupied "a" 1%Z false] false in
  (Ok tt = Ok tt
   ∧ ∃ j v, table one_entry !! j = Some (Occupied "a" v true)
            ∧ s' = set_table one_entry (<[j := Occupied "a" v false]> (table one_entry))
            ∧ __len__ s' + 1 = __len__ one_entry)
  ∨ (Ok tt = Raise KeyError ∧ s' = one_entry).
Proof.
  intros s'.
  apply (delitem_flags_one_entry 3 one_entry "a" s' (Ok tt));
    [split; simpl; lia|reflexivity].
Defined.

Lemma missing_key_with_empty_cell_witness :
  __getitem__ 3 one_entry "c" = Some (Ok 0%Z)
  ∧ __delitem__ 3 one_entry "c" = Some (one_entry, Raise KeyError)
  ∧ __contains__ one_entry "c" = false.
Proof.
  apply (missing_key_with_empty_cell 3 one_entry "c" 0);
    [split; simpl; lia|reflexivity| |simpl; lia].
  intros [|[|j]] v Hj; by simplify_eq/=.
Defined.

Lemma missing_key_without_empty_cell_witness :
  __getitem__ 1000 two_tombstones "c" = None
  ∧ __delitem__ 1000 two_tombstones "c" = None.
Proof.
  apply (missing_key_without_empty_cell 1000 two_tombstones "c");
    [split; simpl; lia| |].
  - intros [|[|j]] Hj; by simplify_eq/=.
  - intros [|[|j]] v Hj; by simplify_eq/=.
Defined.

Lemma assignment_is_read_back_witness :
  let s := mk 2 0%Z 1%Q 2 [Occupied "b" 1%Z false; Occupied "d" 2%Z true] false in
  let s' := mk 2 0%Z 1%Q 2 [Occupied "d" 3%Z true; Occupied "d" 2%Z true] false in
  wf s' ∧ __getitem__ 3 s' "d" = Some (Ok 3%Z).
Proof.
  intros s s'.
  apply (assignment_is_read_back 3 3 s "d" 3%Z s');
    [split; simpl; lia|simpl; lia|reflexivity|simpl; lia].
Defined.

Lemma full_table_raises_witness :
  let s := mk 1 0%Z 2%Q 1 [Occupied "a" 1%Z true] false in
  __setitem__ 2 s "b" 5%Z = Some (s, Raise RunTimeError).
Proof.
  intros s. apply (full_table_raises 2 s "b" 5%Z);
    [split; simpl; lia|by right| |simpl; lia].
  intros [|j] Hj; [|simpl in Hj; lia]. by exists "a"%string, 1%Z.
Defined.

Lemma growth_keeps_live_entries_witness :
  ∃ s', _rehash 5 two_tombstones = Some (s', Ok tt)
    ∧ capacity s' = capacity two_tombstones * growthFactor two_tombstones
    ∧ rehashing s' = false
    ∧ __len__ s' = __len__ two_tombstones
    ∧ no_tombstone (table s')
    ∧ (∀ k v, holds (table s') k v ↔ holds (table two_tombstones) k v)
    ∧ (∀ k v, holds (table two_tombstones) k v →
              __getitem__ 5 s' k = Some (Ok v)).
Proof.
  apply (growth_keeps_live_entries 5 two_tombstones);
    [split; simpl; lia| |simpl; lia|simpl; lia].
  intros [|[|i]] [|[|j]] k v v' Hi Hj; by simplify_eq/=.
Defined.

Lemma assignment_creates_entry_witness :
  ∃ s', __setitem__ 5 one_entry "b" 2%Z = Some (s', Ok tt)
    ∧ sound s'
    ∧ __len__ s' = __len__ one_entry + 1
    ∧ __getitem__ 5 s' "b" = Some (Ok 2%Z)
    ∧ (∀ k w, holds (table one_entry) k w → __getitem__ 5 s' k = Some (Ok w)).
Proof.
  apply (assignment_creates_entry 5 one_entry "b" 2%Z);
    [apply one_entry_sound|reflexivity|by unfold Qle|simpl; lia| |simpl; lia].
  intros v [[|[|j]] Hj]; by simplify_eq/=.
Defined.

Lemma delete_hides_key_witness :
  ∃ s', __delitem__ 3 one_entry "a" = Some (s', Ok tt)
    ∧ sound s'
    ∧ __len__ s' + 1 = __len__ one_entry
    ∧ __getitem__ 3 s' "a" = Some (Ok (defVal one_entry))
    ∧ __contains__ s' "a" = false
    ∧ __delitem__ 3 s' "a" = Some (s', Raise KeyError)
    ∧ (∀ k w, k ≠ "a"%string → holds (table one_entry) k w →
              __getitem__ 3 s' k = Some (Ok w)).
Proof.
  apply (delete_hides_key 3 one_entry "a" 1%Z 0);
    [apply one_entry_sound|by exists 1|reflexivity|simpl; lia].
Defined.

Lemma create_delete_round_trip_witness :
  let ops := [SetItem "a" 1%Z; SetItem "b" 2%Z; DelItem "a"] in
  let d : gmap string Z := delete "a"%string (<["b"%string := 2%Z]> (<["a"%string := 1%Z]> ∅)) in
  ∃ s', run 20 (__init__ 2 0%Z (1 # 2)%Q 2) ops = Some (s', Ok tt)
    ∧ __iter__ s' ≡ₚ map_to_list d
    ∧ __len__ s' = size d
    ∧ (∀ k, __contains__ s' k = true ↔ is_Some (d !! k))
    ∧ (∀ k v, d !! k = Some v → __getitem__ 20 s' k = Some (Ok v))
    ∧ (∀ k e, d !! k = None → table s' !! e = Some Empty →
              __getitem__ 20 s' k = Some (Ok 0%Z)).
Proof.
  intros ops d.
  apply (create_delete_round_trip 20 2 0%Z (1 # 2)%Q 2 ops d);
    [lia|by unfold Qle|lia|vm_compute; reflexivity|simpl; lia].
Defined.

End TableRuns.
